(** * State-sync commitment manager of polybft (polygon-edge)

    A shallow embedding of [stateSyncManager] (state_sync_manager.go) and of
    the quorum helpers of [consensusRuntime] (consensus_runtime.go).

    The manager is a record of its per-epoch fields plus the bolt store it
    owns; every method is a function from the manager to the manager after
    the call and the returned error, run with no other goroutine in
    between.  The sections a method runs under the epoch lock and the
    writes it sends to the store are the atomic steps that goroutines
    interleave; [PostEpoch], which releases the lock before it builds, is
    the sequence of its two sections.  A call that fails inside the store
    returns the error of the store; a call that dereferences the nil
    validator set panics.  Goroutines ([Close], the tracker and its
    cancellation watcher) are modelled apart, as an interleaving step
    relation. *)

From Stdlib Require Import ZArith List Lia Sorting.Sorted.
From stdpp Require Import base option countable gmap sets list list_numbers
  strings fin_maps sorting.

Local Open Scope Z_scope.
#[local] Set Warnings "-clear-no-such-hyp".


(** ** Primitive data *)

(** Go's [[]byte], [types.Hash] (32 bytes) and [types.Address] (20 bytes). *)
Abbreviation bytes := (list Byte.byte).

#[global] Instance byte_eq_dec : EqDecision Byte.byte := Byte.byte_eq_dec.

#[global] Program Instance byte_countable : Countable Byte.byte :=
  inj_countable Byte.to_N Byte.of_N _.
Next Obligation. intros b. apply Byte.of_to_N. Qed.

(** [uint64] arithmetic wraps around. *)
Definition u64_modulus : Z := 2 ^ 64.
Definition wrap64 (x : Z) : Z := x mod u64_modulus.
Definition is_u64 (x : Z) : Prop := 0 <= x < u64_modulus.

(** minimum number of stateSyncEvents that a commitment can have *)
Definition minCommitmentSize : nat := 2.

(** ** Errors

    [fmt.Errorf("...: %w", err)] keeps the wrapped error visible to
    [errors.Is], so only the sentinel (or the failing call) is recorded. *)
Inductive error : Type :=
| errQuorumNotReached        (* "quorum not reached for commitment message" *)
| errNotEnoughStateSyncs
| errNotAValidator           (* "node is not a validator" *)
| errNotAmongActiveValidators (* "validator is not among the active validator set" *)
| errNoCommitmentForStateSync (* no stored commitment covers the id *)
| errIndexOutOfRange         (* no first or last event to span *)
| errHash                    (* commitment.Hash() failed *)
| errUnmarshalSignature      (* bls.UnmarshalSignature failed *)
| errAggregate               (* signatures.Aggregate().Marshal() failed *)
| errMerkleTree              (* createMerkleTree failed *)
| errSign                    (* key.Sign failed *)
| errSystemState             (* SystemState.GetNextCommittedIndex failed *)
| errDecodeTx                (* getCommitmentMessageSignedTx failed *)
| errIo.                     (* a call of the store failed *)

#[global] Instance error_eq_dec : EqDecision error.
Proof. solve_decision. Defined.

Inductive result (A : Type) : Type :=
| Ok (a : A)
| Err (e : error).
Arguments Ok {A} a.
Arguments Err {A} e.

Definition of_option {A} (e : error) (o : option A) : result A :=
  match o with
  | Some a => Ok a
  | None => Err e
  end.

(** ** Records of the data model

    Field names are those of the Go structs; where two structs share a
    field name, or the name is reserved, a prefix or suffix tells them
    apart ([msgFromIndex], [Signature_bytes], [Proof_path]).  The struct
    [Signature] of the aggregated signature is [AggSignatureT] here. *)

Record StateSyncEvent : Type := {
  ID : Z;
  Sender : bytes;
  Receiver : bytes;
  Data : bytes;
}.

Record MessageSignature : Type := {
  From : string;
  Signature_bytes : bytes;
}.

Record TransportMessage : Type := {
  Hash : bytes;
  Signature : bytes;
  NodeID : string;
  EpochNumber : Z;
}.

Record CommitmentMessage : Type := {
  MerkleRootHash : bytes;
  msgFromIndex : Z;
  msgToIndex : Z;
}.

Definition NewCommitmentMessage (root : bytes) (fromIndex toIndex : Z)
  : CommitmentMessage :=
  {| MerkleRootHash := root; msgFromIndex := fromIndex; msgToIndex := toIndex |}.

(** [bitmap.Bitmap]: bit [i] of the number is bit [i] of the bitmap. *)
Record AggSignatureT : Type := {
  AggregatedSignature : bytes;
  Bitmap : Z;
}.

Record CommitmentMessageSigned : Type := {
  Message : CommitmentMessage;
  AggSignature : AggSignatureT;
  PublicKeys : list bytes;
}.

Record StateSyncProof : Type := {
  Proof_path : list bytes;
  StateSync : StateSyncEvent;
}.

#[global] Instance StateSyncEvent_eq_dec : EqDecision StateSyncEvent.
Proof. solve_decision. Defined.
#[global] Instance MessageSignature_eq_dec : EqDecision MessageSignature.
Proof. solve_decision. Defined.

(** The calls of the store, each with its arguments. *)
Inductive storeCall : Type :=
| call_insertStateSyncEvent (event : StateSyncEvent)
| call_getStateSyncEventsForCommitment (fromIndex toIndex : Z)
| call_insertMessageVote (epoch : Z) (key : bytes) (vote : MessageSignature)
| call_getMessageVotes (epoch : Z) (hash : bytes)
| call_insertCommitmentMessage (commitment : CommitmentMessageSigned)
| call_getCommitmentForStateSync (stateSyncID : Z)
| call_insertStateSyncProofs (proofs : list StateSyncProof)
| call_getStateSyncProof (stateSyncID : Z).

(** ** Collaborators

    Packages the manager calls but does not own: address and BLS codecs, the
    Merkle builder, the validator key, the event ABI and the decoder of the
    commitment-submission transaction.  They are deterministic functions that
    may fail; [None] stands for a returned error. *)
Class Collaborators : Type := {
  MerkleTreeT : Type;
  BlsSignature : Type;
  BlsPublicKey : Type;
  Log : Type;                    (* ethgo.Log *)
  Transaction : Type;            (* types.Transaction *)
  StringToAddress : string -> bytes;         (* types.StringToAddress *)
  AddressString : bytes -> string;           (* types.Address.String *)
  UnmarshalSignature : bytes -> option BlsSignature;
  AggregateMarshal : list BlsSignature -> option bytes;
  BlsKeyMarshal : BlsPublicKey -> bytes;
  createMerkleTree : list StateSyncEvent -> option MerkleTreeT;
  MerkleTree_Hash : MerkleTreeT -> bytes;
  GenerateProof : MerkleTreeT -> Z -> Z -> list bytes;
  CommitmentMessage_Hash : CommitmentMessage -> option bytes;
  key_Sign : bytes -> option bytes;          (* s.config.key.Sign *)
  key_String : string;                       (* s.config.key.String() *)
  stateTransferEventABI_Match : Log -> bool;
  decodeStateSyncEvent : Log -> option StateSyncEvent;
  getCommitmentMessageSignedTx :
    list Transaction -> result (option CommitmentMessageSigned);
}.

Section Manager.
Context `{Collaborators}.

(** A pending commitment. *)
Record Commitment : Type := {
  MerkleTree : MerkleTreeT;
  Epoch : Z;
  FromIndex : Z;
  ToIndex : Z;
}.

Record ValidatorMetadata : Type := {
  Address : bytes;
  BlsKey : BlsPublicKey;
}.

(** The [ValidatorSet] interface, as the methods the manager calls. *)
Record ValidatorSet : Type := {
  Includes : bytes -> bool;
  Len : Z;
  Accounts : list ValidatorMetadata;
  HasQuorum : gset bytes -> bool;
}.

(** *** The store

    Modelled from the spec: the bolt-backed [State] (section 4.4 and the
    persistent layout of section 6) is not part of the sources.  Four maps:
    events by id, votes by (epoch, digest) and then by sender, accepted
    commitments by [toId], proofs by event id.  Every call of the store can
    fail (section 7, [Io]): [failing] tells of each call, by its name and
    arguments, whether the store fails it; a failed call changes nothing
    and returns [errIo].  An event is held under its id as the row of
    its other fields, so the event read under an id carries that id. *)
Record eventRow : Type := {
  row_Sender : bytes;
  row_Receiver : bytes;
  row_Data : bytes;
}.

Definition rowOf (ev : StateSyncEvent) : eventRow :=
  {| row_Sender := Sender ev; row_Receiver := Receiver ev;
     row_Data := Data ev |}.

Definition eventOf (id : Z) (row : eventRow) : StateSyncEvent :=
  {| ID := id; Sender := row_Sender row; Receiver := row_Receiver row;
     Data := row_Data row |}.

Record State : Type := {
  stateSyncEvents : gmap Z eventRow;
  messageVotes : gmap (Z * bytes) (gmap string bytes);
  commitmentMessages : gmap Z CommitmentMessageSigned;
  stateSyncProofs : gmap Z StateSyncProof;
  failing : storeCall -> bool;
}.

(** The events map after the write of [ev], under its id. *)
Definition putStateSyncEvent (st : State) (ev : StateSyncEvent) : State :=
  {| stateSyncEvents := <[ID ev := rowOf ev]> (stateSyncEvents st);
     messageVotes := messageVotes st;
     commitmentMessages := commitmentMessages st;
     stateSyncProofs := stateSyncProofs st;
     failing := failing st |}.

(** The event the events map holds under [id]. *)
Definition storedEvent (st : State) (id : Z) : option StateSyncEvent :=
  eventOf id <$> stateSyncEvents st !! id.

(** Modelled from the spec: [insertStateSyncEvent(ev)], idempotent on
    [ev.id]. *)
Definition insertStateSyncEvent (st : State) (ev : StateSyncEvent)
  : result State :=
  if failing st (call_insertStateSyncEvent ev) then Err errIo
  else Ok (putStateSyncEvent st ev).

(** Modelled from the spec: the range scan of the events map, the events
    with ids in [[fromId, toId]] in increasing id order. *)
Definition scanStateSyncEvents (st : State) (fromIndex toIndex : Z)
  : list StateSyncEvent :=
  omap (storedEvent st) (seqZ fromIndex (toIndex - fromIndex + 1)).

(** Modelled from the spec: [getStateSyncEventsForCommitment(fromId, toId)]
    returns the events with ids in [[fromId, toId]] and fails with
    [NotEnoughStateSyncs] when the scan yields fewer than
    [minCommitmentSize] events (the manager only ever asks for the window
    of a commitment).  As in Go, the events come back next to the error;
    a call that the store fails yields no event. *)
Definition getStateSyncEventsForCommitment (st : State) (fromIndex toIndex : Z)
  : list StateSyncEvent * option error :=
  if failing st (call_getStateSyncEventsForCommitment fromIndex toIndex)
  then ([], Some errIo)
  else
    let events := scanStateSyncEvents st fromIndex toIndex in
    (events,
     if decide (length events < minCommitmentSize)%nat
     then Some errNotEnoughStateSyncs else None).

Definition votesAt (st : State) (epoch : Z) (digest : bytes)
  : gmap string bytes :=
  default ∅ (messageVotes st !! (epoch, digest)).

(** The votes map after the upsert of [vote] by (epoch, digest,
    vote.from). *)
Definition putMessageVote (st : State) (epoch : Z) (digest : bytes)
    (vote : MessageSignature) : State :=
  {| stateSyncEvents := stateSyncEvents st;
     messageVotes :=
       <[(epoch, digest) :=
           <[From vote := Signature_bytes vote]> (votesAt st epoch digest)]>
         (messageVotes st);
     commitmentMessages := commitmentMessages st;
     stateSyncProofs := stateSyncProofs st;
     failing := failing st |}.

(** Modelled from the spec: [insertMessageVote(epoch, digest, vote)], an
    upsert by (epoch, digest, vote.from) that returns the number of distinct
    votes now recorded for (epoch, digest). *)
Definition insertMessageVote (st : State) (epoch : Z) (digest : bytes)
    (vote : MessageSignature) : result (State * nat) :=
  if failing st (call_insertMessageVote epoch digest vote) then Err errIo
  else
    let st' := putMessageVote st epoch digest vote in
    Ok (st', size (votesAt st' epoch digest)).

(** The votes recorded for (epoch, digest). *)
Definition recordedVotes (st : State) (epoch : Z) (digest : bytes)
  : list MessageSignature :=
  (fun kv => {| From := kv.1; Signature_bytes := kv.2 |})
    <$> map_to_list (votesAt st epoch digest).

(** Modelled from the spec: [getMessageVotes(epoch, digest)]. *)
Definition getMessageVotes (st : State) (epoch : Z) (digest : bytes)
  : result (list MessageSignature) :=
  if failing st (call_getMessageVotes epoch digest) then Err errIo
  else Ok (recordedVotes st epoch digest).

(** The commitments map after the write of [c], under its [toId]. *)
Definition putCommitmentMessage (st : State) (c : CommitmentMessageSigned)
  : State :=
  {| stateSyncEvents := stateSyncEvents st;
     messageVotes := messageVotes st;
     commitmentMessages :=
       <[msgToIndex (Message c) := c]> (commitmentMessages st);
     stateSyncProofs := stateSyncProofs st;
     failing := failing st |}.

(** Modelled from the spec: [insertCommitmentMessage(signed)], keyed by
    [toId]. *)
Definition insertCommitmentMessage (st : State) (c : CommitmentMessageSigned)
  : result State :=
  if failing st (call_insertCommitmentMessage c) then Err errIo
  else Ok (putCommitmentMessage st c).

Definition covers (id : Z) (c : CommitmentMessageSigned) : bool :=
  (msgFromIndex (Message c) <=? id) && (id <=? msgToIndex (Message c)).

(** Of two candidates, keep the one with the greater [toId]. *)
Definition greaterToId (acc : option CommitmentMessageSigned)
    (c : CommitmentMessageSigned) : option CommitmentMessageSigned :=
  match acc with
  | None => Some c
  | Some a =>
      if msgToIndex (Message a) <? msgToIndex (Message c) then Some c else Some a
  end.

(** The accepted commitment whose range covers [id]: of those that cover
    it, the one with the greatest [toId]. *)
Definition coveringCommitment (st : State) (id : Z)
  : option CommitmentMessageSigned :=
  foldl greaterToId None
    (filter (fun c => covers id c = true)
            (snd <$> map_to_list (commitmentMessages st))).

(** Modelled from the spec: [getCommitmentForStateSync(id)] locates the
    accepted commitment whose range covers [id] (the greatest [toId >= id]
    whose [fromId <= id]); it fails when there is none. *)
Definition getCommitmentForStateSync (st : State) (id : Z)
  : result CommitmentMessageSigned :=
  if failing st (call_getCommitmentForStateSync id) then Err errIo
  else of_option errNoCommitmentForStateSync (coveringCommitment st id).

(** The proofs map after the write of [proofs], each under the id of its
    event. *)
Definition putStateSyncProofs (st : State) (proofs : list StateSyncProof)
  : State :=
  {| stateSyncEvents := stateSyncEvents st;
     messageVotes := messageVotes st;
     commitmentMessages := commitmentMessages st;
     stateSyncProofs :=
       foldl (fun m p => <[ID (StateSync p) := p]> m) (stateSyncProofs st) proofs;
     failing := failing st |}.

(** Modelled from the spec: [insertStateSyncProofs(proofs)], keyed by the
    event id. *)
Definition insertStateSyncProofs (st : State) (proofs : list StateSyncProof)
  : result State :=
  if failing st (call_insertStateSyncProofs proofs) then Err errIo
  else Ok (putStateSyncProofs st proofs).

(** Modelled from the spec: [getStateSyncProof(id)], nil when absent. *)
Definition getStateSyncProof (st : State) (id : Z)
  : result (option StateSyncProof) :=
  if failing st (call_getStateSyncProof id) then Err errIo
  else Ok (stateSyncProofs st !! id).

(** *** The manager *)

(** [stateSyncManager]: the store, the configured [maxCommitmentSize], the
    per-epoch fields, and the messages handed to [multicast] so far. *)
Record stateSyncManager : Type := {
  state : State;
  maxCommitmentSize : Z;
  pendingCommitments : list Commitment;
  validatorSet : option ValidatorSet;      (* [None] is the nil interface *)
  epoch : Z;
  nextCommittedIndex : Z;
  published : list TransportMessage;
}.

Definition NewStateSyncManager (st : State) (maxSize : Z) : stateSyncManager :=
  {| state := st; maxCommitmentSize := maxSize; pendingCommitments := [];
     validatorSet := None; epoch := 0; nextCommittedIndex := 0;
     published := [] |}.

Definition set_state (s : stateSyncManager) (st : State) : stateSyncManager :=
  {| state := st; maxCommitmentSize := maxCommitmentSize s;
     pendingCommitments := pendingCommitments s;
     validatorSet := validatorSet s; epoch := epoch s;
     nextCommittedIndex := nextCommittedIndex s; published := published s |}.

(** Modelled from the spec: [NewCommitment(epoch, events)] builds the Merkle
    tree of the events; the commitment spans the ids of the first and of the
    last event. *)
Definition NewCommitment (epoch : Z) (events : list StateSyncEvent)
  : result Commitment :=
  match createMerkleTree events, head events, last events with
  | Some tree, Some first, Some lst =>
      Ok {| MerkleTree := tree; Epoch := epoch;
            FromIndex := ID first; ToIndex := ID lst |}
  | None, _, _ => Err errMerkleTree
  | _, _, _ => Err errIndexOutOfRange
  end.

(** [commitment.Hash()]: the digest of the message (root, fromId, toId). *)
Definition Commitment_Hash (c : Commitment) : result bytes :=
  of_option errHash
    (CommitmentMessage_Hash
       (NewCommitmentMessage (MerkleTree_Hash (MerkleTree c))
          (FromIndex c) (ToIndex c))).

(** The loop filling [validatorAddrToIndex]; a later validator with the same
    address string overwrites the index of an earlier one. *)
Fixpoint indexValidators (i : nat) (vs : list ValidatorMetadata)
    (m : gmap string nat) : gmap string nat :=
  match vs with
  | [] => m
  | v :: vs' => indexValidators (S i) vs' (<[AddressString (Address v) := i]> m)
  end.

(** What the vote loop of the aggregation accumulates. *)
Record aggregation : Type := {
  agg_signatures : list BlsSignature;
  agg_publicKeys : list bytes;
  agg_bitmap : Z;
  agg_signers : gset bytes;
}.

Definition aggregation_empty : aggregation :=
  {| agg_signatures := []; agg_publicKeys := []; agg_bitmap := 0;
     agg_signers := ∅ |}.

(** The loop over the votes of [getAggSignatureForCommitmentMessage].
    [None] is a run-time panic: [validatorsMetadata[index]] with the index
    out of range. *)
Fixpoint collectVotes (index : gmap string nat)
    (validatorsMetadata : list ValidatorMetadata)
    (votes : list MessageSignature) (acc : aggregation)
  : option (result aggregation) :=
  match votes with
  | [] => Some (Ok acc)
  | vote :: rest =>
      match index !! From vote with
      | None => collectVotes index validatorsMetadata rest acc
      | Some i =>
          match UnmarshalSignature (Signature_bytes vote) with
          | None => Some (Err errUnmarshalSignature)
          | Some signature =>
              match validatorsMetadata !! i with
              | None => None
              | Some v =>
                  collectVotes index validatorsMetadata rest
                    {| agg_signatures := agg_signatures acc ++ [signature];
                       agg_publicKeys :=
                         agg_publicKeys acc ++ [BlsKeyMarshal (BlsKey v)];
                       agg_bitmap := Z.setbit (agg_bitmap acc) (Z.of_nat i);
                       agg_signers :=
                         {[ StringToAddress (From vote) ]} ∪ agg_signers acc |}
              end
          end
      end
  end.

(** [getAggSignatureForCommitmentMessage] checks if pending commitment has
    quorum, and if it does, aggregates the signatures.  [None] is a
    run-time panic: without a validator set, [validatorSet.Len()] is a
    method call on the nil interface. *)
Definition getAggSignatureForCommitmentMessage (s : stateSyncManager)
    (commitment : Commitment) : option (result (AggSignatureT * list bytes)) :=
  match validatorSet s with
  | None => None
  | Some vs =>
      let validatorsMetadata := Accounts vs in
      let validatorAddrToIndex := indexValidators 0 validatorsMetadata ∅ in
      match Commitment_Hash commitment with
      | Err e => Some (Err e)
      | Ok commitmentHash =>
          (* get all the votes from the database for this commitment *)
          match getMessageVotes (state s) (Epoch commitment) commitmentHash with
          | Err e => Some (Err e)
          | Ok votes =>
              match collectVotes validatorAddrToIndex validatorsMetadata votes
                      aggregation_empty with
              | None => None
              | Some (Err e) => Some (Err e)
              | Some (Ok acc) =>
                  if negb (HasQuorum vs (agg_signers acc))
                  then Some (Err errQuorumNotReached)
                  else
                    match AggregateMarshal (agg_signatures acc) with
                    | None => Some (Err errAggregate)
                    | Some aggregatedSignature =>
                        Some (Ok ({| AggregatedSignature := aggregatedSignature;
                                     Bitmap := agg_bitmap acc |},
                                  agg_publicKeys acc))
                    end
              end
          end
      end
  end.

(** The loop of [Commitment], over the pending commitments from the last
    one down to the first; [rev_pending] is the list in that order.  [None]
    is the panic of the aggregation. *)
Fixpoint Commitment_loop (s : stateSyncManager) (rev_pending : list Commitment)
  : option (result (option CommitmentMessageSigned)) :=
  match rev_pending with
  | [] => Some (Ok None)
  | commitment :: older =>
      match getAggSignatureForCommitmentMessage s commitment with
      | None => None
      | Some (Err e) =>
          if decide (e = errQuorumNotReached)
          then Commitment_loop s older
          else Some (Err e)
      | Some (Ok (aggregatedSignature, publicKeys)) =>
          Some (Ok (Some {| Message :=
                              NewCommitmentMessage
                                (MerkleTree_Hash (MerkleTree commitment))
                                (FromIndex commitment) (ToIndex commitment);
                            AggSignature := aggregatedSignature;
                            PublicKeys := publicKeys |}))
      end
  end.

(** [Commitment] returns a commitment to be submitted if there is a pending
    commitment with quorum. *)
Definition stateSyncManager_Commitment (s : stateSyncManager)
  : option (result (option CommitmentMessageSigned)) :=
  Commitment_loop s (rev (pendingCommitments s)).

(** [saveVote] saves the gotten vote to boltDb for later quorum check and
    signature aggregation. *)
Definition saveVote (s : stateSyncManager) (msg : TransportMessage)
  : stateSyncManager * option error :=
  let epoch := epoch s in
  match validatorSet s with
  | None => (s, None)            (* Epoch metadata is undefined *)
  | Some valSet =>
      if EpochNumber msg <? epoch
      then (s, None)             (* message for some of the older epochs *)
      else if negb (Includes valSet (StringToAddress (NodeID msg)))
      then (s, Some errNotAmongActiveValidators)
      else
        let msgVote :=
          {| From := NodeID msg; Signature_bytes := Signature msg |} in
        match insertMessageVote (state s) (EpochNumber msg) (Hash msg)
                msgVote with
        | Err err => (s, Some err)    (* error inserting message vote *)
        | Ok (st, numSignatures) => (set_state s st, None)
        end
  end.

(** The guard [len(s.pendingCommitments) > 0 &&
    s.pendingCommitments[len-1].ToIndex >= stateSyncEvents[len-1].ID]. *)
Definition alreadyBuilt (pending : list Commitment)
    (stateSyncEvents : list StateSyncEvent) : bool :=
  match last pending, last stateSyncEvents with
  | Some lastPending, Some lastEvent => ID lastEvent <=? ToIndex lastPending
  | _, _ => false
  end.

(** [buildCommitment] builds a new commitment, signs it and gossips its vote
    for it. *)
Definition buildCommitment (s : stateSyncManager)
  : stateSyncManager * option error :=
  let epoch := epoch s in
  let fromIndex := nextCommittedIndex s in
  let '(stateSyncEvents, err) :=
    getStateSyncEventsForCommitment (state s) fromIndex
      (wrap64 (fromIndex + maxCommitmentSize s - 1)) in
  if match err with
     | Some e => negb (bool_decide (e = errNotEnoughStateSyncs))
     | None => false
     end
  then (s, err)
  else if decide (length stateSyncEvents < minCommitmentSize)%nat
  then (s, None)   (* not enough state sync events for a minimum commitment *)
  else if alreadyBuilt (pendingCommitments s) stateSyncEvents
  then (s, None)   (* already built a commitment of this size *)
  else
    match NewCommitment epoch stateSyncEvents with
    | Err e => (s, Some e)
    | Ok commitment =>
        match Commitment_Hash commitment with
        | Err e => (s, Some e)
        | Ok hashBytes =>
            match key_Sign hashBytes with
            | None => (s, Some errSign)
            | Some signature =>
                let sig :=
                  {| From := key_String; Signature_bytes := signature |} in
                match insertMessageVote (state s) epoch hashBytes sig with
                | Err e => (s, Some e)
                | Ok (st, _) =>
                    ({| state := st;
                        maxCommitmentSize := maxCommitmentSize s;
                        pendingCommitments :=
                          pendingCommitments s ++ [commitment];
                        validatorSet := validatorSet s;
                        epoch := epoch;
                        nextCommittedIndex := nextCommittedIndex s;
                        published :=
                          published s ++
                            [{| Hash := hashBytes; Signature := signature;
                                NodeID := key_String;
                                EpochNumber := epoch |}] |},
                     None)
                end
            end
        end
    end.

(** [AddLog] saves the received log from event tracker if it matches a state
    sync event ABI.  Errors are logged, never returned. *)
Definition AddLog (s : stateSyncManager) (eventLog : Log) : stateSyncManager :=
  if negb (stateTransferEventABI_Match eventLog) then s
  else
    match decodeStateSyncEvent eventLog with
    | None => s
    | Some event =>
        match insertStateSyncEvent (state s) event with
        | Err _ => s     (* could not save state sync event to boltDb *)
        | Ok st => (buildCommitment (set_state s st)).1
        end
    end.

(** [PostEpochRequest], as far as the manager reads it. *)
Record PostEpochRequest : Type := {
  NewEpochID : Z;
  req_ValidatorSet : option ValidatorSet;
  GetNextCommittedIndex : result Z;     (* req.SystemState.GetNextCommittedIndex() *)
}.

(** The section of [PostEpoch] between [s.lock.Lock()] and
    [s.lock.Unlock()]: the pending commitments are discarded and the
    validator set and the epoch installed before the system state is
    read. *)
Definition PostEpoch_locked (s : stateSyncManager) (req : PostEpochRequest)
  : stateSyncManager * option error :=
  let s1 :=
    {| state := state s; maxCommitmentSize := maxCommitmentSize s;
       pendingCommitments := [];
       validatorSet := req_ValidatorSet req;
       epoch := NewEpochID req;
       nextCommittedIndex := nextCommittedIndex s;
       published := published s |} in
  match GetNextCommittedIndex req with
  | Err e => (s1, Some e)
  | Ok nextCommittedIndex =>
      ({| state := state s1; maxCommitmentSize := maxCommitmentSize s1;
          pendingCommitments := pendingCommitments s1;
          validatorSet := validatorSet s1; epoch := epoch s1;
          nextCommittedIndex := nextCommittedIndex;
          published := published s1 |},
       None)
  end.

(** [PostEpoch] notifies the state sync manager that an epoch has changed, so
    that it can discard any previous epoch commitments, and build a new one
    (since validator set changed).  The lock is released before
    [buildCommitment] takes it again: this is the call with no other
    goroutine between the two sections. *)
Definition PostEpoch (s : stateSyncManager) (req : PostEpochRequest)
  : stateSyncManager * option error :=
  match PostEpoch_locked s req with
  | (s1, Some e) => (s1, Some e)
  | (s1, None) => buildCommitment s1
  end.

(** The proofs [buildProofs] makes: the proof of leaf [i] for the [i]-th
    event. *)
Definition makeProofs (tree : MerkleTreeT) (events : list StateSyncEvent)
  : list StateSyncProof :=
  imap (fun i event =>
          {| Proof_path := GenerateProof tree (Z.of_nat i) 0;
             StateSync := event |}) events.

(** [buildProofs] builds state sync proofs for the submitted commitment and
    saves them in boltDb for later execution. *)
Definition buildProofs (st : State) (commitmentMsg : CommitmentMessage)
  : State * option error :=
  let '(events, err) :=
    getStateSyncEventsForCommitment st
      (msgFromIndex commitmentMsg) (msgToIndex commitmentMsg) in
  match err with
  | Some e => (st, Some e)
  | None =>
      match createMerkleTree events with
      | None => (st, Some errMerkleTree)
      | Some tree =>
          match insertStateSyncProofs st (makeProofs tree events) with
          | Err e => (st, Some e)
          | Ok st' => (st', None)
          end
      end
  end.

(** The section of [PostBlock] under the lock: update the
    nextCommittedIndex since a commitment was submitted, and discard what is
    in memory. *)
Definition PostBlock_locked (s : stateSyncManager)
    (commitment : CommitmentMessageSigned) : stateSyncManager :=
  {| state := state s; maxCommitmentSize := maxCommitmentSize s;
     pendingCommitments := [];
     validatorSet := validatorSet s; epoch := epoch s;
     nextCommittedIndex := wrap64 (msgToIndex (Message commitment) + 1);
     published := published s |}.

(** [PostBlock] notifies state sync manager that a block was finalized, so
    that it can build state sync proofs if a block has a commitment
    submission transaction.  The request is the block's transactions. *)
Definition PostBlock (s : stateSyncManager) (transactions : list Transaction)
  : stateSyncManager * option error :=
  match getCommitmentMessageSignedTx transactions with
  | Err e => (s, Some e)
  | Ok None => (s, None)      (* this is not end of epoch block *)
  | Ok (Some commitment) =>
      match insertCommitmentMessage (state s) commitment with
      | Err e => (s, Some e)  (* insert commitment message error *)
      | Ok st1 =>
          match buildProofs st1 (Message commitment) with
          | (st2, Some e) => (set_state s st2, Some e)
          | (st2, None) => (PostBlock_locked (set_state s st2) commitment, None)
          end
      end
  end.

(** [GetStateSyncProof] returns the proof for the state sync. *)
Definition GetStateSyncProof (s : stateSyncManager) (stateSyncID : Z)
  : stateSyncManager * result (option StateSyncProof) :=
  match getStateSyncProof (state s) stateSyncID with
  | Err e => (s, Err e)
  | Ok (Some proof) => (s, Ok (Some proof))
  | Ok None =>
      (* we might have missed a commitment: build its proofs now *)
      match getCommitmentForStateSync (state s) stateSyncID with
      | Err e => (s, Err e)
      | Ok commitment =>
          match buildProofs (state s) (Message commitment) with
          | (st, Some e) => (set_state s st, Err e)
          | (st, None) => (set_state s st, getStateSyncProof st stateSyncID)
          end
      end
  end.

(** *** Quorum of the consensus runtime (consensus_runtime.go) *)

(** Go's [int] is a signed 64-bit integer. *)
Definition wrapInt (x : Z) : Z := (x + 2 ^ 63) mod 2 ^ 64 - 2 ^ 63.

(** [getQuorumSize] returns result of division of given number by two, but
    rounded to next integer value (similar to math.Ceil function). *)
Definition getQuorumSize (validatorsCount : Z) : Z :=
  Z.quot (wrapInt (validatorsCount + 1)) 2.

(** The threshold in the words of the spec: the ceiling of [2N/3]. *)
Definition quorumTwoThirds (validatorsCount : Z) : Z :=
  (2 * validatorsCount + 2) / 3.

(** [epochMetadata], as far as the aggregation reads it. *)
Record epochMetadata : Type := {
  Number : Z;
  Validators : list ValidatorMetadata;      (* AccountSet *)
}.

(** The loop over the votes of the runtime's aggregation. *)
Fixpoint runtime_collectVotes (nodeIDIndexMap : gmap string nat)
    (votes : list MessageSignature) (signatures : list BlsSignature)
    (bitmap : Z) : result (list BlsSignature * Z) :=
  match votes with
  | [] => Ok (signatures, bitmap)
  | vote :: rest =>
      match nodeIDIndexMap !! From vote with
      | None => runtime_collectVotes nodeIDIndexMap rest signatures bitmap
      | Some index =>
          match UnmarshalSignature (Signature_bytes vote) with
          | None => Err errUnmarshalSignature
          | Some signature =>
              runtime_collectVotes nodeIDIndexMap rest
                (signatures ++ [signature])
                (Z.setbit bitmap (Z.of_nat index))
          end
      end
  end.

(** [consensusRuntime.getAggSignatureForCommitmentMessage] creates aggregated
    signatures for given commitment if it has a quorum of votes. *)
Definition runtime_getAggSignatureForCommitmentMessage (st : State)
    (epoch : epochMetadata) (commitmentHash : bytes) : result AggSignatureT :=
  let validators := Validators epoch in
  let nodeIDIndexMap := indexValidators 0 validators ∅ in
  (* get all the votes from the database for this commitment *)
  match getMessageVotes st (Number epoch) commitmentHash with
  | Err e => Err e
  | Ok votes =>
      match runtime_collectVotes nodeIDIndexMap votes [] 0 with
      | Err e => Err e
      | Ok (signatures, bitmap) =>
          if Z.of_nat (length signatures)
               <? getQuorumSize (Z.of_nat (length validators))
          then Err errQuorumNotReached
          else
            match AggregateMarshal signatures with
            | None => Err errAggregate
            | Some aggregatedSignature =>
                Ok {| AggregatedSignature := aggregatedSignature;
                      Bitmap := bitmap |}
            end
      end
  end.

End Manager.

(** ** Goroutines of the manager

    [initTracker] starts the tracker under a cancellable context and spawns
    a watcher, [go func() { <-s.closeCh; cancelFn() }()].  [Close] is
    [close(s.closeCh)].  Each goroutine advances by its own steps, which the
    scheduler interleaves. *)
Module Lifecycle.

Inductive watcherPc : Type :=
| WatcherReceiving       (* blocked in [<-s.closeCh] *)
| WatcherCancelling      (* about to call [cancelFn()] *)
| WatcherStopped.

Inductive trackerPc : Type :=
| TrackerRunning
| TrackerStopped.

Record t : Type := {
  closeCh_closed : bool;
  ctx_cancelled : bool;
  watcher : watcherPc;
  tracker : trackerPc;
  Close_returned : bool;
}.

(** The state [Init] leaves behind. *)
Definition afterInit : t :=
  {| closeCh_closed := false; ctx_cancelled := false;
     watcher := WatcherReceiving; tracker := TrackerRunning;
     Close_returned := false |}.

(** [Close]: close the channel, return. *)
Definition Close (l : t) : t :=
  {| closeCh_closed := true; ctx_cancelled := ctx_cancelled l;
     watcher := watcher l; tracker := tracker l; Close_returned := true |}.

Definition watcher_receive (l : t) : t :=
  {| closeCh_closed := closeCh_closed l; ctx_cancelled := ctx_cancelled l;
     watcher := WatcherCancelling; tracker := tracker l;
     Close_returned := Close_returned l |}.

Definition watcher_cancel (l : t) : t :=
  {| closeCh_closed := closeCh_closed l; ctx_cancelled := true;
     watcher := WatcherStopped; tracker := tracker l;
     Close_returned := Close_returned l |}.

(** Modelled from the spec: the tracker's lifecycle is bound to the
    cancellation signal; it stops once its context is cancelled. *)
Definition tracker_stop (l : t) : t :=
  {| closeCh_closed := closeCh_closed l; ctx_cancelled := ctx_cancelled l;
     watcher := watcher l; tracker := TrackerStopped;
     Close_returned := Close_returned l |}.

Inductive step : t -> t -> Prop :=
| step_Close l :
    closeCh_closed l = false ->      (* closing a closed channel panics *)
    step l (Close l)
| step_watcher_receive l :
    watcher l = WatcherReceiving ->
    closeCh_closed l = true ->       (* a receive on a closed channel returns *)
    step l (watcher_receive l)
| step_watcher_cancel l :
    watcher l = WatcherCancelling ->
    step l (watcher_cancel l)
| step_tracker_stop l :
    tracker l = TrackerRunning ->
    ctx_cancelled l = true ->
    step l (tracker_stop l).

Definition reachable (l : t) : Prop := rtc step afterInit l.

Definition all_stopped (l : t) : Prop :=
  watcher l = WatcherStopped /\ tracker l = TrackerStopped.

End Lifecycle.


(** ** Predicates the properties are stated with *)
Section Properties.
Context `{Collaborators}.

(** The addresses the vote loop records as signers: the senders of the
    votes that are validators of the epoch. *)
Definition quorumSigners (index : gmap string nat)
    (votes : list MessageSignature) : gset bytes :=
  list_to_set
    (StringToAddress <$>
       filter (fun sender => is_Some (index !! sender)) (From <$> votes)).

(** The vote set of a pending commitment has quorum: the validator set says
    so of the signers among the votes recorded for its digest. *)
Definition hasQuorum (s : stateSyncManager) (c : Commitment) : bool :=
  match validatorSet s, Commitment_Hash c with
  | Some vs, Ok digest =>
      HasQuorum vs
        (quorumSigners (indexValidators 0 (Accounts vs) ∅)
           (recordedVotes (state s) (Epoch c) digest))
  | _, _ => false
  end.

(** The aggregation finds that the commitment has no quorum (the case
    [errors.Is(err, errQuorumNotReached)] of [Commitment]). *)
Definition lacksQuorum (s : stateSyncManager) (c : Commitment) : Prop :=
  getAggSignatureForCommitmentMessage s c = Some (Err errQuorumNotReached).

(** The signed message [Commitment] makes of a pending commitment. *)
Definition messageOf (c : Commitment) : CommitmentMessage :=
  NewCommitmentMessage (MerkleTree_Hash (MerkleTree c)) (FromIndex c) (ToIndex c).

(** The message [buildCommitment] gossips for a commitment. *)
Definition voteMessage (epoch : Z) (digest signature : bytes)
  : TransportMessage :=
  {| Hash := digest; Signature := signature; NodeID := key_String;
     EpochNumber := epoch |}.

(** The manager after [buildCommitment] appended the commitment [c] with
    the given digest and signature. *)
Definition withCommitment (s : stateSyncManager) (c : Commitment)
    (digest signature : bytes) : stateSyncManager :=
  {| state :=
       putMessageVote (state s) (epoch s) digest
         {| From := key_String; Signature_bytes := signature |};
     maxCommitmentSize := maxCommitmentSize s;
     pendingCommitments := pendingCommitments s ++ [c];
     validatorSet := validatorSet s;
     epoch := epoch s;
     nextCommittedIndex := nextCommittedIndex s;
     published := published s ++ [voteMessage (epoch s) digest signature] |}.

(** The window of [buildCommitment]: the events its scan of the store
    yields. *)
Definition commitmentWindow (s : stateSyncManager) : list StateSyncEvent :=
  (getStateSyncEventsForCommitment (state s) (nextCommittedIndex s)
     (wrap64 (nextCommittedIndex s + maxCommitmentSize s - 1))).1.

(** The error that comes back next to the window: none, the one of a
    window of fewer than [minCommitmentSize] events, or the failure of the
    store. *)
Definition commitmentWindowError (s : stateSyncManager) : option error :=
  (getStateSyncEventsForCommitment (state s) (nextCommittedIndex s)
     (wrap64 (nextCommittedIndex s + maxCommitmentSize s - 1))).2.

(** *** Runs of the manager

    The goroutines of the tracker, of the gossip handler and of the
    consensus hooks interleave.  What one of them does at once is a write
    that the store accepts (the store is written outside the lock of the
    manager) or a section under the lock: [buildCommitment], the locked
    section of [PostEpoch], the locked section of [PostBlock].  A method is
    a sequence of such steps; reads change nothing. *)

(** The ids of the stored events are dense from 0 (section 3 of the spec:
    ids are assigned densely starting at 0). *)
Definition storeDense (st : State) : Prop :=
  (forall i, is_Some (stateSyncEvents st !! i) -> 0 <= i) /\
  (forall i j, 0 <= i <= j ->
     is_Some (stateSyncEvents st !! j) -> is_Some (stateSyncEvents st !! i)).

(** The tracker delivers events in increasing id order, duplicates
    tolerated: the predecessor of a delivered event was delivered before. *)
Definition inOrder (st : State) (ev : StateSyncEvent) : Prop :=
  0 <= ID ev /\
  (ID ev = 0 \/ is_Some (stateSyncEvents st !! (ID ev - 1))).

Definition anyEvent (st : State) (ev : StateSyncEvent) : Prop := True.
Definition anyStore (st : State) : Prop := True.

Section Run.
(** The events the tracker may deliver, and the stores a manager may be
    created over. *)
Variable admitted : State -> StateSyncEvent -> Prop.
Variable initial : State -> Prop.

Inductive storeWrite : State -> State -> Prop :=
| write_StateSyncEvent st ev st' :
    admitted st ev ->
    insertStateSyncEvent st ev = Ok st' -> storeWrite st st'
| write_MessageVote st epoch digest vote st' n :
    insertMessageVote st epoch digest vote = Ok (st', n) -> storeWrite st st'
| write_CommitmentMessage st commitment st' :
    insertCommitmentMessage st commitment = Ok st' -> storeWrite st st'
| write_StateSyncProofs st proofs st' :
    insertStateSyncProofs st proofs = Ok st' -> storeWrite st st'.

Inductive step : stateSyncManager -> stateSyncManager -> Prop :=
| step_store s st' :
    storeWrite (state s) st' -> step s (set_state s st')
| step_buildCommitment s :
    step s (buildCommitment s).1
| step_PostEpoch_locked s req :
    (forall n, GetNextCommittedIndex req = Ok n -> is_u64 n) ->
    step s (PostEpoch_locked s req).1
| step_PostBlock_locked s commitment :
    step s (PostBlock_locked s commitment).

Inductive run : stateSyncManager -> Prop :=
| run_New st maxSize :
    initial st -> run (NewStateSyncManager st maxSize)
| run_step s s' :
    run s -> step s s' -> run s'.

End Run.

(** The states of a manager, whatever the store it is created over and
    whatever the events delivered to it. *)
Definition reachable : stateSyncManager -> Prop := run anyEvent anyStore.

(** The states of a manager created over a dense store to which the
    tracker delivers the events in the order of their ids. *)
Definition reachableInOrder : stateSyncManager -> Prop := run inOrder storeDense.

Definition pendingOfEpoch (s : stateSyncManager) : Prop :=
  Forall (fun c => Epoch c = epoch s) (pendingCommitments s).


Definition pendingSorted (s : stateSyncManager) : Prop :=
  StronglySorted (fun a b => ToIndex a < ToIndex b) (pendingCommitments s).

(** What holds of the pending list in every run. *)
Record pendingInv (s : stateSyncManager) : Prop := {
  inv_epoch : pendingOfEpoch s;
  inv_sorted : pendingSorted s;
}.


(** *** Calls as transitions, and what a pending commitment carries *)

(** One call of a method of the manager with no other goroutine in between
    ([Commitment] reads only), or one of the two sections of [PostEpoch]. *)
Inductive transition : stateSyncManager -> stateSyncManager -> Prop :=
| transition_AddLog s eventLog : transition s (AddLog s eventLog)
| transition_saveVote s msg : transition s (saveVote s msg).1
| transition_buildCommitment s : transition s (buildCommitment s).1
| transition_PostEpoch_locked s req : transition s (PostEpoch_locked s req).1
| transition_PostEpoch s req : transition s (PostEpoch s req).1
| transition_PostBlock s transactions : transition s (PostBlock s transactions).1
| transition_GetStateSyncProof s stateSyncID :
    transition s (GetStateSyncProof s stateSyncID).1.

(** The store [st'] has a record under every key under which [st] has
    one, and fails the same calls.  (A record may have been overwritten.) *)
Definition storeGrows (st st' : State) : Prop :=
  dom (stateSyncEvents st) ⊆ dom (stateSyncEvents st') /\
  (forall epoch digest,
     dom (votesAt st epoch digest) ⊆ dom (votesAt st' epoch digest)) /\
  dom (commitmentMessages st) ⊆ dom (commitmentMessages st') /\
  dom (stateSyncProofs st) ⊆ dom (stateSyncProofs st') /\
  failing st' = failing st.


(** The vote of this node for a pending commitment: a vote is recorded in
    the store under the digest of the commitment and the id of this node
    (a vote gossiped under the same id may have replaced its signature),
    and the message with the signature of this node was handed to the
    gossip. *)
Definition selfVoted (s : stateSyncManager) (c : Commitment) : Prop :=
  exists digest,
    Commitment_Hash c = Ok digest /\
    is_Some (votesAt (state s) (Epoch c) digest !! key_String) /\
    exists signature,
      key_Sign digest = Some signature /\
      voteMessage (Epoch c) digest signature ∈ published s.


Definition pendingVoted (s : stateSyncManager) : Prop :=
  Forall (selfVoted s) (pendingCommitments s).

(** The key the loop appends for a vote it counts. *)
Definition countedKey (index : gmap string nat)
    (validatorsMetadata : list ValidatorMetadata) (vote : MessageSignature)
  : option bytes :=
  match index !! From vote with
  | Some i =>
      match validatorsMetadata !! i with
      | Some v => Some (BlsKeyMarshal (BlsKey v))
      | None => None
      end
  | None => None
  end.

End Properties.

(** ** Periods of the consensus runtime (consensus_runtime.go)

    Block numbers, epoch numbers and period sizes are [uint64].  A
    remainder or a division by zero is a run-time panic: [None]. *)

(** [isEndOfPeriod] checks if an end of a period (either it be sprint or
    epoch) is reached with the current block. *)
Definition isEndOfPeriod (blockNumber periodSize : Z) : option bool :=
  if periodSize =? 0 then None
  else Some (blockNumber mod periodSize =? 0).

(** [calculateFirstBlockOfPeriod] calculates the first block of a period. *)
Definition calculateFirstBlockOfPeriod (currentBlockNumber periodSize : Z)
  : option Z :=
  if currentBlockNumber <=? periodSize then Some 1   (* it's the first epoch *)
  else if periodSize =? 0 then None
  else
    let r := currentBlockNumber mod periodSize in
    if r =? 1 then Some currentBlockNumber
    else if r =? 0
    then Some (wrap64 (wrap64 (currentBlockNumber - periodSize) + 1))
    else Some (wrap64 (wrap64 (currentBlockNumber - r) + 1)).

(** [getEpochNumber] returns epoch number for given blockNumber and
    epochSize: the quotient for an epoch-ending block, the quotient plus
    one otherwise. *)
Definition getEpochNumber (blockNumber epochSize : Z) : option Z :=
  match isEndOfPeriod blockNumber epochSize with
  | None => None
  | Some true => Some (blockNumber / epochSize)
  | Some false => Some (wrap64 (blockNumber / epochSize + 1))
  end.

(** [getEndEpochBlockNumber] returns the block number that ends the given
    epoch. *)
Definition getEndEpochBlockNumber (epoch epochSize : Z) : Z :=
  wrap64 (epoch * epochSize).

(** [PolyBFTConfig], as far as the runtime reads it here. *)
Record PolyBFTConfig : Type := {
  EpochSize : Z;
  SprintSize : Z;
}.

(** [getLatestSprintBlockNumber] returns latest sprint block number, from
    the number of the last built block. *)
Definition getLatestSprintBlockNumber (config : PolyBFTConfig)
    (lastBuiltBlockNumber : Z) : option Z :=
  if SprintSize config =? 0 then None
  else
    let sprintSizeMod := lastBuiltBlockNumber mod SprintSize config in
    if sprintSizeMod =? 0 then Some lastBuiltBlockNumber
    else Some (wrap64 (lastBuiltBlockNumber - sprintSizeMod)).

(** [getPendingBlockNumber] returns block number currently being built. *)
Definition getPendingBlockNumber (lastBuiltBlockNumber : Z) : Z :=
  wrap64 (lastBuiltBlockNumber + 1).

Definition isEndOfEpoch (config : PolyBFTConfig) (blockNumber : Z) : option bool :=
  isEndOfPeriod blockNumber (EpochSize config).

Definition isEndOfSprint (config : PolyBFTConfig) (blockNumber : Z) : option bool :=
  isEndOfPeriod blockNumber (SprintSize config).

(** ** The runtime's delivery of votes and its count of uptime *)

(** [types.Header], as far as the runtime reads it. *)
Module types.
Record Header : Type := {
  Number : Z;                    (* uint64 *)
  ExtraData : list Byte.byte;
}.
End types.

(** number of blocks to calculate uptime from the previous epoch *)
Definition uptimeLookbackSize : Z := 2.

(** The errors of the runtime that the functions below return. *)
Inductive runtimeError : Type :=
| errEpochSizeTooSmall     (* epoch size not large enough to calculate uptime *)
| errGetIbftExtra
| errGetFilteredValidators
| errGetValidators
| errNotActiveValidator    (* validator is not among the active validator set *)
| errValidatorsNotSet      (* validators are not set for the current epoch *)
| errSenderNotInValidatorSet (sender : string)
| errInsertingMessageVote (err : error)   (* error inserting message vote *)
| panicDivideByZero.

Inductive verdict (A : Type) : Type :=
| Done (a : A)
| Failed (e : runtimeError).
Arguments Done {A} a.
Arguments Failed {A} e.

(** A call of a function with a loop whose end the code does not bound. *)
Inductive outcome (A : Type) : Type :=
| Returned (r : A)
| OutOfFuel.
Arguments Returned {A} r.
Arguments OutOfFuel {A}.

Section Runtime.
Context `{Collaborators}.

(** What the runtime calls and the sources do not hold. *)
Class RuntimeCollaborators : Type := {
  UptimeCounter : Type;
  (* &UptimeCounter{validatorIndices: make(map[ethgo.Address]int)} *)
  newUptimeCounter : UptimeCounter;
  AddUptime : UptimeCounter -> bytes -> UptimeCounter;
  (* GetIbftExtra(header.ExtraData), then blockExtra.Parent.Bitmap *)
  parentBitmap : bytes -> option bytes;
  GetFilteredValidators :
    list ValidatorMetadata -> bytes -> option (list ValidatorMetadata);
  GetAddresses : list ValidatorMetadata -> list bytes;
  (* c.config.polybftBackend.GetValidators(blockNumber, nil) *)
  GetValidators : Z -> option (list ValidatorMetadata);
  ContainsAddress : list ValidatorMetadata -> bytes -> bool;
}.
Context `{RuntimeCollaborators}.

(** The epoch behind the pointer of [getEpoch], with its [Validators]
    slice, which may be nil. *)
Record epochPointee : Type := {
  epochNumber : Z;
  epochValidators : option (list ValidatorMetadata);
}.

(** [consensusRuntime], as far as [deliverMessage] reads and writes it. *)
Record consensusRuntime : Type := {
  runtime_state : State;
  runtime_epoch : option epochPointee;
  activeValidatorFlag : Z;       (* uint32 *)
}.

(** [setIsActiveValidator] updates the activeValidatorFlag field. *)
Definition setIsActiveValidator (c : consensusRuntime) (isActiveValidator : bool)
  : consensusRuntime :=
  {| runtime_state := runtime_state c;
     runtime_epoch := runtime_epoch c;
     activeValidatorFlag := if isActiveValidator then 1 else 0 |}.

(** [isActiveValidator] indicates if node is in validator set or not. *)
Definition isActiveValidator (c : consensusRuntime) : bool :=
  activeValidatorFlag c =? 1.

Definition validateVote (vote : MessageSignature)
    (validators : list ValidatorMetadata) : option runtimeError :=
  let senderAddress := StringToAddress (From vote) in
  if negb (ContainsAddress validators senderAddress)
  then Some (errSenderNotInValidatorSet (From vote))
  else None.

(** [deliverMessage] receives the message vote from transport and inserts it
    in state db for given epoch.  It returns indicator whether message is
    processed successfully and error object if any. *)
Definition deliverMessage (c : consensusRuntime) (msg : TransportMessage)
  : consensusRuntime * (bool * option runtimeError) :=
  match runtime_epoch c with
  | None => (c, (false, None))
  | Some epoch =>
      if EpochNumber msg <? epochNumber epoch
      then (c, (false, None))
      else if negb (isActiveValidator c)
      then (c, (false, Some errNotActiveValidator))
      else
        match epochValidators epoch with
        | None => (c, (false, Some errValidatorsNotSet))
        | Some validators =>
            let msgVote :=
              {| From := NodeID msg; Signature_bytes := Signature msg |} in
            match validateVote msgVote validators with
            | Some err => (c, (false, Some err))
            | None =>
                match insertMessageVote (runtime_state c) (EpochNumber msg)
                        (Hash msg) msgVote with
                | Err err => (c, (false, Some (errInsertingMessageVote err)))
                | Ok (st, numSignatures) =>
                    ({| runtime_state := st;
                        runtime_epoch := runtime_epoch c;
                        activeValidatorFlag := activeValidatorFlag c |},
                     (true, None))
                end
            end
        end
  end.

(** The closure [calculateUptimeForBlock] of [calculateUptime]. *)
Definition calculateUptimeForBlock (header : types.Header)
    (validators : list ValidatorMetadata) (uptimeCounter : UptimeCounter)
  : verdict UptimeCounter :=
  match parentBitmap (types.ExtraData header) with
  | None => Failed errGetIbftExtra
  | Some bitmap =>
      match GetFilteredValidators validators bitmap with
      | None => Failed errGetFilteredValidators
      | Some signers =>
          Done (foldl AddUptime uptimeCounter (GetAddresses signers))
      end
  end.

(** [for blockHeader.Number > firstBlockInEpoch { ... }]: the body reads the
    header below [blockHeader] and drops it. *)
Fixpoint uptimeLoop (fuel : nat) (blockHeader : types.Header)
    (validators : list ValidatorMetadata) (firstBlockInEpoch : Z)
    (uptimeCounter : UptimeCounter) : outcome (verdict UptimeCounter) :=
  match fuel with
  | O => OutOfFuel
  | S fuel =>
      if firstBlockInEpoch <? types.Number blockHeader
      then
        match calculateUptimeForBlock blockHeader validators uptimeCounter with
        | Failed err => Returned (Failed err)
        | Done uptimeCounter =>
            uptimeLoop fuel blockHeader validators firstBlockInEpoch
              uptimeCounter
        end
      else Returned (Done uptimeCounter)
  end.

(** [for i := 0; i < uptimeLookbackSize; i++ { ... }], [rounds] rounds
    left. *)
Fixpoint uptimeLookback (rounds : nat) (blockHeader : types.Header)
    (uptimeCounter : UptimeCounter) : verdict UptimeCounter :=
  match rounds with
  | O => Done uptimeCounter
  | S rounds =>
      match GetValidators (wrap64 (types.Number blockHeader - 2)) with
      | None => Failed errGetValidators
      | Some validators =>
          match calculateUptimeForBlock blockHeader validators uptimeCounter with
          | Failed err => Failed err
          | Done uptimeCounter =>
              uptimeLookback rounds blockHeader uptimeCounter
          end
      end
  end.

(** [calculateUptime] calculates uptime for blocks starting from the last
    built block in current epoch, and ending at the last block of previous
    epoch.  [epoch] is the epoch of [getEpoch]. *)
Definition calculateUptime (fuel : nat) (config : PolyBFTConfig)
    (epoch : epochMetadata) (currentBlock : types.Header)
  : outcome (verdict UptimeCounter) :=
  if EpochSize config <? uptimeLookbackSize + 1
  then Returned (Failed errEpochSizeTooSmall)
  else
    match calculateFirstBlockOfPeriod (types.Number currentBlock)
            (EpochSize config) with
    | None => Returned (Failed panicDivideByZero)
    | Some firstBlockInEpoch =>
        let lastBlockInPreviousEpoch := wrap64 (firstBlockInEpoch - 1) in
        match uptimeLoop fuel currentBlock (Validators epoch)
                firstBlockInEpoch newUptimeCounter with
        | OutOfFuel => OutOfFuel
        | Returned (Failed err) => Returned (Failed err)
        | Returned (Done uptimeCounter) =>
            if 0 <? lastBlockInPreviousEpoch
            then Returned
                   (uptimeLookback (Z.to_nat uptimeLookbackSize) currentBlock
                      uptimeCounter)
            else Returned (Done uptimeCounter)
        end
    end.

End Runtime.

(** ** [Blockchain.CommitChain] (blockchain/blockchain.go) *)
Section CommitChain.

(** The storage behind [b.db], with the two writes of [CommitChain]. *)
Context {Storage Body Receipt : Type}.
Context (WriteBody : Storage -> bytes -> Body -> Storage).
Context (WriteReceipts : Storage -> bytes -> list Receipt -> Storage).

(** [types.Block], through the methods [CommitChain] calls. *)
Record Block : Type := {
  Number_Uint64 : Z;             (* block.Number().Uint64() *)
  ParentHash : bytes;
  Block_Hash : bytes;            (* block.Hash() *)
  Block_Body : Body;
}.

Inductive commitError : Type :=
| errLengthsDontMatch (blocks receipts : nat)
| errNumberSequence (i : nat) (number previous : Z)
| errParentHash.

(** The checks of the first loop, from index [i] on, [previous] being
    [blocks[i-1]]. *)
Fixpoint checkSequence (i : nat) (previous : Block) (blocks : list Block)
  : option commitError :=
  match blocks with
  | [] => None
  | block :: rest =>
      if negb (wrap64 (Number_Uint64 block - 1) =? Number_Uint64 previous)
      then Some (errNumberSequence i (Number_Uint64 block)
                   (Number_Uint64 previous))
      else if negb (bool_decide (ParentHash block = Block_Hash previous))
      then Some errParentHash
      else checkSequence (S i) block rest
  end.

(** The second loop: the body and the receipts of every block. *)
Fixpoint writeChain (db : Storage) (blocks : list Block)
    (receipts : list (list Receipt)) : Storage :=
  match blocks, receipts with
  | block :: blocks, r :: receipts =>
      let hash := Block_Hash block in
      writeChain (WriteReceipts (WriteBody db hash (Block_Body block)) hash r)
        blocks receipts
  | _, _ => db
  end.

(** [CommitChain] writes all the other data related to the chain (body and
    receipts). *)
Definition CommitChain (db : Storage) (blocks : list Block)
    (receipts : list (list Receipt)) : Storage * option commitError :=
  if negb (length blocks =? length receipts)%nat
  then (db, Some (errLengthsDontMatch (length blocks) (length receipts)))
  else
    match blocks with
    | [] => (db, None)
    | first :: rest =>
        match checkSequence 1 first rest with
        | Some err => (db, Some err)
        | None => (writeChain db blocks receipts, None)
        end
    end.

(** Every block of the list follows the one before it: its number is the
    next one (in [uint64]) and its parent hash is the hash of that block. *)
Definition linked (blocks : list Block) : Prop :=
  forall (i : nat) previous block,
    blocks !! i = Some previous -> blocks !! S i = Some block ->
    wrap64 (Number_Uint64 block - 1) = Number_Uint64 previous /\
    ParentHash block = Block_Hash previous.

End CommitChain.
(** ** A concrete instance

    Small collaborators to run the model on: addresses are the bytes of
    their strings, a signature is valid when it is not empty, the Merkle
    tree is the list of its events, a log is the event it carries and a
    transaction the commitment it submits. *)
Module Scenario.

Definition byte_of_Z (x : Z) : Byte.byte :=
  default Byte.x00 (Byte.of_N (Z.to_N (x mod 256))).

Definition collaborators : Collaborators := {|
  MerkleTreeT := list StateSyncEvent;
  BlsSignature := bytes;
  BlsPublicKey := bytes;
  Log := option StateSyncEvent;
  Transaction := option CommitmentMessageSigned;
  StringToAddress := String.list_byte_of_string;
  AddressString := String.string_of_list_byte;
  UnmarshalSignature := fun b => match b with [] => None | _ => Some b end;
  AggregateMarshal := fun sigs => Some (concat sigs);
  BlsKeyMarshal := fun k => k;
  createMerkleTree := fun events => Some events;
  MerkleTree_Hash := fun tree => (fun e => byte_of_Z (ID e)) <$> tree;
  GenerateProof := fun tree i _ => [[byte_of_Z i]];
  CommitmentMessage_Hash := fun m =>
    Some (MerkleRootHash m ++
            [byte_of_Z (msgFromIndex m); byte_of_Z (msgToIndex m)]);
  key_Sign := fun digest => Some (Byte.x53 :: digest);
  key_String := "A";
  stateTransferEventABI_Match := fun l => bool_decide (is_Some l);
  decodeStateSyncEvent := fun l => l;
  getCommitmentMessageSignedTx := fun txs => Ok (head (omap id txs));
|}.

#[local] Existing Instance collaborators.

Definition event (id : Z) : StateSyncEvent :=
  {| ID := id; Sender := []; Receiver := []; Data := [byte_of_Z id] |}.

Definition validator (name : string) : ValidatorMetadata :=
  {| Address := String.list_byte_of_string name;
     BlsKey := String.list_byte_of_string name |}.

(** Four validators A, B, C, D; three of them make a quorum. *)
Definition validators : list ValidatorMetadata :=
  validator <$> ["A"; "B"; "C"; "D"]%string.

Definition fourValidators : ValidatorSet :=
  let addresses : gset bytes := list_to_set (Address <$> validators) in
  {| Includes := fun a => bool_decide (a ∈ addresses);
     Len := 4;
     Accounts := validators;
     HasQuorum := fun signers =>
       bool_decide (3 <= size (signers ∩ addresses))%nat |}.

(** An empty store that fails no call. *)
Definition emptyState : State :=
  {| stateSyncEvents := ∅; messageVotes := ∅; commitmentMessages := ∅;
     stateSyncProofs := ∅; failing := fun _ => false |}.

Definition epoch7 : PostEpochRequest :=
  {| NewEpochID := 7; req_ValidatorSet := Some fourValidators;
     GetNextCommittedIndex := Ok 0 |}.

(** Epoch 7 installed, then the events 0 and 1 arrive. *)
Definition oneEvent : stateSyncManager :=
  AddLog (PostEpoch (NewStateSyncManager emptyState 5) epoch7).1
         (Some (event 0)).

Definition twoEvents : stateSyncManager := AddLog oneEvent (Some (event 1)).

(** The manager when the build for the event 1 starts. *)
Definition beforeBuild : stateSyncManager :=
  set_state oneEvent (putStateSyncEvent (state oneEvent) (event 1)).

Definition epoch7Metadata : epochMetadata :=
  {| Number := 7; Validators := validators |}.

(** The commitment over the events 0 and 1 that [twoEvents] holds. *)
Definition commitment01 : Commitment :=
  {| MerkleTree := [event 0; event 1]; Epoch := 7; FromIndex := 0;
     ToIndex := 1 |}.

Definition digest01 : bytes := [Byte.x00; Byte.x01; Byte.x00; Byte.x01].

Definition signature01 : bytes := Byte.x53 :: digest01.

Definition voteOf (name : string) : TransportMessage :=
  {| Hash := digest01; Signature := String.list_byte_of_string name;
     NodeID := name; EpochNumber := 7 |}.

(** Votes of B for an older and for a later epoch, and a vote of an
    outsider. *)
Definition staleVote : TransportMessage :=
  {| Hash := digest01; Signature := [Byte.x42]; NodeID := "B";
     EpochNumber := 6 |}.

Definition futureVote : TransportMessage :=
  {| Hash := digest01; Signature := [Byte.x42]; NodeID := "B";
     EpochNumber := 8 |}.

Definition intruderVote : TransportMessage :=
  {| Hash := digest01; Signature := [Byte.x58]; NodeID := "X";
     EpochNumber := 7 |}.

(** The vote of B arrives, then the vote of C: with the vote of the node
    itself (A) the commitment has three of four votes. *)
Definition oneVote : stateSyncManager := (saveVote twoEvents (voteOf "B")).1.
Definition withVotes : stateSyncManager := (saveVote oneVote (voteOf "C")).1.

(** A third event arrives: a second, larger commitment is pending, with the
    vote of the node itself only. *)
Definition threeEvents : stateSyncManager := AddLog withVotes (Some (event 2)).

(** The block that submits the commitment over the events 0 and 1. *)
Definition signed01 : CommitmentMessageSigned :=
  {| Message := NewCommitmentMessage [Byte.x00; Byte.x01] 0 1;
     AggSignature := {| AggregatedSignature := []; Bitmap := 7 |};
     PublicKeys := [] |}.

Definition block01 : list Transaction := [None; Some signed01].

(** A manager restarted over a store that holds the accepted commitment and
    its events, but no proof (the proofs were never written). *)
Definition withoutProofs : stateSyncManager :=
  NewStateSyncManager (putCommitmentMessage (state twoEvents) signed01) 5.

(** A commitment over the ids 0 to 5, accepted on the chain while this node
    holds the events 0 and 1 only, and the block that submits it. *)
Definition signed05 : CommitmentMessageSigned :=
  {| Message := NewCommitmentMessage [Byte.x00; Byte.x05] 0 5;
     AggSignature := {| AggregatedSignature := []; Bitmap := 7 |};
     PublicKeys := [] |}.

Definition block05 : list Transaction := [Some signed05].

Definition withoutProofs05 : stateSyncManager :=
  NewStateSyncManager (putCommitmentMessage (state twoEvents) signed05) 5.


(** A store that fails every write of a vote; epoch 7 installed over it,
    then the events 0 and 1 arrive. *)
Definition votesNotWritable : State :=
  {| stateSyncEvents := ∅; messageVotes := ∅; commitmentMessages := ∅;
     stateSyncProofs := ∅;
     failing := fun call =>
       match call with
       | call_insertMessageVote _ _ _ => true
       | _ => false
       end |}.

Definition twoEventsNoVotes : stateSyncManager :=
  AddLog
    (AddLog (PostEpoch (NewStateSyncManager votesNotWritable 5) epoch7).1
       (Some (event 0)))
    (Some (event 1)).

(** A store that fails every write of a commitment and every read of a
    proof. *)
Definition commitmentsNotWritable : State :=
  {| stateSyncEvents := stateSyncEvents (state twoEvents);
     messageVotes := messageVotes (state twoEvents);
     commitmentMessages := ∅;
     stateSyncProofs := ∅;
     failing := fun call =>
       match call with
       | call_insertCommitmentMessage _ => true
       | call_getStateSyncProof _ => true
       | _ => false
       end |}.

End Scenario.

(** ** Further concrete instances

    A validator set that lets every sender in, a vote that does not decode,
    and small collaborators for the runtime: the uptime counter is the list
    of the addresses added to it, the extra data of a header is its parent
    bitmap (none when empty), and a bitmap of [n] bytes selects the first
    [n] validators. *)
Module Examples.

#[local] Existing Instance Scenario.collaborators.

(** The accounts A, B, C, D behind an [Includes] that accepts anyone. *)
Definition lenientValidators : ValidatorSet :=
  {| Includes := fun _ => true;
     Len := 4;
     Accounts := Scenario.validators;
     HasQuorum := HasQuorum Scenario.fourValidators |}.

Definition lenientEpoch7 : PostEpochRequest :=
  {| NewEpochID := 7; req_ValidatorSet := Some lenientValidators;
     GetNextCommittedIndex := Ok 0 |}.

Definition lenientTwoEvents : stateSyncManager :=
  AddLog
    (AddLog (PostEpoch (NewStateSyncManager Scenario.emptyState 5)
               lenientEpoch7).1
       (Some (Scenario.event 0)))
    (Some (Scenario.event 1)).

(** A vote of B with an empty signature. *)
Definition undecodableVote : TransportMessage :=
  {| Hash := Scenario.digest01; Signature := []; NodeID := "B";
     EpochNumber := 7 |}.

Definition withUndecodableVote : stateSyncManager :=
  (saveVote Scenario.twoEvents undecodableVote).1.

Definition runtimeCollaborators : RuntimeCollaborators :=
  {| UptimeCounter := list bytes;
     newUptimeCounter := [];
     AddUptime := fun counter a => counter ++ [a];
     parentBitmap := fun extraData =>
       match extraData with [] => None | _ => Some extraData end;
     GetFilteredValidators := fun validators bitmap =>
       Some (take (length bitmap) validators);
     GetAddresses := fun validators => Address <$> validators;
     GetValidators := fun blockNumber =>
       if blockNumber <? 100 then Some Scenario.validators else None;
     ContainsAddress := fun validators a =>
       bool_decide (a ∈ Address <$> validators) |}.

Definition config10 : PolyBFTConfig := {| EpochSize := 10; SprintSize := 5 |}.

Definition header (number : Z) : types.Header :=
  {| types.Number := number; types.ExtraData := [Byte.x01; Byte.x01] |}.

(** A runtime in epoch 7 with the validators A, B, C, D, active. *)
Definition activeRuntime : consensusRuntime :=
  {| runtime_state := state Scenario.twoEvents;
     runtime_epoch :=
       Some {| epochNumber := 7;
               epochValidators := Some Scenario.validators |};
     activeValidatorFlag := 1 |}.

(** Three blocks in sequence, and the same with the middle one missing. *)
Definition block (number : Z) : @Block (list bytes) :=
  {| Number_Uint64 := number;
     ParentHash := [Scenario.byte_of_Z (number - 1)];
     Block_Hash := [Scenario.byte_of_Z number];
     Block_Body := [[Scenario.byte_of_Z number]] |}.

(** A storage that logs the hashes written to it. *)
Definition writeBody (db : list bytes) (hash : bytes) (body : list bytes)
  : list bytes := db ++ [hash].

Definition writeReceipts (db : list bytes) (hash : bytes)
    (receipts : list bytes) : list bytes := db ++ [hash].

End Examples.
(** * Properties *)
Section Proofs.
Context `{Collaborators}.

(** ** The store *)

Lemma insertStateSyncEvent_Ok st ev st' :
  insertStateSyncEvent st ev = Ok st' <->
  failing st (call_insertStateSyncEvent ev) = false /\
  st' = putStateSyncEvent st ev.
Proof.
  unfold insertStateSyncEvent. destruct (failing st _).
  - split; [done | by intros [? _]].
  - split; [by intros [= <-] | by intros [_ ->]].
Qed.

Lemma insertMessageVote_Ok st epoch digest vote st' n :
  insertMessageVote st epoch digest vote = Ok (st', n) <->
  failing st (call_insertMessageVote epoch digest vote) = false /\
  st' = putMessageVote st epoch digest vote /\
  n = size (votesAt st' epoch digest).
Proof.
  unfold insertMessageVote. destruct (failing st _).
  - split; [done | by intros [? _]].
  - split; [by intros [= <- <-] | by intros (_ & -> & ->)].
Qed.

Lemma insertMessageVote_Err st epoch digest vote e :
  insertMessageVote st epoch digest vote = Err e <->
  failing st (call_insertMessageVote epoch digest vote) = true /\ e = errIo.
Proof.
  unfold insertMessageVote. destruct (failing st _).
  - split; [by intros [= <-] | by intros [_ ->]].
  - split; [done | by intros [? _]].
Qed.

Lemma insertCommitmentMessage_Ok st c st' :
  insertCommitmentMessage st c = Ok st' <->
  failing st (call_insertCommitmentMessage c) = false /\
  st' = putCommitmentMessage st c.
Proof.
  unfold insertCommitmentMessage. destruct (failing st _).
  - split; [done | by intros [? _]].
  - split; [by intros [= <-] | by intros [_ ->]].
Qed.

Lemma insertStateSyncProofs_Ok st proofs st' :
  insertStateSyncProofs st proofs = Ok st' <->
  failing st (call_insertStateSyncProofs proofs) = false /\
  st' = putStateSyncProofs st proofs.
Proof.
  unfold insertStateSyncProofs. destruct (failing st _).
  - split; [done | by intros [? _]].
  - split; [by intros [= <-] | by intros [_ ->]].
Qed.

Lemma getMessageVotes_Ok st epoch digest votes :
  getMessageVotes st epoch digest = Ok votes <->
  failing st (call_getMessageVotes epoch digest) = false /\
  votes = recordedVotes st epoch digest.
Proof.
  unfold getMessageVotes. destruct (failing st _).
  - split; [done | by intros [? _]].
  - split; [by intros [= <-] | by intros [_ ->]].
Qed.

Lemma getStateSyncProof_Ok st id proof :
  getStateSyncProof st id = Ok proof <->
  failing st (call_getStateSyncProof id) = false /\
  proof = stateSyncProofs st !! id.
Proof.
  unfold getStateSyncProof. destruct (failing st _).
  - split; [done | by intros [? _]].
  - split; [by intros [= <-] | by intros [_ ->]].
Qed.

Lemma storedEvent_Some st id ev :
  storedEvent st id = Some ev <->
  stateSyncEvents st !! id = Some (rowOf ev) /\ ID ev = id.
Proof.
  unfold storedEvent. destruct (stateSyncEvents st !! id) as [row |]; cbn.
  - split.
    + intros [= <-]. by destruct row.
    + intros [[= ->] <-]. by destruct ev.
  - split; [done | by intros [? _]].
Qed.

Lemma storedEvent_is_Some st id :
  is_Some (storedEvent st id) <-> is_Some (stateSyncEvents st !! id).
Proof. unfold storedEvent. by rewrite fmap_is_Some. Qed.

Lemma votesAt_putMessageVote st epoch digest vote epoch' digest' :
  votesAt (putMessageVote st epoch digest vote) epoch' digest' =
  if decide ((epoch, digest) = (epoch', digest'))
  then <[From vote := Signature_bytes vote]> (votesAt st epoch digest)
  else votesAt st epoch' digest'.
Proof.
  unfold votesAt at 1. cbn [putMessageVote messageVotes].
  rewrite lookup_insert. by case_decide.
Qed.

Lemma recordedVotes_putMessageVote_ne st epoch digest vote epoch' digest' :
  (epoch, digest) <> (epoch', digest') ->
  recordedVotes (putMessageVote st epoch digest vote) epoch' digest' =
  recordedVotes st epoch' digest'.
Proof.
  intros Hne. unfold recordedVotes.
  rewrite votesAt_putMessageVote. by rewrite decide_False.
Qed.

Lemma elem_of_recordedVotes st epoch digest vote :
  vote ∈ recordedVotes st epoch digest <->
  votesAt st epoch digest !! From vote = Some (Signature_bytes vote).
Proof.
  unfold recordedVotes. rewrite list_elem_of_fmap. split.
  - intros [[sender sig] [-> Hin]]. by apply elem_of_map_to_list in Hin.
  - intros Hlook. exists (From vote, Signature_bytes vote). split.
    + by destruct vote.
    + by apply elem_of_map_to_list.
Qed.

Lemma putMessageVote_recorded st epoch digest vote :
  vote ∈ recordedVotes (putMessageVote st epoch digest vote) epoch digest.
Proof.
  apply elem_of_recordedVotes. rewrite votesAt_putMessageVote.
  rewrite decide_True by done. apply lookup_insert_eq.
Qed.

Lemma set_state_id s : set_state s (state s) = s.
Proof. by destruct s. Qed.

(** ** Vote ingress *)

(** C6, as the code has it: a vote is dropped silently (no error, no store
    write) while no validator set is installed or when its epoch is older
    than the current one; a vote of a sender outside the current validator
    set fails with the not-among-the-validators error and writes nothing;
    any other vote is handed to the store under (epoch, digest) of the
    message: it is recorded when the store accepts the write, and when the
    store fails it the error of the store is returned and nothing is
    written. *)
Theorem saveVote_ingress (s : stateSyncManager) (msg : TransportMessage) :
  (validatorSet s = None \/ EpochNumber msg < epoch s ->
   saveVote s msg = (s, None)) /\
  (forall valSet,
     validatorSet s = Some valSet -> epoch s <= EpochNumber msg ->
     Includes valSet (StringToAddress (NodeID msg)) = false ->
     saveVote s msg = (s, Some errNotAmongActiveValidators)) /\
  (forall valSet,
     validatorSet s = Some valSet -> epoch s <= EpochNumber msg ->
     Includes valSet (StringToAddress (NodeID msg)) = true ->
     let msgVote := {| From := NodeID msg; Signature_bytes := Signature msg |} in
     (forall st numSignatures,
        insertMessageVote (state s) (EpochNumber msg) (Hash msg) msgVote
          = Ok (st, numSignatures) ->
        saveVote s msg = (set_state s st, None) /\
        msgVote ∈ recordedVotes (state (saveVote s msg).1)
                    (EpochNumber msg) (Hash msg)) /\
     (forall err,
        insertMessageVote (state s) (EpochNumber msg) (Hash msg) msgVote
          = Err err ->
        saveVote s msg = (s, Some err))).
Proof.
  unfold saveVote. split; [| split].
  - intros [-> | Hold]; [done |].
    destruct (validatorSet s); [| done].
    by rewrite (proj2 (Z.ltb_lt _ _) Hold).
  - intros valSet -> Hepoch Hout.
    rewrite (proj2 (Z.ltb_ge _ _) Hepoch), Hout. done.
  - intros valSet -> Hepoch Hin.
    rewrite (proj2 (Z.ltb_ge _ _) Hepoch), Hin. cbn [negb]. split.
    + intros st n Hinsert. rewrite Hinsert. split; [done |].
      apply insertMessageVote_Ok in Hinsert as (_ & -> & _).
      apply putMessageVote_recorded.
    + intros err Hinsert. by rewrite Hinsert.
Qed.

(** C10, as the code has it: a vote for an epoch after the current one is
    not dropped: when its sender is in the current validator set it is
    handed to the store under the epoch of the message.  When the store
    accepts the write the vote is recorded under that epoch and the votes
    recorded under the current epoch stay as they were; when the store
    fails the write, the error comes back and the vote is not recorded. *)
Theorem saveVote_future_epoch (s : stateSyncManager) (msg : TransportMessage)
    (valSet : ValidatorSet) :
  validatorSet s = Some valSet ->
  epoch s < EpochNumber msg ->
  Includes valSet (StringToAddress (NodeID msg)) = true ->
  let msgVote := {| From := NodeID msg; Signature_bytes := Signature msg |} in
  let s' := (saveVote s msg).1 in
  (forall st numSignatures,
     insertMessageVote (state s) (EpochNumber msg) (Hash msg) msgVote
       = Ok (st, numSignatures) ->
     (saveVote s msg).2 = None /\
     msgVote ∈ recordedVotes (state s') (EpochNumber msg) (Hash msg) /\
     (forall digest,
        recordedVotes (state s') (epoch s) digest =
        recordedVotes (state s) (epoch s) digest) /\
     stateSyncEvents (state s') = stateSyncEvents (state s) /\
     pendingCommitments s' = pendingCommitments s) /\
  (forall err,
     insertMessageVote (state s) (EpochNumber msg) (Hash msg) msgVote
       = Err err ->
     saveVote s msg = (s, Some err)).
Proof.
  intros Hvs Hepoch Hin. unfold saveVote. rewrite Hvs.
  rewrite (proj2 (Z.ltb_ge _ _)) by lia. rewrite Hin. cbn [negb]. split.
  - intros st n Hinsert. rewrite Hinsert. cbn [fst snd].
    apply insertMessageVote_Ok in Hinsert as (_ & -> & _).
    cbn [state set_state pendingCommitments].
    split; [done |]. split; [apply putMessageVote_recorded |].
    split; [| done].
    intros digest. apply recordedVotes_putMessageVote_ne.
    intros [= Heq _]. lia.
  - intros err Hinsert. by rewrite Hinsert.
Qed.

(** ** Aggregation and the submittable commitment *)

Lemma elem_of_rev {A} (x : A) (l : list A) : x ∈ rev l <-> x ∈ l.
Proof. rewrite !list_elem_of_In. symmetry. apply in_rev. Qed.

Lemma indexValidators_sound vs i m name j :
  indexValidators i vs m !! name = Some j ->
  m !! name = Some j \/
  (i <= j < i + length vs)%nat /\
  exists v, vs !! (j - i)%nat = Some v /\ AddressString (Address v) = name.
Proof.
  revert i m. induction vs as [| v vs IH]; intros i m; cbn [indexValidators].
  - by left.
  - intros Hlook. apply IH in Hlook as [Hm | (Hj & v' & Hv' & Hname)].
    + rewrite lookup_insert in Hm. case_decide as Heq; [| by left].
      injection Hm as <-. right. split; [cbn; lia |].
      exists v. by rewrite Nat.sub_diag.
    + right. split; [cbn; lia |]. exists v'. split; [| done].
      replace (j - i)%nat with (S (j - S i)) by lia. done.
Qed.

Lemma indexValidators_keeps vs i m name :
  is_Some (m !! name) -> is_Some (indexValidators i vs m !! name).
Proof.
  revert i m. induction vs as [| v vs IH]; intros i m Hm; cbn; [done |].
  apply IH. rewrite lookup_insert. by case_decide.
Qed.

Lemma indexValidators_complete vs i m v :
  v ∈ vs -> is_Some (indexValidators i vs m !! AddressString (Address v)).
Proof.
  revert i m. induction vs as [| v' vs IH]; intros i m Hin;
    [by apply elem_of_nil in Hin |].
  cbn. apply elem_of_cons in Hin as [-> | Hin]; [| by apply IH].
  apply indexValidators_keeps. rewrite lookup_insert_eq. by eexists.
Qed.

(** The index map of a validator set points into its accounts. *)
Lemma validatorAddrToIndex_sound (validatorsMetadata : list ValidatorMetadata)
    name j :
  indexValidators 0 validatorsMetadata ∅ !! name = Some j ->
  exists v, validatorsMetadata !! j = Some v /\
            AddressString (Address v) = name.
Proof.
  intros Hlook. apply indexValidators_sound in Hlook
    as [Hempty | (_ & v & Hv & Hname)].
  - by rewrite lookup_empty in Hempty.
  - exists v. by rewrite Nat.sub_0_r in Hv.
Qed.

Lemma collectVotes_signers index metadata votes acc acc' :
  collectVotes index metadata votes acc = Some (Ok acc') ->
  agg_signers acc' = quorumSigners index votes ∪ agg_signers acc.
Proof.
  revert acc. induction votes as [| vote rest IH]; intros acc; cbn [collectVotes].
  - intros [= <-]. unfold quorumSigners. cbn. set_solver.
  - unfold quorumSigners in *. rewrite fmap_cons, filter_cons.
    destruct (index !! From vote) as [i |] eqn:Hindex.
    + destruct (UnmarshalSignature (Signature_bytes vote)); [| done].
      destruct (metadata !! i); [| done].
      intros Hrest. apply IH in Hrest. rewrite Hrest. cbn [agg_signers].
      rewrite decide_True by eauto. cbn. set_solver.
    + intros Hrest. apply IH in Hrest. rewrite Hrest.
      rewrite decide_False; [done |]. by intros [? ?].
Qed.

(** The loop fails only on a vote it counts whose signature does not
    decode. *)
Lemma collectVotes_error index metadata votes acc e :
  collectVotes index metadata votes acc = Some (Err e) ->
  e = errUnmarshalSignature /\
  exists vote,
    vote ∈ votes /\ is_Some (index !! From vote) /\
    UnmarshalSignature (Signature_bytes vote) = None.
Proof.
  revert acc. induction votes as [| vote rest IH]; intros acc; cbn [collectVotes].
  - done.
  - destruct (index !! From vote) as [i |] eqn:Hindex.
    + destruct (UnmarshalSignature (Signature_bytes vote)) eqn:Hsig.
      * destruct (metadata !! i); [| done].
        intros Hrest. destruct (IH _ Hrest) as (-> & vote' & Hin & Hvote').
        split; [done |]. exists vote'.
        split; [by apply list_elem_of_further | done].
      * intros [= <-]. split; [done |]. exists vote.
        split; [apply list_elem_of_here |]. rewrite Hindex. eauto.
    + intros Hrest. destruct (IH _ Hrest) as (-> & vote' & Hin & Hvote').
      split; [done |]. exists vote'.
      split; [by apply list_elem_of_further | done].
Qed.

(** With an index map that points into the accounts, the lookup of the
    validator of a counted vote never leaves the slice: the loop does not
    panic. *)
Lemma collectVotes_returns index metadata votes acc :
  (forall name i, index !! name = Some i -> is_Some (metadata !! i)) ->
  is_Some (collectVotes index metadata votes acc).
Proof.
  intros Hsound. revert acc.
  induction votes as [| vote rest IH]; intros acc; cbn [collectVotes];
    [by eexists |].
  destruct (index !! From vote) as [i |] eqn:Hindex; [| apply IH].
  destruct (UnmarshalSignature (Signature_bytes vote)); [| by eexists].
  destruct (Hsound _ _ Hindex) as [v ->]. apply IH.
Qed.

Lemma validatorAddrToIndex_in_range (validatorsMetadata : list ValidatorMetadata)
    name i :
  indexValidators 0 validatorsMetadata ∅ !! name = Some i ->
  is_Some (validatorsMetadata !! i).
Proof.
  intros Hlook. apply validatorAddrToIndex_sound in Hlook as (v & Hv & _).
  by eexists.
Qed.

(** The aggregation panics exactly when no validator set is installed. *)
Lemma getAggSignature_panics s c :
  getAggSignatureForCommitmentMessage s c = None <-> validatorSet s = None.
Proof.
  unfold getAggSignatureForCommitmentMessage.
  destruct (validatorSet s) as [vs |]; [| done].
  split; [| done].
  destruct (Commitment_Hash c) as [digest | e]; [| done].
  destruct (getMessageVotes _ _ _) as [votes | e]; [| done].
  destruct (collectVotes_returns (indexValidators 0 (Accounts vs) ∅)
              (Accounts vs) votes aggregation_empty
              (validatorAddrToIndex_in_range (Accounts vs)))
    as [[acc | e] ->]; [| done].
  destruct (negb _); [done |]. by destruct (AggregateMarshal _).
Qed.

Lemma getAggSignature_Ok s c r :
  getAggSignatureForCommitmentMessage s c = Some (Ok r) -> hasQuorum s c = true.
Proof.
  unfold getAggSignatureForCommitmentMessage, hasQuorum.
  destruct (validatorSet s) as [vs |]; [| done].
  destruct (Commitment_Hash c) as [digest | ?]; [| done].
  destruct (getMessageVotes _ _ _) as [votes | ?] eqn:Hread; [| done].
  apply getMessageVotes_Ok in Hread as [_ ->].
  destruct (collectVotes _ _ _ _) as [[acc | ?] |] eqn:Hvotes; [| done | done].
  apply collectVotes_signers in Hvotes.
  assert (agg_signers acc =
          quorumSigners (indexValidators 0 (Accounts vs) ∅)
            (recordedVotes (state s) (Epoch c) digest)) as <-.
  { rewrite Hvotes. cbn. set_solver. }
  by destruct (HasQuorum vs (agg_signers acc)).
Qed.

Lemma getAggSignature_quorumNotReached s c :
  getAggSignatureForCommitmentMessage s c = Some (Err errQuorumNotReached) ->
  hasQuorum s c = false.
Proof.
  unfold getAggSignatureForCommitmentMessage, hasQuorum.
  destruct (validatorSet s) as [vs |]; [| done].
  destruct (Commitment_Hash c) as [digest | ?]; [| done].
  destruct (getMessageVotes _ _ _) as [votes | e] eqn:Hread.
  - apply getMessageVotes_Ok in Hread as [_ ->].
    destruct (collectVotes _ _ _ _) as [[acc | e] |] eqn:Hvotes; [| | done].
    + apply collectVotes_signers in Hvotes.
      assert (agg_signers acc =
              quorumSigners (indexValidators 0 (Accounts vs) ∅)
                (recordedVotes (state s) (Epoch c) digest)) as <-.
      { rewrite Hvotes. cbn. set_solver. }
      destruct (HasQuorum vs (agg_signers acc)); [| done].
      cbn. by destruct (AggregateMarshal _).
    + intros [= ->]. by apply collectVotes_error in Hvotes as [? _].
  - unfold getMessageVotes in Hread. destruct (failing _ _); [| done].
    injection Hread as <-. done.
Qed.

(** The loop returns the first commitment of its list whose aggregation
    does not report the missing quorum: signed when that aggregation
    succeeds, its error when it fails, a panic when it panics. *)
Lemma Commitment_loop_first s l :
  match Commitment_loop s l with
  | Some (Ok (Some signed)) =>
      exists newer c older,
        l = newer ++ c :: older /\
        Forall (lacksQuorum s) newer /\
        getAggSignatureForCommitmentMessage s c
          = Some (Ok (AggSignature signed, PublicKeys signed)) /\
        Message signed = messageOf c
  | Some (Ok None) => Forall (lacksQuorum s) l
  | Some (Err e) =>
      e <> errQuorumNotReached /\
      exists newer c older,
        l = newer ++ c :: older /\
        Forall (lacksQuorum s) newer /\
        getAggSignatureForCommitmentMessage s c = Some (Err e)
  | None =>
      exists newer c older,
        l = newer ++ c :: older /\
        Forall (lacksQuorum s) newer /\
        getAggSignatureForCommitmentMessage s c = None
  end.
Proof.
  induction l as [| c l IH]; cbn [Commitment_loop].
  - constructor.
  - destruct (getAggSignatureForCommitmentMessage s c)
      as [[[sig keys] | e] |] eqn:Hagg.
    + exists [], c, l.
      split; [done |]. split; [apply Forall_nil_2 | done].
    + destruct (decide (e = errQuorumNotReached)) as [-> | Hother].
      * destruct (Commitment_loop s l) as [[[signed |] | e] |].
        -- destruct IH as (newer & c' & older & -> & Hnewer & Hc' & Hmsg).
           exists (c :: newer), c', older.
           split; [done |]. split; [by apply Forall_cons_2 | done].
        -- by apply Forall_cons_2.
        -- destruct IH as (Hother & newer & c' & older & -> & Hnewer & Hc').
           split; [done |]. exists (c :: newer), c', older.
           split; [done |]. split; [by apply Forall_cons_2 | done].
        -- destruct IH as (newer & c' & older & -> & Hnewer & Hc').
           exists (c :: newer), c', older.
           split; [done |]. split; [by apply Forall_cons_2 | done].
      * split; [done |]. exists [], c, l.
        split; [done |]. split; [apply Forall_nil_2 | done].
    + exists [], c, l. split; [done |]. split; [apply Forall_nil_2 | done].
Qed.

Lemma rev_split {A} (l : list A) newer c older :
  rev l = newer ++ c :: older -> l = rev older ++ c :: rev newer.
Proof.
  intros Hrev. rewrite <- (rev_involutive l), Hrev.
  rewrite rev_app_distr. cbn. by rewrite <- app_assoc.
Qed.

Lemma Forall_rev_iff {A} (P : A -> Prop) (l : list A) :
  Forall P l -> Forall P (rev l).
Proof.
  rewrite !Forall_forall. intros Hall x Hin. apply Hall. by apply elem_of_rev.
Qed.

Lemma Commitment_of_sorted s :
  pendingSorted s ->
  match stateSyncManager_Commitment s with
  | Some (Ok (Some signed)) =>
      exists older c newer,
        pendingCommitments s = older ++ c :: newer /\
        Forall (lacksQuorum s) newer /\
        hasQuorum s c = true /\
        getAggSignatureForCommitmentMessage s c
          = Some (Ok (AggSignature signed, PublicKeys signed)) /\
        Message signed = messageOf c /\
        (forall c', c' ∈ pendingCommitments s -> hasQuorum s c' = true ->
           ToIndex c' <= ToIndex c)
  | Some (Ok None) =>
      forall c, c ∈ pendingCommitments s ->
        lacksQuorum s c /\ hasQuorum s c = false
  | Some (Err e) =>
      e <> errQuorumNotReached /\
      exists older c newer,
        pendingCommitments s = older ++ c :: newer /\
        Forall (lacksQuorum s) newer /\
        getAggSignatureForCommitmentMessage s c = Some (Err e)
  | None => validatorSet s = None /\ pendingCommitments s <> []
  end.
Proof.
  intros Hsorted. unfold stateSyncManager_Commitment.
  pose proof (Commitment_loop_first s (rev (pendingCommitments s))) as Hloop.
  destruct (Commitment_loop s (rev (pendingCommitments s)))
    as [[[signed |] | e] |].
  - destruct Hloop as (newer & c & older & Hrev & Hnewer & Hc & Hmsg).
    apply rev_split in Hrev as Hpending.
    apply Forall_rev_iff in Hnewer as Hnewer'.
    exists (rev older), c, (rev newer).
    split; [done |]. split; [done |].
    split; [by eapply getAggSignature_Ok |]. split; [done |]. split; [done |].
    intros c' Hin Hq. unfold pendingSorted in Hsorted.
    rewrite Hpending in Hin, Hsorted.
    apply elem_of_app in Hin as [Hin | Hin].
    + apply Z.lt_le_incl.
      eapply (StronglySorted_app_1_elem_of _ _ _ c' c Hsorted); [done |].
      apply list_elem_of_here.
    + apply elem_of_cons in Hin as [-> | Hin]; [lia |].
      rewrite Forall_forall in Hnewer'.
      apply Hnewer', getAggSignature_quorumNotReached in Hin. congruence.
  - intros c Hin. rewrite Forall_forall in Hloop.
    assert (lacksQuorum s c) as Hlacks by (by apply Hloop, elem_of_rev).
    split; [done |]. by apply getAggSignature_quorumNotReached.
  - destruct Hloop as (Hother & newer & c & older & Hrev & Hnewer & Hc).
    split; [done |]. exists (rev older), c, (rev newer).
    split; [by apply rev_split |]. split; [by apply Forall_rev_iff | done].
  - destruct Hloop as (newer & c & older & Hrev & _ & Hc).
    split; [by apply (getAggSignature_panics s c) |].
    apply rev_split in Hrev. rewrite Hrev. by destruct (rev older).
Qed.

Lemma Commitment_loop_none s l :
  Forall (lacksQuorum s) l -> Commitment_loop s l = Some (Ok None).
Proof.
  induction 1 as [| c l Hc _ IH]; cbn [Commitment_loop]; [done |].
  unfold lacksQuorum in Hc. rewrite Hc. by rewrite decide_True.
Qed.

(** ** Building commitments *)

Lemma commitmentWindow_failing s :
  failing (state s)
    (call_getStateSyncEventsForCommitment (nextCommittedIndex s)
       (wrap64 (nextCommittedIndex s + maxCommitmentSize s - 1))) = true ->
  commitmentWindow s = [].
Proof.
  intros Hfail. unfold commitmentWindow, getStateSyncEventsForCommitment.
  by rewrite Hfail.
Qed.


Lemma buildCommitment_unfold s :
  buildCommitment s =
  if failing (state s)
       (call_getStateSyncEventsForCommitment (nextCommittedIndex s)
          (wrap64 (nextCommittedIndex s + maxCommitmentSize s - 1)))
  then (s, Some errIo)
  else if decide (length (commitmentWindow s) < minCommitmentSize)%nat
  then (s, None)
  else if alreadyBuilt (pendingCommitments s) (commitmentWindow s)
  then (s, None)
  else
    match NewCommitment (epoch s) (commitmentWindow s) with
    | Err e => (s, Some e)
    | Ok c =>
        match Commitment_Hash c with
        | Err e => (s, Some e)
        | Ok digest =>
            match key_Sign digest with
            | None => (s, Some errSign)
            | Some signature =>
                if failing (state s)
                     (call_insertMessageVote (epoch s) digest
                        {| From := key_String; Signature_bytes := signature |})
                then (s, Some errIo)
                else (withCommitment s c digest signature, None)
            end
        end
    end.
Proof.
  unfold buildCommitment, commitmentWindow, getStateSyncEventsForCommitment,
    insertMessageVote.
  destruct (failing (state s) (call_getStateSyncEventsForCommitment _ _));
    [done |].
  destruct (decide (length _ < minCommitmentSize)%nat);
    [by rewrite bool_decide_eq_true_2 |].
  destruct (alreadyBuilt _ _); [done |].
  destruct (NewCommitment _ _) as [c |]; [| done].
  destruct (Commitment_Hash c) as [digest |]; [| done].
  destruct (key_Sign digest) as [signature |]; [| done].
  by destruct (failing (state s) (call_insertMessageVote _ _ _)).
Qed.

Lemma buildCommitment_cases s :
  buildCommitment s = (s, None) \/
  (exists e, buildCommitment s = (s, Some e)) \/
  (exists c digest signature,
     failing (state s)
       (call_getStateSyncEventsForCommitment (nextCommittedIndex s)
          (wrap64 (nextCommittedIndex s + maxCommitmentSize s - 1))) = false /\
     (minCommitmentSize <= length (commitmentWindow s))%nat /\
     alreadyBuilt (pendingCommitments s) (commitmentWindow s) = false /\
     NewCommitment (epoch s) (commitmentWindow s) = Ok c /\
     Commitment_Hash c = Ok digest /\
     key_Sign digest = Some signature /\
     buildCommitment s = (withCommitment s c digest signature, None)).
Proof.
  rewrite buildCommitment_unfold.
  destruct (failing (state s) (call_getStateSyncEventsForCommitment _ _))
    eqn:Hscan; [right; left; eauto |].
  destruct (decide (length _ < minCommitmentSize)%nat); [by left |].
  destruct (alreadyBuilt _ _) eqn:Hbuilt; [by left |].
  destruct (NewCommitment _ _) as [c | e] eqn:Hnew; [| right; left; eauto].
  destruct (Commitment_Hash c) as [digest | e] eqn:Hhash; [| right; left; eauto].
  destruct (key_Sign digest) as [signature |] eqn:Hsign; [| right; left; eauto].
  destruct (failing (state s) (call_insertMessageVote _ _ _));
    [right; left; eauto |].
  right; right. exists c, digest, signature.
  repeat (split; [first [done | lia] |]). done.
Qed.

Lemma NewCommitment_Ok epoch events c :
  NewCommitment epoch events = Ok c ->
  Epoch c = epoch /\
  (exists first, head events = Some first /\ FromIndex c = ID first) /\
  (exists lst, last events = Some lst /\ ToIndex c = ID lst) /\
  createMerkleTree events = Some (MerkleTree c).
Proof.
  unfold NewCommitment.
  destruct (createMerkleTree events) as [tree |]; [| done].
  destruct (head events) as [first |]; [| done].
  destruct (last events) as [lst |]; [| done].
  intros [= <-]. cbn. eauto 10.
Qed.

Lemma elem_of_scanStateSyncEvents st fromIndex toIndex e :
  e ∈ scanStateSyncEvents st fromIndex toIndex <->
  fromIndex <= ID e <= toIndex /\
  stateSyncEvents st !! ID e = Some (rowOf e).
Proof.
  unfold scanStateSyncEvents. rewrite list_elem_of_omap. split.
  - intros (i & Hi & Hlook). apply storedEvent_Some in Hlook as [Hrow <-].
    apply elem_of_seqZ in Hi. split; [lia | done].
  - intros [Hi Hlook]. exists (ID e). split.
    + apply elem_of_seqZ. lia.
    + by apply storedEvent_Some.
Qed.




Lemma pending_below_new (pending : list Commitment) events c lst :
  StronglySorted (fun a b => ToIndex a < ToIndex b) pending ->
  alreadyBuilt pending events = false ->
  last events = Some lst -> ToIndex c = ID lst ->
  Forall (fun x => ToIndex x < ToIndex c) pending.
Proof.
  intros Hsorted Hbuilt Hlast Hto. unfold alreadyBuilt in Hbuilt.
  rewrite Hlast in Hbuilt.
  destruct (last pending) as [p |] eqn:Hp.
  - apply Z.leb_gt in Hbuilt.
    apply last_Some in Hp as [older ->].
    apply Forall_app. split; [| apply Forall_singleton; lia].
    apply Forall_forall. intros x Hx.
    assert (ToIndex x < ToIndex p); [| lia].
    eapply (StronglySorted_app_1_elem_of _ _ _ x p Hsorted); [done |].
    apply list_elem_of_here.
  - apply last_None in Hp as ->. constructor.
Qed.


(** ** What holds of the pending list in every run *)

Lemma pendingInv_buildCommitment s :
  pendingInv s -> pendingInv (buildCommitment s).1.
Proof.
  intros [Hepoch Hsorted].
  destruct (buildCommitment_cases s)
    as [-> | [[e ->] | (c & digest & signature & _ & _ & Hbuilt & Hnew & _ & _ & ->)]];
    [done | done |].
  apply NewCommitment_Ok in Hnew
    as (Hc & _ & (lst & Hlast & Hto) & _).
  split.
  - unfold pendingOfEpoch. cbn. apply Forall_app. split; [done |].
    by apply Forall_singleton.
  - unfold pendingSorted. cbn. apply StronglySorted_app.
    split; [| split; [done | repeat constructor]].
    intros x Hx y Hy. apply list_elem_of_singleton in Hy as ->.
    pose proof (pending_below_new _ _ _ _ Hsorted Hbuilt Hlast Hto) as Hall.
    rewrite Forall_forall in Hall. by apply Hall.
Qed.

Lemma pendingInv_empty s : pendingCommitments s = [] -> pendingInv s.
Proof.
  intros Hnil. split; unfold pendingOfEpoch, pendingSorted; rewrite Hnil;
    constructor.
Qed.

Lemma PostEpoch_locked_pending s req :
  pendingCommitments (PostEpoch_locked s req).1 = [].
Proof. unfold PostEpoch_locked. by destruct (GetNextCommittedIndex req). Qed.

Lemma run_pendingInv admitted initial s :
  run admitted initial s -> pendingInv s.
Proof.
  induction 1 as [st maxSize _ | s s' _ IH Hstep].
  - by apply pendingInv_empty.
  - destruct Hstep as [s st' _ | s | s req _ | s commitment].
    + by destruct IH.
    + by apply pendingInv_buildCommitment.
    + apply pendingInv_empty, PostEpoch_locked_pending.
    + by apply pendingInv_empty.
Qed.

(** ** What holds besides when the events come in order *)




Lemma storeWrite_mono (admitted admitted' : State -> StateSyncEvent -> Prop)
    st st' :
  (forall st ev, admitted st ev -> admitted' st ev) ->
  storeWrite admitted st st' -> storeWrite admitted' st st'.
Proof.
  intros Hsub [st0 ev st1 Hev Hwrite | st0 epoch digest vote st1 n Hwrite
              | st0 commitment st1 Hwrite | st0 proofs st1 Hwrite].
  - eapply write_StateSyncEvent; eauto.
  - eapply write_MessageVote; eauto.
  - eapply write_CommitmentMessage; eauto.
  - eapply write_StateSyncProofs; eauto.
Qed.

(** A run with the events in order is a run. *)
Lemma reachableInOrder_reachable s : reachableInOrder s -> reachable s.
Proof.
  induction 1 as [st maxSize _ | s s' _ IH Hstep].
  - by apply run_New.
  - apply (run_step _ _ s); [done |].
    destruct Hstep as [s st' Hwrite | s | s req Hu64 | s commitment].
    + apply step_store. by eapply storeWrite_mono.
    + apply step_buildCommitment.
    + by apply step_PostEpoch_locked.
    + apply step_PostBlock_locked.
Qed.

Lemma buildCommitment_epoch s : epoch (buildCommitment s).1 = epoch s.
Proof.
  destruct (buildCommitment_cases s)
    as [-> | [[e ->] | (? & ? & ? & _ & _ & _ & _ & _ & _ & ->)]]; done.
Qed.

Lemma PostEpoch_locked_epoch s req :
  epoch (PostEpoch_locked s req).1 = NewEpochID req.
Proof. unfold PostEpoch_locked. by destruct (GetNextCommittedIndex req). Qed.

Lemma PostEpoch_epoch s req : epoch (PostEpoch s req).1 = NewEpochID req.
Proof.
  unfold PostEpoch.
  pose proof (PostEpoch_locked_epoch s req) as Hepoch.
  destruct (PostEpoch_locked s req) as [s1 [e |]]; [done |].
  by rewrite buildCommitment_epoch.
Qed.

Lemma buildCommitment_pending s :
  pendingCommitments (buildCommitment s).1 = pendingCommitments s \/
  exists c, Epoch c = epoch s /\
    pendingCommitments (buildCommitment s).1 = pendingCommitments s ++ [c].
Proof.
  destruct (buildCommitment_cases s)
    as [-> | [[e ->] | (c & ? & ? & _ & _ & _ & Hnew & _ & _ & ->)]];
    [by left | by left |].
  right. exists c. by apply NewCommitment_Ok in Hnew as [-> _].
Qed.


(** C1: [Commitment] walks the pending commitments from the newest to the
    oldest, skips every candidate whose aggregation reports the missing
    quorum and stops at the first other one.  When the aggregation of that
    candidate succeeds the call returns it signed, and it has the largest
    [toId] among the pending commitments whose vote set has quorum.  When
    that aggregation fails for another reason (digest, read of the votes,
    signature of a counted vote that does not decode, marshalling of the
    aggregate) the call returns the error, whether or not a pending
    commitment has quorum.  When that aggregation finds no validator set
    installed the call panics.  The call returns nil and no error exactly
    when every pending commitment reports the missing quorum (the empty
    list included); then no pending commitment has quorum. *)
Theorem Commitment_largest_with_quorum (s : stateSyncManager) :
  reachable s ->
  match stateSyncManager_Commitment s with
  | Some (Ok (Some signed)) =>
      exists older c newer,
        pendingCommitments s = older ++ c :: newer /\
        Forall (lacksQuorum s) newer /\
        hasQuorum s c = true /\
        getAggSignatureForCommitmentMessage s c
          = Some (Ok (AggSignature signed, PublicKeys signed)) /\
        Message signed = messageOf c /\
        (forall c', c' ∈ pendingCommitments s -> hasQuorum s c' = true ->
           ToIndex c' <= ToIndex c)
  | Some (Ok None) =>
      forall c, c ∈ pendingCommitments s ->
        lacksQuorum s c /\ hasQuorum s c = false
  | Some (Err e) =>
      e <> errQuorumNotReached /\
      exists older c newer,
        pendingCommitments s = older ++ c :: newer /\
        Forall (lacksQuorum s) newer /\
        getAggSignatureForCommitmentMessage s c = Some (Err e)
  | None => validatorSet s = None /\ pendingCommitments s <> []
  end /\
  ((forall c, c ∈ pendingCommitments s -> lacksQuorum s c) ->
   stateSyncManager_Commitment s = Some (Ok None)).
Proof.
  intros Hreach.
  pose proof (Commitment_of_sorted s
                (inv_sorted s (run_pendingInv _ _ s Hreach))) as Hspec.
  split.
  - destruct (stateSyncManager_Commitment s) as [[[signed |] | e] |]; done.
  - intros Hlack. apply Commitment_loop_none, Forall_forall.
    intros c Hin. apply Hlack. by apply elem_of_rev.
Qed.


(** ** The size threshold and idempotence of the build *)

Lemma commitmentWindowError_cases s :
  (commitmentWindowError s = Some errIo /\
   failing (state s)
     (call_getStateSyncEventsForCommitment (nextCommittedIndex s)
        (wrap64 (nextCommittedIndex s + maxCommitmentSize s - 1))) = true) \/
  (commitmentWindowError s <> Some errIo /\
   failing (state s)
     (call_getStateSyncEventsForCommitment (nextCommittedIndex s)
        (wrap64 (nextCommittedIndex s + maxCommitmentSize s - 1))) = false).
Proof.
  unfold commitmentWindowError, getStateSyncEventsForCommitment.
  destruct (failing (state s) _); [by left |].
  right. split; [| done]. cbn. by destruct (decide _).
Qed.

(** C4: with exactly [minCommitmentSize = 2] events in the window that
    starts at [nextCommittedIndex], no pending commitment reaching the last
    of them yet, and the tree, the digest and the signature made, the build
    creates the commitment over the two events and hands the vote of this
    node to the store: when the store accepts it the commitment is appended
    to the pending list, the vote recorded and gossiped, and no error
    returned; when the store refuses it the build returns that error and
    changes nothing.  With fewer than two events the build changes
    nothing, and returns no error unless the read of the window itself
    failed, in which case it returns that failure. *)
Theorem buildCommitment_minimum_size (s : stateSyncManager) :
  (length (commitmentWindow s) = minCommitmentSize ->
   alreadyBuilt (pendingCommitments s) (commitmentWindow s) = false ->
   forall c digest signature,
     NewCommitment (epoch s) (commitmentWindow s) = Ok c ->
     Commitment_Hash c = Ok digest ->
     key_Sign digest = Some signature ->
     let sig := {| From := key_String; Signature_bytes := signature |} in
     (exists first second,
        commitmentWindow s = [first; second] /\
        Epoch c = epoch s /\ FromIndex c = ID first /\ ToIndex c = ID second) /\
     (forall st numSignatures,
        insertMessageVote (state s) (epoch s) digest sig
          = Ok (st, numSignatures) ->
        let s' := (buildCommitment s).1 in
        (buildCommitment s).2 = None /\
        state s' = st /\
        pendingCommitments s' = pendingCommitments s ++ [c] /\
        sig ∈ recordedVotes (state s') (epoch s) digest /\
        published s' = published s ++ [voteMessage (epoch s) digest signature]) /\
     (forall err,
        insertMessageVote (state s) (epoch s) digest sig = Err err ->
        buildCommitment s = (s, Some err))) /\
  ((length (commitmentWindow s) < minCommitmentSize)%nat ->
   (commitmentWindowError s <> Some errIo -> buildCommitment s = (s, None)) /\
   (commitmentWindowError s = Some errIo ->
    buildCommitment s = (s, Some errIo))).
Proof.
  split.
  - intros Hlen Hbuilt c digest signature Hnew Hhash Hsign sig.
    assert (failing (state s)
              (call_getStateSyncEventsForCommitment (nextCommittedIndex s)
                 (wrap64 (nextCommittedIndex s + maxCommitmentSize s - 1)))
            = false) as Hscan.
    { destruct (failing (state s) _) eqn:Hfail; [| done].
      by rewrite (commitmentWindow_failing s Hfail) in Hlen. }
    assert (buildCommitment s =
            if failing (state s) (call_insertMessageVote (epoch s) digest sig)
            then (s, Some errIo)
            else (withCommitment s c digest signature, None)) as Hbuild.
    { rewrite buildCommitment_unfold, Hscan.
      rewrite decide_False by (rewrite Hlen; lia).
      by rewrite Hbuilt, Hnew, Hhash, Hsign. }
    split; [| split].
    + apply NewCommitment_Ok in Hnew
        as (Hepoch & (first & Hfirst & Hfrom) & (lst & Hlast & Hto) & _).
      destruct (commitmentWindow s) as [| e1 [| e2 [| ? ?]]]; try done.
      exists e1, e2. cbn in Hfirst, Hlast.
      injection Hfirst as ->. injection Hlast as ->. done.
    + intros st numSignatures Hinsert.
      apply insertMessageVote_Ok in Hinsert as (Hok & -> & _).
      rewrite Hbuild, Hok. cbn [fst snd].
      repeat (split; [done |]). split; [| done].
      apply putMessageVote_recorded.
    + intros err Hinsert.
      apply insertMessageVote_Err in Hinsert as [Hfail ->].
      by rewrite Hbuild, Hfail.
  - intros Hlen. rewrite buildCommitment_unfold.
    destruct (commitmentWindowError_cases s) as [[Herr ->] | [Herr ->]].
    + by split.
    + split; [| done]. intros _. by rewrite decide_True.
Qed.

Lemma buildCommitment_covered s lastPending lastEvent :
  last (pendingCommitments s) = Some lastPending ->
  last (commitmentWindow s) = Some lastEvent ->
  ID lastEvent <= ToIndex lastPending ->
  buildCommitment s = (s, None).
Proof.
  intros Hpending Hevent Hcovered. rewrite buildCommitment_unfold.
  destruct (failing (state s) (call_getStateSyncEventsForCommitment _ _))
    eqn:Hfail.
  { by rewrite (commitmentWindow_failing s Hfail) in Hevent. }
  destruct (decide _); [done |].
  unfold alreadyBuilt. rewrite Hpending, Hevent.
  by rewrite (proj2 (Z.leb_le _ _) Hcovered).
Qed.

Lemma commitmentWindow_ext s s' :
  stateSyncEvents (state s') = stateSyncEvents (state s) ->
  failing (state s') = failing (state s) ->
  nextCommittedIndex s' = nextCommittedIndex s ->
  maxCommitmentSize s' = maxCommitmentSize s ->
  commitmentWindow s' = commitmentWindow s.
Proof.
  intros Hevents Hfailing Hnext Hmax.
  unfold commitmentWindow, getStateSyncEventsForCommitment,
    scanStateSyncEvents, storedEvent.
  by rewrite Hevents, Hfailing, Hnext, Hmax.
Qed.

Lemma buildCommitment_twice s :
  buildCommitment (buildCommitment s).1 = ((buildCommitment s).1, None) \/
  buildCommitment (buildCommitment s).1 = buildCommitment s.
Proof.
  destruct (buildCommitment_cases s)
    as [Hsame | [[e Hsame]
       | (c & digest & signature & _ & _ & _ & Hnew & _ & _ & Hbuilt)]].
  - right. by rewrite Hsame.
  - right. by rewrite Hsame.
  - left. rewrite Hbuilt. cbn [fst].
    apply NewCommitment_Ok in Hnew as (_ & _ & (lst & Hlast & Hto) & _).
    apply (buildCommitment_covered _ c lst).
    + cbn. apply last_snoc.
    + by rewrite (commitmentWindow_ext s).
    + lia.
Qed.

Lemma buildCommitment_events s :
  stateSyncEvents (state (buildCommitment s).1) = stateSyncEvents (state s).
Proof.
  destruct (buildCommitment_cases s)
    as [-> | [[e ->] | (? & ? & ? & _ & _ & _ & _ & _ & _ & ->)]]; done.
Qed.

Lemma buildCommitment_failing s :
  failing (state (buildCommitment s).1) = failing (state s).
Proof.
  destruct (buildCommitment_cases s)
    as [-> | [[e ->] | (? & ? & ? & _ & _ & _ & _ & _ & _ & ->)]]; done.
Qed.

Lemma putStateSyncEvent_id st ev :
  stateSyncEvents st !! ID ev = Some (rowOf ev) -> putStateSyncEvent st ev = st.
Proof.
  intros Hlook. destruct st. unfold putStateSyncEvent. cbn in *.
  f_equal. by apply insert_id.
Qed.

(** C5: the build is idempotent on an unchanged window.  When the newest
    pending commitment already covers the last event id of the scan, the
    build changes nothing (no commitment, no vote, no gossip) and returns no
    error; so delivering the same log twice leaves the manager, its store
    and pending list included, as a single delivery does. *)
Theorem buildCommitment_idempotent (s : stateSyncManager) :
  (forall lastPending lastEvent,
     last (pendingCommitments s) = Some lastPending ->
     last (commitmentWindow s) = Some lastEvent ->
     ID lastEvent <= ToIndex lastPending ->
     buildCommitment s = (s, None)) /\
  (forall eventLog, AddLog (AddLog s eventLog) eventLog = AddLog s eventLog).
Proof.
  split; [apply buildCommitment_covered |].
  intros eventLog. unfold AddLog.
  destruct (negb _); [done |].
  destruct (decodeStateSyncEvent eventLog) as [ev |]; [| done].
  unfold insertStateSyncEvent.
  destruct (failing (state s) (call_insertStateSyncEvent ev)) eqn:Hfail.
  { by rewrite Hfail. }
  set (s1 := set_state s (putStateSyncEvent (state s) ev)).
  rewrite (buildCommitment_failing s1). cbn [s1 set_state state].
  cbn [putStateSyncEvent failing]. rewrite Hfail.
  rewrite putStateSyncEvent_id.
  - rewrite set_state_id.
    by destruct (buildCommitment_twice s1) as [-> | ->].
  - rewrite buildCommitment_events. cbn. apply lookup_insert_eq.
Qed.

(** ** Proofs of accepted commitments *)

Lemma putStateSyncProofs_snoc st proofs p :
  stateSyncProofs (putStateSyncProofs st (proofs ++ [p])) =
  <[ID (StateSync p) := p]> (stateSyncProofs (putStateSyncProofs st proofs)).
Proof. unfold putStateSyncProofs. cbn. by rewrite foldl_app. Qed.

Lemma putStateSyncProofs_other st proofs id :
  id ∉ (fun p => ID (StateSync p)) <$> proofs ->
  stateSyncProofs (putStateSyncProofs st proofs) !! id = stateSyncProofs st !! id.
Proof.
  induction proofs as [| p proofs IH] using rev_ind; [done |].
  rewrite fmap_app, not_elem_of_app, list_fmap_singleton.
  rewrite list_elem_of_singleton. intros [Hproofs Hp].
  rewrite putStateSyncProofs_snoc.
  rewrite lookup_insert_ne by done. by apply IH.
Qed.

Lemma putStateSyncProofs_lookup st proofs p :
  NoDup ((fun p => ID (StateSync p)) <$> proofs) ->
  p ∈ proofs ->
  stateSyncProofs (putStateSyncProofs st proofs) !! ID (StateSync p) = Some p.
Proof.
  induction proofs as [| q proofs IH] using rev_ind; [by intros _ ?%elem_of_nil |].
  rewrite fmap_app, list_fmap_singleton. intros Hnodup Hin.
  apply NoDup_app in Hnodup as (Hnodup & Hfresh & _).
  rewrite putStateSyncProofs_snoc.
  apply elem_of_app in Hin as [Hin | ->%list_elem_of_singleton].
  - rewrite lookup_insert_ne; [by apply IH |].
    intros Heq. apply (Hfresh (ID (StateSync p))).
    + apply list_elem_of_fmap. by exists p.
    + rewrite Heq. apply list_elem_of_here.
  - apply lookup_insert_eq.
Qed.

Lemma makeProofs_ids tree events :
  (fun p => ID (StateSync p)) <$> makeProofs tree events = ID <$> events.
Proof.
  unfold makeProofs. apply list_eq. intros i.
  rewrite !list_lookup_fmap, list_lookup_imap.
  by destruct (events !! i).
Qed.

Lemma NoDup_omap_keyed {A B} (f : A -> option B) (g : B -> A) (l : list A) :
  (forall a b, f a = Some b -> g b = a) ->
  NoDup l -> NoDup (g <$> omap f l).
Proof.
  intros Hkey. induction 1 as [| a l Hfresh Hnodup IH]; cbn; [constructor |].
  destruct (f a) as [b |] eqn:Hb; [| done].
  cbn. constructor; [| done].
  rewrite (Hkey _ _ Hb). intros Hin.
  apply list_elem_of_fmap in Hin as (b' & -> & Hin).
  apply list_elem_of_omap in Hin as (a' & Hin & Hb').
  by rewrite (Hkey _ _ Hb') in Hfresh.
Qed.

Lemma scanStateSyncEvents_NoDup st fromIndex toIndex :
  NoDup (ID <$> scanStateSyncEvents st fromIndex toIndex).
Proof.
  apply NoDup_omap_keyed; [| apply NoDup_seqZ].
  intros i e He. by apply storedEvent_Some in He as [_ ?].
Qed.

Lemma scanStateSyncEvents_ext st st' fromIndex toIndex :
  stateSyncEvents st' = stateSyncEvents st ->
  scanStateSyncEvents st' fromIndex toIndex =
  scanStateSyncEvents st fromIndex toIndex.
Proof.
  intros Hevents. unfold scanStateSyncEvents, storedEvent. by rewrite Hevents.
Qed.

(** A read of a window that returns no error returns the stored events of
    the window, at least two. *)
Lemma getStateSyncEventsForCommitment_None st fromIndex toIndex events :
  getStateSyncEventsForCommitment st fromIndex toIndex = (events, None) <->
  failing st (call_getStateSyncEventsForCommitment fromIndex toIndex) = false /\
  events = scanStateSyncEvents st fromIndex toIndex /\
  (minCommitmentSize <= length events)%nat.
Proof.
  unfold getStateSyncEventsForCommitment.
  destruct (failing st _); [split; [done | by intros [? _]] |].
  destruct (decide _) as [Hshort | Hlong].
  - split; [done |]. intros (_ & -> & Hlen). lia.
  - split.
    + intros [= <-]. split; [done |]. split; [done | lia].
    + by intros (_ & -> & _).
Qed.

Lemma buildProofs_unfold st msg :
  buildProofs st msg =
  match getStateSyncEventsForCommitment st (msgFromIndex msg) (msgToIndex msg)
  with
  | (_, Some e) => (st, Some e)
  | (events, None) =>
      match createMerkleTree events with
      | None => (st, Some errMerkleTree)
      | Some tree =>
          match insertStateSyncProofs st (makeProofs tree events) with
          | Err e => (st, Some e)
          | Ok st' => (st', None)
          end
      end
  end.
Proof.
  unfold buildProofs.
  destruct (getStateSyncEventsForCommitment _ _ _) as [events [e |]]; done.
Qed.

Lemma buildProofs_Err st msg st' e :
  buildProofs st msg = (st', Some e) -> st' = st.
Proof.
  rewrite buildProofs_unfold.
  destruct (getStateSyncEventsForCommitment _ _ _) as [events [e' |]];
    [by intros [= <- _] |].
  destruct (createMerkleTree events) as [tree |]; [| by intros [= <- _]].
  destruct (insertStateSyncProofs _ _); [done | by intros [= <- _]].
Qed.

Lemma buildProofs_Ok st msg st' :
  buildProofs st msg = (st', None) <->
  exists events tree,
    getStateSyncEventsForCommitment st (msgFromIndex msg) (msgToIndex msg)
      = (events, None) /\
    createMerkleTree events = Some tree /\
    insertStateSyncProofs st (makeProofs tree events) = Ok st'.
Proof.
  rewrite buildProofs_unfold.
  destruct (getStateSyncEventsForCommitment _ _ _) as [events [e' |]].
  - split; [done |]. by intros (? & ? & [= _ ?] & _).
  - destruct (createMerkleTree events) as [tree |] eqn:Htree.
    + destruct (insertStateSyncProofs _ _) as [st2 | e] eqn:Hinsert.
      * split.
        -- intros [= <-]. by exists events, tree.
        -- intros (events' & tree' & [= <-] & Htree' & Hinsert').
           rewrite Htree in Htree'. injection Htree' as <-.
           rewrite Hinsert in Hinsert'. by injection Hinsert' as <-.
      * split; [done |].
        intros (events' & tree' & [= <-] & Htree' & Hinsert').
        rewrite Htree in Htree'. injection Htree' as <-. congruence.
    + split; [done |]. intros (events' & tree' & [= <-] & ? & _). congruence.
Qed.

Lemma buildProofs_events st msg :
  stateSyncEvents (buildProofs st msg).1 = stateSyncEvents st.
Proof.
  destruct (buildProofs st msg) as [st' [e |]] eqn:Hbuild.
  - by apply buildProofs_Err in Hbuild as ->.
  - apply buildProofs_Ok in Hbuild as (events & tree & _ & _ & Hinsert).
    by apply insertStateSyncProofs_Ok in Hinsert as [_ ->].
Qed.

(** The proofs [buildProofs] persists: one per stored event of the range;
    under the other ids, in the range or not, the proofs are as before. *)
Lemma makeProofs_persisted st fromIndex toIndex tree :
  let events := scanStateSyncEvents st fromIndex toIndex in
  let st' := putStateSyncProofs st (makeProofs tree events) in
  (forall id,
     fromIndex <= id <= toIndex ->
     match storedEvent st id with
     | Some event =>
         exists i,
           events !! i = Some event /\
           stateSyncProofs st' !! id =
             Some {| Proof_path := GenerateProof tree (Z.of_nat i) 0;
                     StateSync := event |}
     | None => stateSyncProofs st' !! id = stateSyncProofs st !! id
     end) /\
  (forall id,
     ~ fromIndex <= id <= toIndex ->
     stateSyncProofs st' !! id = stateSyncProofs st !! id).
Proof.
  intros events st'. split.
  - intros id Hrange. destruct (storedEvent st id) as [event |] eqn:Hstored.
    + apply storedEvent_Some in Hstored as [Hrow Hid]. subst id.
      assert (event ∈ events) as Hin by (by apply elem_of_scanStateSyncEvents).
      apply list_elem_of_lookup in Hin as [i Hi]. exists i. split; [done |].
      apply (putStateSyncProofs_lookup st (makeProofs tree events)
               {| Proof_path := GenerateProof tree (Z.of_nat i) 0;
                  StateSync := event |}).
      * rewrite makeProofs_ids. apply scanStateSyncEvents_NoDup.
      * apply list_elem_of_lookup. exists i. unfold makeProofs.
        by rewrite list_lookup_imap, Hi.
    + apply putStateSyncProofs_other. rewrite makeProofs_ids. intros Hin.
      apply list_elem_of_fmap in Hin as (e & -> & Hin).
      apply elem_of_scanStateSyncEvents in Hin as [_ Hrow].
      unfold storedEvent in Hstored. by rewrite Hrow in Hstored.
  - intros id Hout. apply putStateSyncProofs_other.
    rewrite makeProofs_ids. intros Hin.
    apply list_elem_of_fmap in Hin as (e & -> & Hin).
    apply elem_of_scanStateSyncEvents in Hin as [Hrange _]. lia.
Qed.

Lemma foldl_greaterToId l acc :
  match foldl greaterToId acc l with
  | None => acc = None /\ l = []
  | Some c =>
      (acc = Some c \/ c ∈ l) /\
      (forall c', acc = Some c' \/ c' ∈ l ->
         msgToIndex (Message c') <= msgToIndex (Message c))
  end.
Proof.
  revert acc. induction l as [| x l IH]; intros acc; cbn [foldl].
  - destruct acc as [a |]; [| done]. split; [by left |].
    intros c' [[= ->] | Hin%elem_of_nil]; [lia | done].
  - specialize (IH (greaterToId acc x)).
    destruct (foldl greaterToId (greaterToId acc x) l) as [c |].
    + destruct IH as [Hc Hmax]. split.
      * destruct Hc as [Hc | Hc]; [| right; by apply list_elem_of_further].
        unfold greaterToId in Hc. destruct acc as [a |].
        -- destruct (_ <? _); injection Hc as <-;
             [right; apply list_elem_of_here | by left].
        -- injection Hc as <-. right. apply list_elem_of_here.
      * intros c' Hc'.
        assert (exists y, greaterToId acc x = Some y /\
                  msgToIndex (Message x) <= msgToIndex (Message y) /\
                  (forall a, acc = Some a ->
                     msgToIndex (Message a) <= msgToIndex (Message y)))
          as (y & Hy & Hx & Hacc).
        { unfold greaterToId. destruct acc as [a |].
          - destruct (_ <? _) eqn:Hlt.
            + apply Z.ltb_lt in Hlt. exists x.
              split; [done |]. split; [lia |]. intros ? [= <-]. lia.
            + apply Z.ltb_ge in Hlt. exists a.
              split; [done |]. split; [lia |]. intros ? [= <-]. lia.
          - exists x. split; [done |]. split; [lia |]. done. }
        pose proof (Hmax y (or_introl Hy)) as Hyc.
        destruct Hc' as [Hc' | Hc'].
        -- specialize (Hacc _ Hc'). lia.
        -- apply elem_of_cons in Hc' as [-> | Hc']; [lia |].
           apply Hmax. by right.
    + destruct IH as [Hnone _]. unfold greaterToId in Hnone.
      destruct acc as [a |]; [by destruct (_ <? _) |done].
Qed.

Lemma elem_of_commitmentMessages (st : State) c :
  c ∈ (snd <$> map_to_list (commitmentMessages st)) <->
  exists k, commitmentMessages st !! k = Some c.
Proof.
  rewrite list_elem_of_fmap. split.
  - intros ([k c'] & -> & Hin). exists k. by apply elem_of_map_to_list.
  - intros [k Hk]. exists (k, c). split; [done |]. by apply elem_of_map_to_list.
Qed.

Lemma coveringCommitment_Some st id c :
  coveringCommitment st id = Some c ->
  covers id c = true /\
  (exists k, commitmentMessages st !! k = Some c) /\
  (forall k c', commitmentMessages st !! k = Some c' -> covers id c' = true ->
     msgToIndex (Message c') <= msgToIndex (Message c)).
Proof.
  unfold coveringCommitment.
  pose proof (foldl_greaterToId
    (filter (fun c => covers id c = true)
            (snd <$> map_to_list (commitmentMessages st))) None) as Hfold.
  destruct (foldl greaterToId None _) as [c0 |]; [| done].
  intros [= <-]. destruct Hfold as [[? | Hin] Hmax]; [done |].
  apply list_elem_of_filter in Hin as [Hcovers Hin].
  apply elem_of_commitmentMessages in Hin.
  split; [done |]. split; [done |].
  intros k c' Hk Hc'. apply Hmax. right.
  apply list_elem_of_filter. split; [done |].
  apply elem_of_commitmentMessages. eauto.
Qed.

Lemma coveringCommitment_None st id :
  coveringCommitment st id = None <->
  forall k c, commitmentMessages st !! k = Some c -> covers id c = false.
Proof.
  unfold coveringCommitment.
  pose proof (foldl_greaterToId
    (filter (fun c => covers id c = true)
            (snd <$> map_to_list (commitmentMessages st))) None) as Hfold.
  destruct (foldl greaterToId None _) as [c0 |]; cbn.
  - split; [done |]. intros Hnone.
    destruct Hfold as [[? | Hin] _]; [done |].
    apply list_elem_of_filter in Hin as [Hcovers Hin].
    apply elem_of_commitmentMessages in Hin as [k Hk].
    specialize (Hnone _ _ Hk). congruence.
  - destruct Hfold as [_ Hempty]. split; [| done].
    intros _ k c Hk.
    destruct (covers id c) eqn:Hcovers; [| done].
    assert (c ∈ filter (fun c => covers id c = true)
                  (snd <$> map_to_list (commitmentMessages st))) as Hin.
    { apply list_elem_of_filter. split; [done |].
      apply elem_of_commitmentMessages. eauto. }
    rewrite Hempty in Hin. by apply elem_of_nil in Hin.
Qed.

Lemma getCommitmentForStateSync_Ok st id c :
  getCommitmentForStateSync st id = Ok c ->
  covers id c = true /\
  (exists k, commitmentMessages st !! k = Some c) /\
  (forall k c', commitmentMessages st !! k = Some c' -> covers id c' = true ->
     msgToIndex (Message c') <= msgToIndex (Message c)).
Proof.
  unfold getCommitmentForStateSync. destruct (failing st _); [done |].
  destruct (coveringCommitment st id) as [c0 |] eqn:Hcover; [| done].
  intros [= <-]. by apply coveringCommitment_Some.
Qed.

(** The lookup of the covering commitment fails when the store fails it or
    when no stored commitment covers the id. *)
Lemma getCommitmentForStateSync_Err st id e :
  getCommitmentForStateSync st id = Err e <->
  (e = errIo /\ failing st (call_getCommitmentForStateSync id) = true) \/
  (e = errNoCommitmentForStateSync /\
   failing st (call_getCommitmentForStateSync id) = false /\
   forall k c, commitmentMessages st !! k = Some c -> covers id c = false).
Proof.
  unfold getCommitmentForStateSync. destruct (failing st _).
  - split.
    + intros [= <-]. by left.
    + by intros [[-> _] | (_ & ? & _)].
  - destruct (coveringCommitment st id) as [c0 |] eqn:Hcover; cbn.
    + split; [done |]. intros [[_ ?] | (_ & _ & Hnone)]; [done |].
      apply coveringCommitment_None in Hnone. congruence.
    + split.
      * intros [= <-]. right. split; [done |]. split; [done |].
        by apply coveringCommitment_None.
      * by intros [[_ ?] | (-> & _)].
Qed.

(** C3: a block without a commitment-submission transaction leaves the
    manager as it is and yields no error.  A block with one hands the
    decoded signed commitment to the store; when the store refuses it the
    call returns that error and changes nothing.  Once the commitment is
    persisted, and when the events of [[fromId, toId]] load from the store
    (at least two), their tree builds and the store accepts the proofs,
    one proof per event that the store holds in exactly that range is
    persisted, the proofs under all other ids are as before (an id of the
    range without a stored event gets no proof), and then
    [nextCommittedIndex] becomes [toId + 1] (in uint64 arithmetic) and the
    pending list is emptied.  The two fields move only after the proofs are
    in the store: a call that returns an error leaves both, and the
    proofs, untouched. *)
Theorem PostBlock_persists_then_advances (s : stateSyncManager)
    (transactions : list Transaction) :
  (getCommitmentMessageSignedTx transactions = Ok None ->
   PostBlock s transactions = (s, None)) /\
  (forall e,
     getCommitmentMessageSignedTx transactions = Err e ->
     PostBlock s transactions = (s, Some e)) /\
  (forall commitment,
     getCommitmentMessageSignedTx transactions = Ok (Some commitment) ->
     let msg := Message commitment in
     let events :=
       scanStateSyncEvents (state s) (msgFromIndex msg) (msgToIndex msg) in
     let s' := (PostBlock s transactions).1 in
     let err := (PostBlock s transactions).2 in
     (forall e,
        insertCommitmentMessage (state s) commitment = Err e ->
        PostBlock s transactions = (s, Some e)) /\
     (forall st1,
        insertCommitmentMessage (state s) commitment = Ok st1 ->
        commitmentMessages (state s') !! msgToIndex msg = Some commitment /\
        (forall tree st2,
           getStateSyncEventsForCommitment st1
             (msgFromIndex msg) (msgToIndex msg) = (events, None) ->
           createMerkleTree events = Some tree ->
           insertStateSyncProofs st1 (makeProofs tree events) = Ok st2 ->
           err = None /\
           state s' = st2 /\
           (forall id,
              msgFromIndex msg <= id <= msgToIndex msg ->
              match storedEvent (state s) id with
              | Some event =>
                  exists i,
                    events !! i = Some event /\
                    stateSyncProofs (state s') !! id =
                      Some {| Proof_path := GenerateProof tree (Z.of_nat i) 0;
                              StateSync := event |}
              | None =>
                  stateSyncProofs (state s') !! id
                    = stateSyncProofs (state s) !! id
              end) /\
           (forall id,
              ~ msgFromIndex msg <= id <= msgToIndex msg ->
              stateSyncProofs (state s') !! id
                = stateSyncProofs (state s) !! id) /\
           nextCommittedIndex s' = wrap64 (msgToIndex msg + 1) /\
           (is_u64 (msgToIndex msg + 1) ->
            nextCommittedIndex s' = msgToIndex msg + 1) /\
           pendingCommitments s' = []) /\
        (err <> None ->
         nextCommittedIndex s' = nextCommittedIndex s /\
         pendingCommitments s' = pendingCommitments s /\
         stateSyncProofs (state s') = stateSyncProofs (state s)) /\
        (err = None ->
         exists tree st2,
           getStateSyncEventsForCommitment st1
             (msgFromIndex msg) (msgToIndex msg) = (events, None) /\
           createMerkleTree events = Some tree /\
           insertStateSyncProofs st1 (makeProofs tree events) = Ok st2 /\
           state s' = st2))).
Proof.
  unfold PostBlock. split; [by intros -> |]. split; [by intros e -> |].
  intros commitment ->. cbn zeta. split; [by intros e -> |].
  intros st1 Hinsert. rewrite Hinsert.
  apply insertCommitmentMessage_Ok in Hinsert as [_ ->].
  set (st1 := putCommitmentMessage (state s) commitment).
  set (msg := Message commitment).
  change (scanStateSyncEvents (state s))
    with (scanStateSyncEvents st1).
  set (events := scanStateSyncEvents st1 _ _).
  destruct (buildProofs st1 msg) as [st2 [e |]] eqn:Hbuild.
  - apply buildProofs_Err in Hbuild as Hst2. subst st2.
    cbn [fst snd]. split; [apply lookup_insert_eq |]. split.
    + intros tree st2 Hread Htree Hproofs.
      assert (buildProofs st1 msg = (st2, None)) as Hok
        by (apply buildProofs_Ok; by exists events, tree).
      congruence.
    + split; done.
  - apply buildProofs_Ok in Hbuild as (events' & tree & Hread & Htree & Hproofs).
    pose proof Hread as Hread'.
    apply getStateSyncEventsForCommitment_None in Hread' as (_ & Hevents & _).
    fold events in Hevents. subst events'.
    cbn [fst snd state set_state PostBlock_locked nextCommittedIndex
         pendingCommitments].
    split.
    { apply insertStateSyncProofs_Ok in Hproofs as [_ ->]. cbn.
      apply lookup_insert_eq. }
    split; [| split; [done |]].
    + intros tree' st2' _ Htree' Hproofs'.
      rewrite Htree in Htree'. injection Htree' as <-.
      rewrite Hproofs in Hproofs'. injection Hproofs' as <-.
      apply insertStateSyncProofs_Ok in Hproofs as [_ ->].
      destruct (makeProofs_persisted st1 (msgFromIndex msg) (msgToIndex msg)
                  tree) as [Hin Hout].
      split; [done |]. split; [done |]. split; [exact Hin |].
      split; [exact Hout |]. split; [done |]. split; [| done].
      intros Hu64. unfold wrap64. apply Z.mod_small. exact Hu64.
    + intros _. by exists tree, st2.
Qed.

(** C7: [GetStateSyncProof(id)] returns the persisted proof when the store
    reads one, and the error of the read when it fails.  When the store
    reads none, the call asks the store for the accepted commitment that
    covers [id]: when none covers it (or that lookup fails) the call
    returns the error and changes nothing.  Otherwise the proofs of the
    whole range of that commitment are rebuilt and persisted (the call
    returns the error of the rebuild when the events do not load, their
    tree does not build or the store refuses the proofs) and the call
    returns what it reads back under [id]: a proof exactly when the store
    holds the event of that id, and nil with no error otherwise.  A proof
    read back is served from the store by the later calls. *)
Theorem GetStateSyncProof_recovers (s : stateSyncManager) (stateSyncID : Z) :
  (forall e,
     getStateSyncProof (state s) stateSyncID = Err e ->
     GetStateSyncProof s stateSyncID = (s, Err e)) /\
  (forall proof,
     getStateSyncProof (state s) stateSyncID = Ok (Some proof) ->
     GetStateSyncProof s stateSyncID = (s, Ok (Some proof))) /\
  (getStateSyncProof (state s) stateSyncID = Ok None ->
   (forall e,
      getCommitmentForStateSync (state s) stateSyncID = Err e ->
      GetStateSyncProof s stateSyncID = (s, Err e)) /\
   ((forall k c, commitmentMessages (state s) !! k = Some c ->
       covers stateSyncID c = false) ->
    GetStateSyncProof s stateSyncID = (s, Err errNoCommitmentForStateSync) \/
    GetStateSyncProof s stateSyncID = (s, Err errIo)) /\
   (forall commitment,
      getCommitmentForStateSync (state s) stateSyncID = Ok commitment ->
      let msg := Message commitment in
      let events :=
        scanStateSyncEvents (state s) (msgFromIndex msg) (msgToIndex msg) in
      covers stateSyncID commitment = true /\
      (exists k, commitmentMessages (state s) !! k = Some commitment) /\
      (forall st e,
         buildProofs (state s) msg = (st, Some e) ->
         GetStateSyncProof s stateSyncID = (s, Err e)) /\
      forall tree st',
        getStateSyncEventsForCommitment (state s)
          (msgFromIndex msg) (msgToIndex msg) = (events, None) ->
        createMerkleTree events = Some tree ->
        insertStateSyncProofs (state s) (makeProofs tree events) = Ok st' ->
        GetStateSyncProof s stateSyncID =
          (set_state s st', getStateSyncProof st' stateSyncID) /\
        (forall id,
           msgFromIndex msg <= id <= msgToIndex msg ->
           match storedEvent (state s) id with
           | Some event =>
               exists i,
                 events !! i = Some event /\
                 stateSyncProofs st' !! id =
                   Some {| Proof_path := GenerateProof tree (Z.of_nat i) 0;
                           StateSync := event |}
           | None => stateSyncProofs st' !! id = stateSyncProofs (state s) !! id
           end) /\
        (is_Some (stateSyncProofs st' !! stateSyncID) <->
         is_Some (storedEvent (state s) stateSyncID)) /\
        (forall proof,
           getStateSyncProof st' stateSyncID = Ok (Some proof) ->
           GetStateSyncProof (set_state s st') stateSyncID =
             (set_state s st', Ok (Some proof))))).
Proof.
  split; [| split; [| intros Hnone; split; [| split]]].
  - intros e Hread. unfold GetStateSyncProof. by rewrite Hread.
  - intros proof Hproof. unfold GetStateSyncProof. by rewrite Hproof.
  - intros e Hfound. unfold GetStateSyncProof. by rewrite Hnone, Hfound.
  - intros Hnocover. unfold GetStateSyncProof. rewrite Hnone.
    unfold getCommitmentForStateSync.
    destruct (failing (state s) _); [by right |].
    apply coveringCommitment_None in Hnocover. rewrite Hnocover. by left.
  - intros commitment Hfound msg events.
    destruct (getCommitmentForStateSync_Ok _ _ _ Hfound)
      as (Hcovers & Hstored & _).
    split; [done |]. split; [done |]. split.
    + intros st e Hbuild. unfold GetStateSyncProof.
      rewrite Hnone, Hfound. fold msg. rewrite Hbuild.
      apply buildProofs_Err in Hbuild as ->. by rewrite set_state_id.
    + intros tree st' Hread Htree Hproofs.
      assert (buildProofs (state s) msg = (st', None)) as Hbuild
        by (apply buildProofs_Ok; by exists events, tree).
      apply insertStateSyncProofs_Ok in Hproofs as [_ ->].
      destruct (makeProofs_persisted (state s) (msgFromIndex msg)
                  (msgToIndex msg) tree) as [Hin _].
      fold events in Hin.
      split; [| split; [exact Hin | split]].
      * unfold GetStateSyncProof. rewrite Hnone, Hfound. fold msg.
        by rewrite Hbuild.
      * apply getStateSyncProof_Ok in Hnone as [_ Habsent].
        unfold covers in Hcovers. fold msg in Hcovers.
        apply andb_true_iff in Hcovers as [Hfrom Hto].
        apply Z.leb_le in Hfrom, Hto.
        specialize (Hin stateSyncID (conj Hfrom Hto)).
        destruct (storedEvent (state s) stateSyncID) as [event |].
        -- destruct Hin as (i & _ & ->). split; eauto.
        -- rewrite Hin, <- Habsent. split; by intros [? ?].
      * intros proof Hproof. unfold GetStateSyncProof. cbn [state set_state].
        by rewrite Hproof.
Qed.

(** ** Quorum of the consensus runtime *)

Lemma getQuorumSize_half N :
  0 <= N < 2 ^ 63 - 1 -> getQuorumSize N = (N + 1) / 2.
Proof.
  intros HN. unfold getQuorumSize, wrapInt.
  rewrite Z.mod_small by lia.
  replace (N + 1 + 2 ^ 63 - 2 ^ 63) with (N + 1) by lia.
  apply Z.quot_div_nonneg; lia.
Qed.

(** C2, as the code has it: the number of signatures the aggregation of the
    consensus runtime requires is [(N + 1) / 2], the ceiling of [N / 2]
    (not of [2N / 3]): it reports that quorum is not reached exactly when
    fewer than that many validator votes were collected. *)
Theorem quorum_threshold_is_half (st : State) (epoch : epochMetadata)
    (commitmentHash : bytes) :
  let N := Z.of_nat (length (Validators epoch)) in
  N < 2 ^ 63 - 1 ->
  getQuorumSize N = (N + 1) / 2 /\
  2 * getQuorumSize N - 1 <= N <= 2 * getQuorumSize N /\
  forall votes signatures bitmap,
    getMessageVotes st (Number epoch) commitmentHash = Ok votes ->
    runtime_collectVotes (indexValidators 0 (Validators epoch) ∅)
      votes [] 0 = Ok (signatures, bitmap) ->
    (runtime_getAggSignatureForCommitmentMessage st epoch commitmentHash
       = Err errQuorumNotReached <->
     Z.of_nat (length signatures) < (N + 1) / 2).
Proof.
  intros N HN.
  assert (getQuorumSize N = (N + 1) / 2) as Hhalf
    by (apply getQuorumSize_half; lia).
  split; [done |]. split.
  - rewrite Hhalf.
    pose proof (Z.div_mod (N + 1) 2 ltac:(lia)).
    pose proof (Z.mod_pos_bound (N + 1) 2 ltac:(lia)). lia.
  - intros votes signatures bitmap Hread Hvotes.
    unfold runtime_getAggSignatureForCommitmentMessage.
    rewrite Hread, Hvotes.
    fold N. rewrite Hhalf.
    destruct (Z.of_nat (length signatures) <? (N + 1) / 2) eqn:Hlt.
    + apply Z.ltb_lt in Hlt. done.
    + apply Z.ltb_ge in Hlt.
      destruct (AggregateMarshal signatures); split; (done || lia).
Qed.

(** ** Calls as runs

    A call of a method is a sequence of steps: a run stays a run. *)
Section Calls.
Variable admitted : State -> StateSyncEvent -> Prop.
Variable initial : State -> Prop.

Lemma run_buildCommitment s :
  run admitted initial s -> run admitted initial (buildCommitment s).1.
Proof. intros Hrun. eapply run_step; [done | apply step_buildCommitment]. Qed.

Lemma run_saveVote s msg :
  run admitted initial s -> run admitted initial (saveVote s msg).1.
Proof.
  intros Hrun. unfold saveVote.
  destruct (validatorSet s); [| done].
  destruct (_ <? _); [done |].
  destruct (negb _); [done |].
  destruct (insertMessageVote _ _ _ _) as [[st n] | e] eqn:Hinsert; [| done].
  eapply run_step; [done |]. apply step_store.
  by eapply write_MessageVote.
Qed.

Lemma run_AddLog s eventLog :
  (forall ev, decodeStateSyncEvent eventLog = Some ev -> admitted (state s) ev) ->
  run admitted initial s -> run admitted initial (AddLog s eventLog).
Proof.
  intros Hadmitted Hrun. unfold AddLog.
  destruct (negb _); [done |].
  destruct (decodeStateSyncEvent eventLog) as [ev |]; [| done].
  destruct (insertStateSyncEvent (state s) ev) as [st | e] eqn:Hinsert;
    [| done].
  apply run_buildCommitment.
  eapply run_step; [done |]. apply step_store.
  eapply write_StateSyncEvent; [| done]. by apply Hadmitted.
Qed.

Lemma run_PostEpoch_locked s req :
  (forall n, GetNextCommittedIndex req = Ok n -> is_u64 n) ->
  run admitted initial s -> run admitted initial (PostEpoch_locked s req).1.
Proof.
  intros Hu64 Hrun. eapply run_step; [done |]. by apply step_PostEpoch_locked.
Qed.

Lemma run_PostEpoch s req :
  (forall n, GetNextCommittedIndex req = Ok n -> is_u64 n) ->
  run admitted initial s -> run admitted initial (PostEpoch s req).1.
Proof.
  intros Hu64 Hrun. unfold PostEpoch.
  pose proof (run_PostEpoch_locked s req Hu64 Hrun) as Hlocked.
  destruct (PostEpoch_locked s req) as [s1 [e |]]; [done |].
  by apply run_buildCommitment.
Qed.

Lemma run_buildProofs s msg :
  run admitted initial s ->
  run admitted initial (set_state s (buildProofs (state s) msg).1).
Proof.
  intros Hrun.
  destruct (buildProofs (state s) msg) as [st [e |]] eqn:Hbuild.
  - apply buildProofs_Err in Hbuild as ->. by rewrite set_state_id.
  - apply buildProofs_Ok in Hbuild as (events & tree & _ & _ & Hinsert).
    eapply run_step; [done |]. apply step_store.
    by eapply write_StateSyncProofs.
Qed.

Lemma run_PostBlock s transactions :
  run admitted initial s -> run admitted initial (PostBlock s transactions).1.
Proof.
  intros Hrun. unfold PostBlock.
  destruct (getCommitmentMessageSignedTx transactions) as [[commitment |] | e];
    [| done | done].
  destruct (insertCommitmentMessage (state s) commitment) as [st1 | e]
    eqn:Hinsert; [| done].
  assert (run admitted initial (set_state s st1)) as Hrun1.
  { eapply run_step; [done |]. apply step_store.
    by eapply write_CommitmentMessage. }
  pose proof (run_buildProofs (set_state s st1) (Message commitment) Hrun1)
    as Hrun2.
  cbn [state set_state] in Hrun2.
  destruct (buildProofs st1 (Message commitment)) as [st2 [e |]];
    cbn [fst] in *; [done |].
  eapply run_step; [exact Hrun2 |]. apply step_PostBlock_locked.
Qed.

Lemma run_GetStateSyncProof s stateSyncID :
  run admitted initial s ->
  run admitted initial (GetStateSyncProof s stateSyncID).1.
Proof.
  intros Hrun. unfold GetStateSyncProof.
  destruct (getStateSyncProof _ _) as [[proof |] | e]; [done | | done].
  destruct (getCommitmentForStateSync _ _) as [commitment | e]; [| done].
  pose proof (run_buildProofs s (Message commitment) Hrun) as Hrun'.
  by destruct (buildProofs _ _) as [st [e |]].
Qed.

End Calls.

End Proofs.

(** * The properties on the concrete instance *)

#[local] Existing Instance Scenario.collaborators.

(** Decides a closed comparison or equation by evaluation. *)
Ltac by_evaluation :=
  vm_compute; repeat split;
  first [reflexivity | let H := fresh in intro H; discriminate H].

Lemma storeDense_emptyState : storeDense Scenario.emptyState.
Proof.
  split.
  - intros i [e He]. cbn in He. by rewrite lookup_empty in He.
  - intros i j _ [e He]. cbn in He. by rewrite lookup_empty in He.
Qed.

Lemma is_u64_0 : forall n, Ok 0 = Ok n -> is_u64 n.
Proof. intros n [= <-]. unfold is_u64, u64_modulus. lia. Qed.

Lemma reachableInOrder_twoEvents : reachableInOrder Scenario.twoEvents.
Proof.
  unfold Scenario.twoEvents, Scenario.oneEvent.
  apply run_AddLog; [| apply run_AddLog; [| apply run_PostEpoch]].
  - intros ev [= <-]. split; [by_evaluation | right].
    vm_compute. eexists. reflexivity.
  - intros ev [= <-]. split; [by_evaluation | by left].
  - exact is_u64_0.
  - apply run_New, storeDense_emptyState.
Qed.

Lemma reachableInOrder_withVotes : reachableInOrder Scenario.withVotes.
Proof.
  unfold Scenario.withVotes, Scenario.oneVote.
  do 2 apply run_saveVote. apply reachableInOrder_twoEvents.
Qed.

Lemma reachableInOrder_threeEvents : reachableInOrder Scenario.threeEvents.
Proof.
  unfold Scenario.threeEvents.
  apply run_AddLog; [| apply reachableInOrder_withVotes].
  intros ev [= <-]. split; [by_evaluation | right].
  vm_compute. eexists. reflexivity.
Qed.

Lemma reachable_threeEvents : reachable Scenario.threeEvents.
Proof. apply reachableInOrder_reachable, reachableInOrder_threeEvents. Qed.

Lemma reachable_withUndecodableVote : reachable Examples.withUndecodableVote.
Proof.
  unfold Examples.withUndecodableVote. apply run_saveVote.
  apply reachableInOrder_reachable, reachableInOrder_twoEvents.
Qed.


(** ** Witnesses *)

Lemma Commitment_threeEvents :
  exists signed,
    stateSyncManager_Commitment Scenario.threeEvents = Some (Ok (Some signed)).
Proof. eexists. vm_compute. reflexivity. Qed.

Lemma Commitment_largest_with_quorum_witness :
  reachable Scenario.threeEvents /\
  exists signed,
    stateSyncManager_Commitment Scenario.threeEvents
      = Some (Ok (Some signed)) /\
    exists older c newer,
      pendingCommitments Scenario.threeEvents = older ++ c :: newer /\
      Forall (lacksQuorum Scenario.threeEvents) newer /\
      hasQuorum Scenario.threeEvents c = true /\
      getAggSignatureForCommitmentMessage Scenario.threeEvents c
        = Some (Ok (AggSignature signed, PublicKeys signed)) /\
      Message signed = messageOf c /\
      (forall c', c' ∈ pendingCommitments Scenario.threeEvents ->
         hasQuorum Scenario.threeEvents c' = true ->
         ToIndex c' <= ToIndex c).
Proof.
  split; [exact reachable_threeEvents |].
  destruct Commitment_threeEvents as [signed Hresult].
  exists signed. split; [exact Hresult |].
  destruct (Commitment_largest_with_quorum Scenario.threeEvents
              reachable_threeEvents) as [Hspec _].
  rewrite Hresult in Hspec. exact Hspec.
Defined.

Lemma getMessageVotes_oneVote :
  exists votes,
    getMessageVotes (state Scenario.oneVote) 7 Scenario.digest01 = Ok votes.
Proof. eexists. vm_compute. reflexivity. Qed.

Lemma quorum_threshold_is_half_witness :
  Z.of_nat (length (Validators Scenario.epoch7Metadata)) < 2 ^ 63 - 1 /\
  getQuorumSize (Z.of_nat (length (Validators Scenario.epoch7Metadata))) =
    (Z.of_nat (length (Validators Scenario.epoch7Metadata)) + 1) / 2.
Proof.
  split; [vm_compute; reflexivity |].
  apply (quorum_threshold_is_half (state Scenario.oneVote)
           Scenario.epoch7Metadata Scenario.digest01).
  vm_compute; reflexivity.
Defined.

(** The store of [withVotes] accepts the commitment over the events 0 and
    1, reads the two events back and accepts their proofs. *)
Lemma withVotes_accepts_signed01 :
  insertCommitmentMessage (state Scenario.withVotes) Scenario.signed01 =
  Ok (putCommitmentMessage (state Scenario.withVotes) Scenario.signed01).
Proof. apply insertCommitmentMessage_Ok. split; [by_evaluation | done]. Qed.

Lemma withVotes_reads_window01 :
  getStateSyncEventsForCommitment
    (putCommitmentMessage (state Scenario.withVotes) Scenario.signed01) 0 1 =
  (scanStateSyncEvents (state Scenario.withVotes) 0 1, None).
Proof.
  apply getStateSyncEventsForCommitment_None.
  split; [by_evaluation |]. split; [done |]. vm_compute. lia.
Qed.

Lemma withVotes_accepts_proofs01 :
  insertStateSyncProofs
    (putCommitmentMessage (state Scenario.withVotes) Scenario.signed01)
    (makeProofs [Scenario.event 0; Scenario.event 1]
       (scanStateSyncEvents (state Scenario.withVotes) 0 1)) =
  Ok (putStateSyncProofs
        (putCommitmentMessage (state Scenario.withVotes) Scenario.signed01)
        (makeProofs [Scenario.event 0; Scenario.event 1]
           (scanStateSyncEvents (state Scenario.withVotes) 0 1))).
Proof. apply insertStateSyncProofs_Ok. split; [by_evaluation | done]. Qed.

Lemma PostBlock_persists_then_advances_witness :
  getCommitmentMessageSignedTx Scenario.block01 = Ok (Some Scenario.signed01) /\
  (PostBlock Scenario.withVotes Scenario.block01).2 = None /\
  nextCommittedIndex (PostBlock Scenario.withVotes Scenario.block01).1 = 2 /\
  pendingCommitments (PostBlock Scenario.withVotes Scenario.block01).1 = [].
Proof.
  split; [reflexivity |].
  destruct (PostBlock_persists_then_advances Scenario.withVotes
              Scenario.block01) as (_ & _ & Hsome).
  pose proof (Hsome Scenario.signed01 eq_refl) as Hcase.
  cbv zeta in Hcase. destruct Hcase as [_ Hstored].
  destruct (Hstored _ withVotes_accepts_signed01) as (_ & Hbuilt & _).
  destruct (Hbuilt [Scenario.event 0; Scenario.event 1] _
              withVotes_reads_window01 ltac:(vm_compute; reflexivity)
              withVotes_accepts_proofs01)
    as (Herr & _ & _ & _ & _ & Hnext & Hpending).
  split; [exact Herr |]. split; [| exact Hpending].
  apply Hnext. unfold is_u64, u64_modulus. by_evaluation.
Defined.

Lemma buildCommitment_minimum_size_witness :
  pendingCommitments (buildCommitment Scenario.beforeBuild).1 =
    [Scenario.commitment01] /\
  buildCommitment Scenario.oneEvent = (Scenario.oneEvent, None).
Proof.
  split.
  - destruct (buildCommitment_minimum_size Scenario.beforeBuild) as [Hbuild _].
    pose proof (Hbuild eq_refl eq_refl Scenario.commitment01 Scenario.digest01
                  Scenario.signature01 eq_refl eq_refl eq_refl) as Hcase.
    cbv zeta in Hcase. destruct Hcase as (_ & Haccepted & _).
    destruct (Haccepted _ _ eq_refl) as (_ & _ & Hpending & _).
    exact Hpending.
  - destruct (buildCommitment_minimum_size Scenario.oneEvent) as [_ Hfew].
    destruct Hfew as [Hnone _]; [vm_compute; repeat constructor |].
    apply Hnone. by_evaluation.
Defined.

Lemma buildCommitment_idempotent_witness :
  buildCommitment Scenario.twoEvents = (Scenario.twoEvents, None) /\
  AddLog (AddLog Scenario.oneEvent (Some (Scenario.event 1)))
         (Some (Scenario.event 1)) =
  AddLog Scenario.oneEvent (Some (Scenario.event 1)).
Proof.
  split.
  - destruct (buildCommitment_idempotent Scenario.twoEvents) as [Hcovered _].
    apply (Hcovered Scenario.commitment01 (Scenario.event 1)).
    + vm_compute. reflexivity.
    + vm_compute. reflexivity.
    + by_evaluation.
  - destruct (buildCommitment_idempotent Scenario.oneEvent) as [_ Htwice].
    apply Htwice.
Defined.

Lemma saveVote_ingress_witness :
  saveVote Scenario.twoEvents Scenario.staleVote = (Scenario.twoEvents, None) /\
  saveVote Scenario.twoEvents Scenario.intruderVote =
    (Scenario.twoEvents, Some errNotAmongActiveValidators) /\
  {| From := "B"; Signature_bytes := String.list_byte_of_string "B" |}
    ∈ recordedVotes
        (state (saveVote Scenario.twoEvents (Scenario.voteOf "B")).1)
        7 Scenario.digest01.
Proof.
  split; [| split].
  - destruct (saveVote_ingress Scenario.twoEvents Scenario.staleVote)
      as [Hdrop _].
    apply Hdrop. right. by_evaluation.
  - destruct (saveVote_ingress Scenario.twoEvents Scenario.intruderVote)
      as (_ & Hreject & _).
    apply (Hreject Scenario.fourValidators).
    + reflexivity.
    + by_evaluation.
    + vm_compute. reflexivity.
  - destruct (saveVote_ingress Scenario.twoEvents (Scenario.voteOf "B"))
      as (_ & _ & Hinsert).
    pose proof (Hinsert Scenario.fourValidators eq_refl
                  ltac:(by_evaluation) ltac:(vm_compute; reflexivity))
      as Hcase.
    cbv zeta in Hcase. destruct Hcase as [Haccepted _].
    destruct (Haccepted _ _ eq_refl) as [_ Hrecorded].
    exact Hrecorded.
Defined.

Lemma GetStateSyncProof_recovers_witness :
  getStateSyncProof (state Scenario.withoutProofs) 1 = Ok None /\
  (GetStateSyncProof Scenario.withoutProofs 1).2 =
    Ok (Some {| Proof_path := [[Byte.x01]]; StateSync := Scenario.event 1 |}).
Proof.
  split; [reflexivity |].
  destruct (GetStateSyncProof_recovers Scenario.withoutProofs 1)
    as (_ & _ & Hrebuild).
  destruct (Hrebuild eq_refl) as (_ & _ & Hfound).
  pose proof (Hfound Scenario.signed01 eq_refl) as Hcase.
  cbv zeta in Hcase. destruct Hcase as (_ & _ & _ & Hproofs).
  destruct (Hproofs [Scenario.event 0; Scenario.event 1] _
              eq_refl eq_refl eq_refl) as (Hresult & _).
  rewrite Hresult. reflexivity.
Defined.


Lemma saveVote_future_epoch_witness :
  validatorSet Scenario.twoEvents = Some Scenario.fourValidators /\
  epoch Scenario.twoEvents < EpochNumber Scenario.futureVote /\
  {| From := "B"; Signature_bytes := [Byte.x42] |}
    ∈ recordedVotes
        (state (saveVote Scenario.twoEvents Scenario.futureVote).1)
        8 Scenario.digest01.
Proof.
  split; [reflexivity |]. split; [by_evaluation |].
  pose proof (saveVote_future_epoch Scenario.twoEvents Scenario.futureVote
                Scenario.fourValidators eq_refl ltac:(by_evaluation)
                ltac:(vm_compute; reflexivity)) as Hcase.
  cbv zeta in Hcase. destruct Hcase as [Haccepted _].
  destruct (Haccepted _ _ eq_refl) as (_ & Hrecorded & _).
  exact Hrecorded.
Defined.

(** ** Where the code departs from the words of the spec *)

(** C1 (counterexample): a vote of validator B whose signature does not
    decode is stored by [saveVote] (signatures are not verified on
    ingress).  No pending commitment has quorum then, and [Commitment]
    returns the error of the aggregation, not nil. *)
Lemma Commitment_fails_without_quorum :
  reachable Examples.withUndecodableVote /\
  pendingCommitments Examples.withUndecodableVote = [Scenario.commitment01] /\
  hasQuorum Examples.withUndecodableVote Scenario.commitment01 = false /\
  stateSyncManager_Commitment Examples.withUndecodableVote
    = Some (Err errUnmarshalSignature).
Proof.
  split; [exact reachable_withUndecodableVote |].
  split; [vm_compute; reflexivity |].
  split; vm_compute; reflexivity.
Qed.

(** C2 (counterexample): for four validators the spec's threshold
    (the ceiling of [2N/3]) is three signatures, the code's is two, and the
    aggregation of the runtime proceeds with the two votes of A and B. *)
Lemma quorum_threshold_not_two_thirds :
  quorumTwoThirds 4 = 3 /\
  getQuorumSize 4 = 2 /\
  getQuorumSize 4 <> quorumTwoThirds 4 /\
  length (recordedVotes (state Scenario.oneVote) 7 Scenario.digest01) = 2%nat /\
  exists signature,
    runtime_getAggSignatureForCommitmentMessage (state Scenario.oneVote)
      Scenario.epoch7Metadata Scenario.digest01 = Ok signature.
Proof.
  split; [reflexivity |]. split; [reflexivity |].
  split; [by_evaluation |]. split; [vm_compute; reflexivity |].
  eexists. vm_compute. reflexivity.
Qed.

(** C3 (counterexample): the block submits a commitment over the ids 0 to
    5 while the store holds the events 0 and 1 only.  [PostBlock] succeeds
    with the two proofs and moves [nextCommittedIndex] to 6: the ids 2 to 5
    are behind it without a proof.  And over a store that refuses the
    commitment, [PostBlock] returns the error and persists nothing. *)
Lemma PostBlock_advances_past_missing_events :
  getCommitmentMessageSignedTx Scenario.block05 = Ok (Some Scenario.signed05) /\
  (PostBlock Scenario.withVotes Scenario.block05).2 = None /\
  nextCommittedIndex (PostBlock Scenario.withVotes Scenario.block05).1 = 6 /\
  storedEvent (state Scenario.withVotes) 3 = None /\
  stateSyncProofs (state (PostBlock Scenario.withVotes Scenario.block05).1)
    !! 3 = None /\
  (PostBlock (NewStateSyncManager Scenario.commitmentsNotWritable 5)
     Scenario.block01).2 = Some errIo /\
  commitmentMessages
    (state (PostBlock (NewStateSyncManager Scenario.commitmentsNotWritable 5)
              Scenario.block01).1) !! 1 = None.
Proof. repeat split; vm_compute; reflexivity. Qed.

(** C4 (counterexample): two events are in the window and nothing is
    pending, but the store refuses the vote of this node: the build returns
    the error and no commitment is appended. *)
Lemma buildCommitment_refused_vote :
  length (commitmentWindow Scenario.twoEventsNoVotes) = minCommitmentSize /\
  pendingCommitments Scenario.twoEventsNoVotes = [] /\
  (buildCommitment Scenario.twoEventsNoVotes).2 = Some errIo /\
  pendingCommitments (buildCommitment Scenario.twoEventsNoVotes).1 = [] /\
  published (buildCommitment Scenario.twoEventsNoVotes).1 = [].
Proof. repeat split; vm_compute; reflexivity. Qed.

(** C6 (counterexample): the vote of validator B for the current epoch
    reaches a manager whose store refuses it: [saveVote] returns the error
    of the store and no vote is recorded. *)
Lemma saveVote_refused_by_store :
  validatorSet Scenario.twoEventsNoVotes = Some Scenario.fourValidators /\
  epoch Scenario.twoEventsNoVotes = EpochNumber (Scenario.voteOf "B") /\
  Includes Scenario.fourValidators
    (StringToAddress (NodeID (Scenario.voteOf "B"))) = true /\
  (saveVote Scenario.twoEventsNoVotes (Scenario.voteOf "B")).2 = Some errIo /\
  recordedVotes
    (state (saveVote Scenario.twoEventsNoVotes (Scenario.voteOf "B")).1)
    7 Scenario.digest01 = [].
Proof.
  split; [reflexivity |]. repeat split; vm_compute; reflexivity.
Qed.

(** C7 (counterexample): the store holds the accepted commitment over the
    ids 0 to 5, the events 0 and 1 and no proof.  [GetStateSyncProof(3)]
    rebuilds the two proofs and returns nil with no error: neither a proof
    nor the not-found error.  And when the store fails the read of the
    proof, the call returns that failure. *)
Lemma GetStateSyncProof_returns_nil :
  stateSyncProofs (state Scenario.withoutProofs05) !! 3 = None /\
  coveringCommitment (state Scenario.withoutProofs05) 3
    = Some Scenario.signed05 /\
  (GetStateSyncProof Scenario.withoutProofs05 3).2 = Ok None /\
  (GetStateSyncProof (NewStateSyncManager Scenario.commitmentsNotWritable 5)
     0).2 = Err errIo.
Proof. repeat split; vm_compute; reflexivity. Qed.


(** C10 (counterexample): the vote of validator B for the epoch after the
    current one reaches a manager whose store refuses it: [saveVote]
    returns the error of the store and the vote is not stored. *)
Lemma saveVote_future_epoch_refused :
  validatorSet Scenario.twoEventsNoVotes = Some Scenario.fourValidators /\
  epoch Scenario.twoEventsNoVotes < EpochNumber Scenario.futureVote /\
  Includes Scenario.fourValidators
    (StringToAddress (NodeID Scenario.futureVote)) = true /\
  (saveVote Scenario.twoEventsNoVotes Scenario.futureVote).2 = Some errIo /\
  recordedVotes
    (state (saveVote Scenario.twoEventsNoVotes Scenario.futureVote).1)
    8 Scenario.digest01 = [].
Proof.
  split; [reflexivity |]. split; [by_evaluation |].
  repeat split; vm_compute; reflexivity.
Qed.
(** ** Shutdown *)

(** While the channel is open the goroutines are where [Init] left them. *)
Lemma Lifecycle_open l :
  Lifecycle.reachable l ->
  Lifecycle.closeCh_closed l = false ->
  Lifecycle.watcher l = Lifecycle.WatcherReceiving /\
  Lifecycle.ctx_cancelled l = false /\
  Lifecycle.tracker l = Lifecycle.TrackerRunning /\
  Lifecycle.Close_returned l = false.
Proof.
  unfold Lifecycle.reachable. revert l.
  apply (rtc_ind_r (fun l =>
           Lifecycle.closeCh_closed l = false ->
           Lifecycle.watcher l = Lifecycle.WatcherReceiving /\
           Lifecycle.ctx_cancelled l = false /\
           Lifecycle.tracker l = Lifecycle.TrackerRunning /\
           Lifecycle.Close_returned l = false)); [done |].
  intros l1 l2 _ Hstep IH.
  destruct Hstep as [l1 Hopen | l1 Hpc Hclosed | l1 Hpc | l1 Hpc Hcancelled];
    cbn; intros Hopen'; try done.
  - congruence.
  - destruct (IH Hopen') as (Hwatcher & _). congruence.
  - destruct (IH Hopen') as (_ & Hctx & _). congruence.
Qed.

(** C9 (counterexample): right after [Close] has returned, the watcher is
    still blocked in its receive and the tracker is still running. *)
Lemma Close_returns_before_goroutines_stop :
  Lifecycle.reachable (Lifecycle.Close Lifecycle.afterInit) /\
  Lifecycle.Close_returned (Lifecycle.Close Lifecycle.afterInit) = true /\
  Lifecycle.watcher (Lifecycle.Close Lifecycle.afterInit)
    = Lifecycle.WatcherReceiving /\
  Lifecycle.tracker (Lifecycle.Close Lifecycle.afterInit)
    = Lifecycle.TrackerRunning /\
  ~ Lifecycle.all_stopped (Lifecycle.Close Lifecycle.afterInit).
Proof.
  split; [| split; [done | split; [done | split; [done |]]]].
  - apply rtc_once. by apply Lifecycle.step_Close.
  - by intros [? _].
Qed.

(** C9, as the code has it: [Close] closes the shutdown channel and
    returns; it stops nothing itself (the watcher, the context and the
    tracker are as before), and the goroutines can stop afterwards: the
    watcher wakes up, cancels the context of the tracker and ends, then the
    tracker stops. *)
Theorem Close_signals_shutdown (l : Lifecycle.t) :
  Lifecycle.reachable l ->
  Lifecycle.closeCh_closed l = false ->
  let l' := Lifecycle.Close l in
  Lifecycle.step l l' /\
  Lifecycle.closeCh_closed l' = true /\
  Lifecycle.Close_returned l' = true /\
  Lifecycle.watcher l' = Lifecycle.watcher l /\
  Lifecycle.ctx_cancelled l' = Lifecycle.ctx_cancelled l /\
  Lifecycle.tracker l' = Lifecycle.tracker l /\
  ~ Lifecycle.all_stopped l' /\
  exists l'', rtc Lifecycle.step l' l'' /\ Lifecycle.all_stopped l''.
Proof.
  intros Hreach Hopen l'.
  destruct (Lifecycle_open l Hreach Hopen) as (Hwatcher & Hctx & Htracker & _).
  split; [by apply Lifecycle.step_Close |].
  do 5 (split; [done |]). split.
  - intros [Hstopped _]. cbn in Hstopped. congruence.
  - exists (Lifecycle.tracker_stop
              (Lifecycle.watcher_cancel (Lifecycle.watcher_receive l'))).
    split; [| done].
    eapply rtc_l; [by apply Lifecycle.step_watcher_receive |].
    eapply rtc_l; [by apply Lifecycle.step_watcher_cancel |].
    apply rtc_once. by apply Lifecycle.step_tracker_stop.
Qed.

Lemma Close_signals_shutdown_witness :
  Lifecycle.reachable Lifecycle.afterInit /\
  Lifecycle.closeCh_closed Lifecycle.afterInit = false /\
  Lifecycle.step Lifecycle.afterInit (Lifecycle.Close Lifecycle.afterInit) /\
  Lifecycle.closeCh_closed (Lifecycle.Close Lifecycle.afterInit) = true.
Proof.
  split; [apply rtc_refl |]. split; [reflexivity |].
  destruct (Close_signals_shutdown Lifecycle.afterInit
              (rtc_refl _ _) eq_refl) as (Hstep & Hclosed & _).
  split; [exact Hstep | exact Hclosed].
Defined.

(** * Further properties of the manager *)
Section MoreProofs.
Context `{Collaborators}.

(** ** What an operation leaves in place *)

Lemma storeGrows_refl st : storeGrows st st.
Proof. by repeat split. Qed.

Lemma storeGrows_trans st1 st2 st3 :
  storeGrows st1 st2 -> storeGrows st2 st3 -> storeGrows st1 st3.
Proof.
  intros (He & Hv & Hc & Hp & Hf) (He' & Hv' & Hc' & Hp' & Hf').
  split; [set_solver |]. split; [| split; [| split]];
    [| set_solver | set_solver | congruence].
  intros epoch digest. specialize (Hv epoch digest).
  specialize (Hv' epoch digest). set_solver.
Qed.

Lemma storeGrows_putMessageVote st epoch digest vote :
  storeGrows st (putMessageVote st epoch digest vote).
Proof.
  split; [done |]. split; [| done].
  intros epoch' digest'. rewrite votesAt_putMessageVote.
  case_decide as Hkey; [| done].
  injection Hkey as <- <-. apply dom_insert_subseteq.
Qed.

Lemma storeGrows_putStateSyncEvent st ev :
  storeGrows st (putStateSyncEvent st ev).
Proof.
  split; [apply dom_insert_subseteq |]. by repeat split.
Qed.

Lemma storeGrows_putCommitmentMessage st c :
  storeGrows st (putCommitmentMessage st c).
Proof.
  split; [done |]. split; [done |]. split; [apply dom_insert_subseteq | done].
Qed.

Lemma storeGrows_putStateSyncProofs st proofs :
  storeGrows st (putStateSyncProofs st proofs).
Proof.
  split; [done |]. split; [done |]. split; [done |]. split; [| done].
  induction proofs as [| p proofs IH] using rev_ind; [done |].
  rewrite putStateSyncProofs_snoc.
  etrans; [exact IH | apply dom_insert_subseteq].
Qed.

Lemma storeGrows_buildProofs st msg : storeGrows st (buildProofs st msg).1.
Proof.
  destruct (buildProofs st msg) as [st' [e |]] eqn:Hbuild.
  - apply buildProofs_Err in Hbuild as ->. apply storeGrows_refl.
  - apply buildProofs_Ok in Hbuild as (events & tree & _ & _ & Hinsert).
    apply insertStateSyncProofs_Ok in Hinsert as [_ ->].
    apply storeGrows_putStateSyncProofs.
Qed.

Lemma storeGrows_buildCommitment s :
  storeGrows (state s) (state (buildCommitment s).1) /\
  maxCommitmentSize (buildCommitment s).1 = maxCommitmentSize s /\
  (exists more, published (buildCommitment s).1 = published s ++ more).
Proof.
  destruct (buildCommitment_cases s)
    as [-> | [[e ->] | (c & digest & signature & _ & _ & _ & _ & _ & _ & ->)]].
  - split; [apply storeGrows_refl |]. split; [done |]. exists []. by rewrite app_nil_r.
  - split; [apply storeGrows_refl |]. split; [done |]. exists []. by rewrite app_nil_r.
  - split; [apply storeGrows_putMessageVote |]. split; [done |]. by eexists.
Qed.

Lemma PostEpoch_locked_only_adds s req :
  state (PostEpoch_locked s req).1 = state s /\
  maxCommitmentSize (PostEpoch_locked s req).1 = maxCommitmentSize s /\
  published (PostEpoch_locked s req).1 = published s.
Proof. unfold PostEpoch_locked. by destruct (GetNextCommittedIndex req). Qed.

Lemma transition_only_adds (s s' : stateSyncManager) :
  transition s s' ->
  storeGrows (state s) (state s') /\
  maxCommitmentSize s' = maxCommitmentSize s /\
  exists more, published s' = published s ++ more.
Proof.
  intros Hstep.
  assert (forall s0 : stateSyncManager,
            storeGrows (state s0) (state s0) /\
            maxCommitmentSize s0 = maxCommitmentSize s0 /\
            exists more, published s0 = published s0 ++ more) as Hsame.
  { intros s0. split; [apply storeGrows_refl |]. split; [done |].
    exists []. by rewrite app_nil_r. }
  destruct Hstep
    as [s eventLog | s msg | s | s req | s req | s transactions | s id].
  - unfold AddLog. destruct (negb _); [apply Hsame |].
    destruct (decodeStateSyncEvent eventLog) as [ev |]; [| apply Hsame].
    destruct (insertStateSyncEvent (state s) ev) as [st | e] eqn:Hinsert;
      [| apply Hsame].
    apply insertStateSyncEvent_Ok in Hinsert as [_ ->].
    destruct (storeGrows_buildCommitment
                (set_state s (putStateSyncEvent (state s) ev)))
      as (Hgrow & Hmax & Hpub).
    split; [| split; [exact Hmax | exact Hpub]].
    eapply storeGrows_trans; [| exact Hgrow].
    apply storeGrows_putStateSyncEvent.
  - unfold saveVote. destruct (validatorSet s); [| apply Hsame].
    destruct (_ <? _); [apply Hsame |]. destruct (negb _); [apply Hsame |].
    destruct (insertMessageVote _ _ _ _) as [[st n] | e] eqn:Hinsert;
      [| apply Hsame].
    apply insertMessageVote_Ok in Hinsert as (_ & -> & _).
    cbn [fst state set_state maxCommitmentSize published].
    split; [apply storeGrows_putMessageVote |]. split; [done |].
    exists []. by rewrite app_nil_r.
  - apply storeGrows_buildCommitment.
  - destruct (PostEpoch_locked_only_adds s req) as (-> & -> & ->).
    apply Hsame.
  - unfold PostEpoch.
    destruct (PostEpoch_locked_only_adds s req) as (Hst & Hmax1 & Hpub1).
    destruct (PostEpoch_locked s req) as [s1 [e |]]; cbn [fst] in *.
    + rewrite Hst, Hmax1, Hpub1. apply Hsame.
    + destruct (storeGrows_buildCommitment s1) as (Hgrow & Hmax & Hpub).
      by rewrite <- Hst, <- Hmax1, <- Hpub1.
  - unfold PostBlock.
    destruct (getCommitmentMessageSignedTx transactions)
      as [[commitment |] | e]; [| apply Hsame | apply Hsame].
    destruct (insertCommitmentMessage (state s) commitment) as [st1 | e]
      eqn:Hinsert; [| apply Hsame].
    apply insertCommitmentMessage_Ok in Hinsert as [_ ->].
    pose proof (storeGrows_buildProofs
                  (putCommitmentMessage (state s) commitment)
                  (Message commitment)) as Hgrow.
    assert (storeGrows (state s)
              (buildProofs (putCommitmentMessage (state s) commitment)
                 (Message commitment)).1) as Hall.
    { eapply storeGrows_trans; [| exact Hgrow].
      apply storeGrows_putCommitmentMessage. }
    destruct (buildProofs _ _) as [st2 [e |]]; cbn in *;
      (split; [exact Hall |]; split; [done |]; exists []; by rewrite app_nil_r).
  - unfold GetStateSyncProof.
    destruct (getStateSyncProof _ _) as [[proof |] | e];
      [apply Hsame | | apply Hsame].
    destruct (getCommitmentForStateSync _ _) as [commitment | e]; [| apply Hsame].
    pose proof (storeGrows_buildProofs (state s) (Message commitment)) as Hgrow.
    destruct (buildProofs _ _) as [st [e |]]; cbn in *;
      (split; [exact Hgrow |]; split; [done |]; exists []; by rewrite app_nil_r).
Qed.

(** X1: no operation of the manager removes a key from the store or a
    message from the gossip log: after any sequence of calls the store has
    a record under every event id, under every voter of every (epoch,
    digest), under every [toId] of an accepted commitment and under every
    proof id under which it had one (the record itself may have been
    overwritten by a later write under the same key), the store fails the
    same calls, the configured maximum size is the same, and the messages
    gossiped so far are a prefix of those gossiped after. *)
Theorem operations_only_add (s s' : stateSyncManager) :
  rtc transition s s' ->
  storeGrows (state s) (state s') /\
  maxCommitmentSize s' = maxCommitmentSize s /\
  exists more, published s' = published s ++ more.
Proof.
  induction 1 as [s | s s1 s' Hstep _ IH].
  - split; [apply storeGrows_refl |]. split; [done |].
    exists []. by rewrite app_nil_r.
  - destruct (transition_only_adds _ _ Hstep) as (Hgrow1 & Hmax1 & [m1 Hpub1]).
    destruct IH as (Hgrow & Hmax & [m Hpub]).
    split; [by eapply storeGrows_trans |].
    split; [congruence |].
    exists (m1 ++ m). by rewrite Hpub, Hpub1, app_assoc.
Qed.

Lemma buildCommitment_fields s :
  epoch (buildCommitment s).1 = epoch s /\
  validatorSet (buildCommitment s).1 = validatorSet s /\
  nextCommittedIndex (buildCommitment s).1 = nextCommittedIndex s /\
  (pendingCommitments (buildCommitment s).1 = pendingCommitments s \/
   exists c, pendingCommitments (buildCommitment s).1
             = pendingCommitments s ++ [c]).
Proof.
  destruct (buildCommitment_cases s)
    as [-> | [[e ->] | (c & digest & signature & _ & _ & _ & _ & _ & _ & ->)]];
    cbn; eauto 10.
Qed.

Lemma AddLog_fields (s : stateSyncManager) eventLog :
  let s' := AddLog s eventLog in
  epoch s' = epoch s /\ validatorSet s' = validatorSet s /\
  nextCommittedIndex s' = nextCommittedIndex s /\
  (pendingCommitments s' = pendingCommitments s \/
   exists c, pendingCommitments s' = pendingCommitments s ++ [c]).
Proof.
  cbn zeta. unfold AddLog.
  destruct (negb _); [by eauto 10 |].
  destruct (decodeStateSyncEvent eventLog) as [ev |]; [| by eauto 10].
  destruct (insertStateSyncEvent (state s) ev) as [st | e]; [| by eauto 10].
  apply (buildCommitment_fields (set_state s st)).
Qed.

Lemma saveVote_fields (s : stateSyncManager) msg :
  let s' := (saveVote s msg).1 in
  epoch s' = epoch s /\ validatorSet s' = validatorSet s /\
  nextCommittedIndex s' = nextCommittedIndex s /\
  pendingCommitments s' = pendingCommitments s /\
  stateSyncEvents (state s') = stateSyncEvents (state s).
Proof.
  cbn zeta. unfold saveVote.
  destruct (validatorSet s) eqn:Hvs; [| by rewrite ?Hvs].
  destruct (_ <? _); [by rewrite ?Hvs |].
  destruct (negb _); [by rewrite ?Hvs |].
  destruct (insertMessageVote _ _ _ _) as [[st n] | e] eqn:Hinsert;
    [| by rewrite ?Hvs].
  apply insertMessageVote_Ok in Hinsert as (_ & -> & _).
  cbn [fst epoch validatorSet nextCommittedIndex pendingCommitments state
       set_state]. by rewrite ?Hvs.
Qed.

Lemma GetStateSyncProof_fields (s : stateSyncManager) stateSyncID :
  let s' := (GetStateSyncProof s stateSyncID).1 in
  epoch s' = epoch s /\ validatorSet s' = validatorSet s /\
  nextCommittedIndex s' = nextCommittedIndex s /\
  pendingCommitments s' = pendingCommitments s /\
  stateSyncEvents (state s') = stateSyncEvents (state s).
Proof.
  cbn zeta. unfold GetStateSyncProof.
  destruct (getStateSyncProof _ _) as [[proof |] | e]; [done | | done].
  destruct (getCommitmentForStateSync _ _) as [commitment | e]; [| done].
  pose proof (buildProofs_events (state s) (Message commitment)) as Hevents.
  by destruct (buildProofs _ _) as [st [e |]].
Qed.

(** X2: log ingestion, vote ingress and proof lookups never move the epoch
    fields: after [AddLog], [saveVote] or [GetStateSyncProof] the epoch, the
    validator set and [nextCommittedIndex] are what they were.  [AddLog]
    keeps every pending commitment and appends at most one; the other two
    leave the pending list and the stored events untouched.  Only
    [PostEpoch] and [PostBlock] discard pending commitments. *)
Theorem ingress_keeps_epoch_fields (s : stateSyncManager) :
  (forall eventLog,
     let s' := AddLog s eventLog in
     epoch s' = epoch s /\ validatorSet s' = validatorSet s /\
     nextCommittedIndex s' = nextCommittedIndex s /\
     (pendingCommitments s' = pendingCommitments s \/
      exists c, pendingCommitments s' = pendingCommitments s ++ [c])) /\
  (forall msg,
     let s' := (saveVote s msg).1 in
     epoch s' = epoch s /\ validatorSet s' = validatorSet s /\
     nextCommittedIndex s' = nextCommittedIndex s /\
     pendingCommitments s' = pendingCommitments s /\
     stateSyncEvents (state s') = stateSyncEvents (state s)) /\
  (forall stateSyncID,
     let s' := (GetStateSyncProof s stateSyncID).1 in
     epoch s' = epoch s /\ validatorSet s' = validatorSet s /\
     nextCommittedIndex s' = nextCommittedIndex s /\
     pendingCommitments s' = pendingCommitments s /\
     stateSyncEvents (state s') = stateSyncEvents (state s)).
Proof.
  split; [| split].
  - intros eventLog. apply AddLog_fields.
  - intros msg. apply saveVote_fields.
  - intros stateSyncID. apply GetStateSyncProof_fields.
Qed.

(** ** What every pending commitment carries *)

Lemma storeWrite_storeGrows admitted st st' :
  storeWrite admitted st st' -> storeGrows st st'.
Proof.
  intros [st0 ev st1 _ Hwrite | st0 epoch digest vote st1 n Hwrite
         | st0 commitment st1 Hwrite | st0 proofs st1 Hwrite].
  - apply insertStateSyncEvent_Ok in Hwrite as [_ ->].
    apply storeGrows_putStateSyncEvent.
  - apply insertMessageVote_Ok in Hwrite as (_ & -> & _).
    apply storeGrows_putMessageVote.
  - apply insertCommitmentMessage_Ok in Hwrite as [_ ->].
    apply storeGrows_putCommitmentMessage.
  - apply insertStateSyncProofs_Ok in Hwrite as [_ ->].
    apply storeGrows_putStateSyncProofs.
Qed.

Lemma selfVoted_mono s s' c :
  storeGrows (state s) (state s') ->
  (exists more, published s' = published s ++ more) ->
  selfVoted s c -> selfVoted s' c.
Proof.
  intros (_ & Hvotes & _) [more Hpub]
    (digest & Hhash & Hvote & sig & Hsign & Hmsg).
  exists digest. split; [done |]. split.
  - apply elem_of_dom, (Hvotes (Epoch c) digest), elem_of_dom, Hvote.
  - exists sig. split; [done |]. rewrite Hpub. apply elem_of_app. by left.
Qed.


Lemma pendingVoted_buildCommitment s :
  pendingVoted s -> pendingVoted (buildCommitment s).1.
Proof.
  intros Hvoted.
  destruct (storeGrows_buildCommitment s) as (Hgrow & _ & Hpub).
  destruct (buildCommitment_cases s)
    as [Heq | [[e Heq]
       | (c & digest & signature & _ & _ & _ & Hnew & Hhash & Hsign & Heq)]];
    rewrite Heq in *; [done | done |].
  cbn [fst] in *. unfold pendingVoted.
  cbn [pendingCommitments withCommitment]. apply Forall_app. split.
  - eapply Forall_impl; [exact Hvoted |]. intros c0.
    by apply selfVoted_mono.
  - apply Forall_singleton.
    apply NewCommitment_Ok in Hnew as (Hepoch & _).
    exists digest. split; [done |]. split.
    + cbn [state withCommitment]. rewrite Hepoch.
      rewrite votesAt_putMessageVote, decide_True by done.
      cbn. rewrite lookup_insert_eq. by eexists.
    + exists signature. split; [done |]. cbn. rewrite Hepoch.
      apply elem_of_app. right. apply list_elem_of_here.
Qed.

Lemma run_pendingVoted admitted initial s :
  run admitted initial s -> pendingVoted s.
Proof.
  induction 1 as [st maxSize _ | s s' _ IH Hstep]; [constructor |].
  destruct Hstep as [s st' Hwrite | s | s req _ | s commitment].
  - eapply Forall_impl; [exact IH |]. intros c.
    apply selfVoted_mono.
    + by eapply storeWrite_storeGrows.
    + exists []. by rewrite app_nil_r.
  - by apply pendingVoted_buildCommitment.
  - unfold pendingVoted. rewrite PostEpoch_locked_pending. constructor.
  - constructor.
Qed.






(** X4: in every state of a run each pending commitment has a digest, a
    vote under the id of this node is recorded in the store for that digest
    under the epoch of the commitment (the build wrote the vote of this
    node there; a vote gossiped under the same id may have replaced its
    signature since), and the message carrying the signature of this node
    over the digest has been handed to the gossip. *)
Theorem pending_self_voted (s : stateSyncManager) :
  reachable s ->
  Forall (fun c =>
            exists digest,
              Commitment_Hash c = Ok digest /\
              is_Some (votesAt (state s) (Epoch c) digest !! key_String) /\
              exists signature,
                key_Sign digest = Some signature /\
                voteMessage (Epoch c) digest signature ∈ published s)
         (pendingCommitments s).
Proof.
  intros Hreach. pose proof (run_pendingVoted _ _ _ Hreach) as Hvoted.
  eapply Forall_impl; [exact Hvoted |]. by intros c Hc.
Qed.




(** ** Acceptance and proofs *)



(** A [PostBlock] that returns no error went through every call of the
    store, and conversely. *)
Lemma PostBlock_None s transactions commitment :
  getCommitmentMessageSignedTx transactions = Ok (Some commitment) ->
  (PostBlock s transactions).2 = None <->
  exists tree,
    failing (state s) (call_insertCommitmentMessage commitment) = false /\
    getStateSyncEventsForCommitment (putCommitmentMessage (state s) commitment)
      (msgFromIndex (Message commitment)) (msgToIndex (Message commitment))
    = (scanStateSyncEvents (state s)
         (msgFromIndex (Message commitment))
         (msgToIndex (Message commitment)), None) /\
    createMerkleTree
      (scanStateSyncEvents (state s)
         (msgFromIndex (Message commitment))
         (msgToIndex (Message commitment))) = Some tree /\
    failing (state s)
      (call_insertStateSyncProofs
         (makeProofs tree
            (scanStateSyncEvents (state s)
               (msgFromIndex (Message commitment))
               (msgToIndex (Message commitment))))) = false /\
    PostBlock s transactions =
      (PostBlock_locked
         (set_state s
            (putStateSyncProofs (putCommitmentMessage (state s) commitment)
               (makeProofs tree
                  (scanStateSyncEvents (state s)
                     (msgFromIndex (Message commitment))
                     (msgToIndex (Message commitment))))))
         commitment, None).
Proof.
  intros Htx. unfold PostBlock. rewrite Htx.
  unfold insertCommitmentMessage.
  destruct (failing (state s) (call_insertCommitmentMessage commitment)).
  { split; [done | by intros (? & ? & _)]. }
  destruct (buildProofs _ _) as [st2 [e |]] eqn:Hbuild.
  - split; [done |]. intros (tree & _ & Hread & Htree & Hfail & _).
    assert (buildProofs (putCommitmentMessage (state s) commitment)
              (Message commitment) =
            (putStateSyncProofs (putCommitmentMessage (state s) commitment)
               (makeProofs tree
                  (scanStateSyncEvents (state s)
                     (msgFromIndex (Message commitment))
                     (msgToIndex (Message commitment)))), None)) as Hok.
    { apply buildProofs_Ok. eexists _, tree. split; [exact Hread |].
      split; [done |]. by apply insertStateSyncProofs_Ok. }
    congruence.
  - split; [| done]. intros _.
    apply buildProofs_Ok in Hbuild as (events & tree & Hread & Htree & Hinsert).
    pose proof Hread as Hread'.
    apply getStateSyncEventsForCommitment_None in Hread' as (_ & Hevents & _).
    rewrite (scanStateSyncEvents_ext (state s)) in Hevents by done.
    subst events.
    apply insertStateSyncProofs_Ok in Hinsert as [Hfail ->].
    by exists tree.
Qed.


(** X7: after a [PostBlock] that accepted a commitment without error, the
    proof of every event that the store holds in the accepted range is in
    the store: [GetStateSyncProof] for its id changes nothing and returns
    that proof, or the error of the read when the store fails the read. *)
Theorem proofs_served_after_PostBlock (s : stateSyncManager)
    (transactions : list Transaction) (accepted : CommitmentMessageSigned) :
  getCommitmentMessageSignedTx transactions = Ok (Some accepted) ->
  (PostBlock s transactions).2 = None ->
  let s' := (PostBlock s transactions).1 in
  forall id event,
    msgFromIndex (Message accepted) <= id <= msgToIndex (Message accepted) ->
    storedEvent (state s) id = Some event ->
    exists proof,
      stateSyncProofs (state s') !! id = Some proof /\
      StateSync proof = event /\
      (forall r,
         getStateSyncProof (state s') id = Ok r ->
         GetStateSyncProof s' id = (s', Ok (Some proof))) /\
      (forall e,
         getStateSyncProof (state s') id = Err e ->
         GetStateSyncProof s' id = (s', Err e)).
Proof.
  intros Htx Herr s' id event Hid Hevent.
  apply (PostBlock_None s transactions accepted Htx) in Herr
    as (tree & _ & _ & _ & _ & Hpost).
  destruct (makeProofs_persisted (putCommitmentMessage (state s) accepted)
              (msgFromIndex (Message accepted))
              (msgToIndex (Message accepted)) tree) as [Hin _].
  specialize (Hin id Hid).
  change (storedEvent (putCommitmentMessage (state s) accepted) id)
    with (storedEvent (state s) id) in Hin.
  rewrite Hevent in Hin. destruct Hin as (i & _ & Hproof).
  assert (stateSyncProofs (state s') !! id =
          Some {| Proof_path := GenerateProof tree (Z.of_nat i) 0;
                  StateSync := event |}) as Hstored.
  { unfold s'. rewrite Hpost. exact Hproof. }
  eexists. split; [exact Hstored |]. split; [done |]. split.
  - intros r Hr. unfold GetStateSyncProof. rewrite Hr.
    apply getStateSyncProof_Ok in Hr as [_ ->]. by rewrite Hstored.
  - intros e Hr. unfold GetStateSyncProof. by rewrite Hr.
Qed.

(** The proof stored for a key after a batch: the last proof of the batch
    with that key, or what was there before. *)
Lemma putStateSyncProofs_last st proofs id :
  stateSyncProofs (putStateSyncProofs st proofs) !! id =
  match last (filter (fun p => ID (StateSync p) = id) proofs) with
  | Some p => Some p
  | None => stateSyncProofs st !! id
  end.
Proof.
  induction proofs as [| p proofs IH] using rev_ind; [done |].
  rewrite putStateSyncProofs_snoc, filter_app, lookup_insert.
  rewrite filter_cons, filter_nil. case_decide as Hkey.
  - by rewrite last_snoc.
  - by rewrite app_nil_r.
Qed.

Lemma putStateSyncProofs_twice st proofs :
  putStateSyncProofs (putStateSyncProofs st proofs) proofs =
  putStateSyncProofs st proofs.
Proof.
  assert (stateSyncProofs
            (putStateSyncProofs (putStateSyncProofs st proofs) proofs) =
          stateSyncProofs (putStateSyncProofs st proofs)) as Heq.
  { apply map_eq. intros id.
    rewrite (putStateSyncProofs_last (putStateSyncProofs st proofs)).
    pose proof (putStateSyncProofs_last st proofs id) as Honce.
    destruct (last _); [by rewrite Honce | done]. }
  unfold putStateSyncProofs in *.
  cbn [stateSyncEvents messageVotes commitmentMessages stateSyncProofs
       failing] in *.
  f_equal. exact Heq.
Qed.

(** A rebuild over the store that a rebuild left returns that store. *)
Lemma buildProofs_twice st msg st' :
  buildProofs st msg = (st', None) -> buildProofs st' msg = (st', None).
Proof.
  intros Hbuild.
  apply buildProofs_Ok in Hbuild as (events & tree & Hread & Htree & Hinsert).
  apply insertStateSyncProofs_Ok in Hinsert as [Hfail ->].
  apply buildProofs_Ok. exists events, tree. split; [| split; [done |]].
  - apply getStateSyncEventsForCommitment_None in Hread as (Hf & -> & Hlen).
    apply getStateSyncEventsForCommitment_None.
    split; [done |]. split; done.
  - apply insertStateSyncProofs_Ok. split; [done |].
    by rewrite putStateSyncProofs_twice.
Qed.

(** X8: asking again for the same proof changes nothing more: the second
    call of [GetStateSyncProof] with the same id returns what the first
    returned and leaves the manager as the first left it (found, rebuilt,
    or failed alike). *)
Theorem GetStateSyncProof_again (s : stateSyncManager) (stateSyncID : Z) :
  GetStateSyncProof (GetStateSyncProof s stateSyncID).1 stateSyncID =
  GetStateSyncProof s stateSyncID.
Proof.
  unfold GetStateSyncProof at 2 3.
  destruct (getStateSyncProof (state s) stateSyncID) as [[proof |] | e]
    eqn:Hproof.
  - cbn [fst]. unfold GetStateSyncProof. by rewrite Hproof.
  - destruct (getCommitmentForStateSync (state s) stateSyncID)
      as [commitment | e] eqn:Hfound.
    + destruct (buildProofs (state s) (Message commitment)) as [st' [e |]]
        eqn:Hbuild.
      * apply buildProofs_Err in Hbuild as Hst. subst st'.
        cbn [fst]. rewrite set_state_id. unfold GetStateSyncProof.
        rewrite Hproof, Hfound, Hbuild. by rewrite set_state_id.
      * cbn [fst]. unfold GetStateSyncProof at 1. cbn [state set_state].
        pose proof (buildProofs_twice _ _ _ Hbuild) as Hagain.
        apply buildProofs_Ok in Hbuild as (events & tree & _ & _ & Hinsert).
        apply insertStateSyncProofs_Ok in Hinsert as [_ Hst'].
        assert (getCommitmentForStateSync st' stateSyncID = Ok commitment)
          as Hfound' by (by rewrite Hst').
        destruct (getStateSyncProof st' stateSyncID) as [[proof |] | e]
          eqn:Hnew; [done | | done].
        rewrite Hfound', Hagain. by rewrite Hnew.
    + cbn [fst]. unfold GetStateSyncProof. by rewrite Hproof, Hfound.
  - cbn [fst]. unfold GetStateSyncProof. by rewrite Hproof.
Qed.

(** ** Epoch change *)

(** X9: the section of [PostEpoch] under the lock installs the new epoch
    number and validator set and empties the pending list before it reads
    the system state, and leaves the store as it is.  When that read fails
    the call returns the error with the epoch half installed: new epoch and
    validator set, old [nextCommittedIndex], no pending commitment.  When
    it succeeds the read index is installed and the lock is released
    before the build takes it again; in a call during which no other
    goroutine runs between the two sections the build starts from the
    empty list, so at most one commitment, of the new epoch, is pending
    when the call returns. *)
Theorem PostEpoch_installs (s : stateSyncManager) (req : PostEpochRequest) :
  let s1 := (PostEpoch_locked s req).1 in
  let s' := (PostEpoch s req).1 in
  epoch s1 = NewEpochID req /\
  validatorSet s1 = req_ValidatorSet req /\
  pendingCommitments s1 = [] /\
  state s1 = state s /\
  epoch s' = NewEpochID req /\
  validatorSet s' = req_ValidatorSet req /\
  (forall e,
     GetNextCommittedIndex req = Err e ->
     (PostEpoch_locked s req).2 = Some e /\
     nextCommittedIndex s1 = nextCommittedIndex s /\
     PostEpoch s req = (s1, Some e)) /\
  (forall n,
     GetNextCommittedIndex req = Ok n ->
     (PostEpoch_locked s req).2 = None /\
     nextCommittedIndex s1 = n /\
     PostEpoch s req = buildCommitment s1 /\
     nextCommittedIndex s' = n /\
     (pendingCommitments s' = [] \/
      exists c, pendingCommitments s' = [c] /\ Epoch c = NewEpochID req)).
Proof.
  cbn zeta. unfold PostEpoch, PostEpoch_locked.
  destruct (GetNextCommittedIndex req) as [n | e];
    cbn [fst snd state maxCommitmentSize pendingCommitments validatorSet epoch
         nextCommittedIndex published].
  - match goal with
    | |- context [buildCommitment ?m] =>
        destruct (buildCommitment_fields m) as (-> & -> & -> & _);
        destruct (buildCommitment_pending m) as [Hsame | (c & Hc & Happ)]
    end.
    + do 6 (split; [done |]). split; [done |].
      intros ? [= <-]. do 4 (split; [done |]). left. by rewrite Hsame.
    + do 6 (split; [done |]). split; [done |].
      intros ? [= <-]. do 4 (split; [done |]). right. exists c.
      by rewrite Happ.
  - do 6 (split; [done |]). split; [| done]. by intros ? [= <-].
Qed.

(** ** The vote loop of the aggregation *)

Lemma collectVotes_Ok index metadata votes acc acc' :
  collectVotes index metadata votes acc = Some (Ok acc') ->
  0 <= agg_bitmap acc ->
  0 <= agg_bitmap acc' /\
  (forall i : nat,
     Z.testbit (agg_bitmap acc') (Z.of_nat i) = true <->
     Z.testbit (agg_bitmap acc) (Z.of_nat i) = true \/
     exists vote, vote ∈ votes /\ index !! From vote = Some i) /\
  agg_publicKeys acc' =
    agg_publicKeys acc ++ omap (countedKey index metadata) votes /\
  length (agg_signatures acc') =
    (length (agg_signatures acc) +
     length (filter (fun vote => is_Some (index !! From vote)) votes))%nat.
Proof.
  revert acc. induction votes as [| vote rest IH]; intros acc; cbn [collectVotes].
  - intros [= <-] Hpos. split; [done |]. split.
    + intros i. split; [by left |].
      intros [Hbit | (vote & Hin & _)]; [done | by apply elem_of_nil in Hin].
    + cbn. rewrite app_nil_r. split; [done | lia].
  - rewrite filter_cons.
    destruct (index !! From vote) as [i |] eqn:Hindex.
    + destruct (UnmarshalSignature (Signature_bytes vote)) as [sig |]; [| done].
      destruct (metadata !! i) as [v |] eqn:Hv; [| done].
      assert (omap (countedKey index metadata) (vote :: rest) =
              BlsKeyMarshal (BlsKey v) :: omap (countedKey index metadata) rest)
        as -> by (cbn; unfold countedKey at 1; by rewrite Hindex, Hv).
      intros Hrest Hpos.
      assert (0 <= Z.setbit (agg_bitmap acc) (Z.of_nat i)) as Hpos'.
      { rewrite Z.setbit_spec'. apply Z.lor_nonneg. split; [done |].
        apply Z.pow_nonneg. lia. }
      destruct (IH _ Hrest Hpos') as (Hnonneg & Hbits & Hkeys & Hlen).
      cbn [agg_bitmap agg_publicKeys agg_signatures] in *.
      split; [done |]. split; [| split].
      * intros k. rewrite Hbits, Z.setbit_iff by lia. split.
        -- intros [[Heq | Hold] | (vote' & Hin & Hvote')].
           ++ right. exists vote. split; [apply list_elem_of_here |].
              rewrite Hindex. f_equal. lia.
           ++ by left.
           ++ right. exists vote'. split; [by apply list_elem_of_further | done].
        -- intros [Hold | (vote' & Hin & Hvote')]; [by left; right |].
           apply elem_of_cons in Hin as [-> | Hin].
           ++ left; left. rewrite Hindex in Hvote'. injection Hvote' as ->. done.
           ++ right. eauto.
      * rewrite Hkeys, <- app_assoc. done.
      * rewrite decide_True by eauto. rewrite Hlen, length_app. cbn. lia.
    + assert (omap (countedKey index metadata) (vote :: rest) =
              omap (countedKey index metadata) rest)
        as -> by (cbn; unfold countedKey at 1; by rewrite Hindex).
      intros Hrest Hpos.
      destruct (IH _ Hrest Hpos) as (Hnonneg & Hbits & Hkeys & Hlen).
      split; [done |]. split; [| split].
      * intros k. rewrite Hbits. split.
        -- intros [Hold | (vote' & Hin & Hvote')]; [by left |].
           right. exists vote'. split; [by apply list_elem_of_further | done].
        -- intros [Hold | (vote' & Hin & Hvote')]; [by left |].
           apply elem_of_cons in Hin as [-> | Hin]; [congruence |].
           right. eauto.
      * done.
      * rewrite decide_False; [done |]. by intros [? ?].
Qed.

Lemma collectVotes_filter index metadata votes acc :
  collectVotes index metadata
    (filter (fun vote => is_Some (index !! From vote)) votes) acc =
  collectVotes index metadata votes acc.
Proof.
  revert acc. induction votes as [| vote rest IH]; intros acc; [done |].
  rewrite filter_cons. cbn [collectVotes].
  destruct (index !! From vote) as [i |] eqn:Hindex.
  - rewrite decide_True by eauto. cbn [collectVotes]. rewrite Hindex.
    destruct (UnmarshalSignature _); [| done].
    destruct (metadata !! i); [| done]. apply IH.
  - rewrite decide_False; [apply IH |]. by intros [? ?].
Qed.

(** The loop succeeds exactly when the signature of every vote it counts
    decodes (its index map pointing into the accounts). *)
Lemma collectVotes_decoded index metadata votes acc acc' :
  collectVotes index metadata votes acc = Some (Ok acc') ->
  Forall (fun vote =>
            is_Some (index !! From vote) ->
            is_Some (UnmarshalSignature (Signature_bytes vote))) votes.
Proof.
  revert acc. induction votes as [| vote rest IH]; intros acc; cbn [collectVotes];
    [constructor |].
  destruct (index !! From vote) as [i |] eqn:Hindex.
  - destruct (UnmarshalSignature (Signature_bytes vote)) as [sig |] eqn:Hsig;
      [| done].
    destruct (metadata !! i); [| done].
    intros Hrest. apply Forall_cons_2; [| by eapply IH].
    intros _. rewrite Hsig. by eexists.
  - intros Hrest. apply Forall_cons_2; [| by eapply IH].
    rewrite Hindex. by intros [? ?].
Qed.

Lemma elem_of_quorumSigners index votes a :
  a ∈ quorumSigners index votes <->
  exists vote, vote ∈ votes /\ is_Some (index !! From vote) /\
               a = StringToAddress (From vote).
Proof.
  unfold quorumSigners. rewrite elem_of_list_to_set, list_elem_of_fmap. split.
  - intros (sender & -> & Hin). apply list_elem_of_filter in Hin as [Hidx Hin].
    apply list_elem_of_fmap in Hin as (vote & -> & Hin). eauto.
  - intros (vote & Hin & Hidx & ->). exists (From vote). split; [done |].
    apply list_elem_of_filter. split; [done |].
    apply list_elem_of_fmap. eauto.
Qed.

(** When the aggregation reports the missing quorum. *)
Lemma lacksQuorum_iff s c :
  lacksQuorum s c <->
  exists vs digest,
    validatorSet s = Some vs /\ Commitment_Hash c = Ok digest /\
    failing (state s) (call_getMessageVotes (Epoch c) digest) = false /\
    Forall (fun vote =>
              is_Some (indexValidators 0 (Accounts vs) ∅ !! From vote) ->
              is_Some (UnmarshalSignature (Signature_bytes vote)))
           (recordedVotes (state s) (Epoch c) digest) /\
    HasQuorum vs
      (quorumSigners (indexValidators 0 (Accounts vs) ∅)
         (recordedVotes (state s) (Epoch c) digest)) = false.
Proof.
  unfold lacksQuorum, getAggSignatureForCommitmentMessage.
  destruct (validatorSet s) as [vs |]; [| split; [done | by intros (? & ? & ? & _)]].
  unfold Commitment_Hash.
  destruct (CommitmentMessage_Hash _) as [digest |]; cbn [of_option];
    [| split; [done | by intros (? & ? & _ & ? & _)]].
  unfold getMessageVotes.
  destruct (failing (state s) (call_getMessageVotes (Epoch c) digest)) eqn:Hfail.
  { split; [done |]. intros (vs' & digest' & _ & [= <-] & Hf & _). congruence. }
  destruct (collectVotes _ _ _ _) as [[acc | e] |] eqn:Hvotes.
  - pose proof (collectVotes_decoded _ _ _ _ _ Hvotes) as Hall.
    apply collectVotes_signers in Hvotes.
    assert (agg_signers acc =
            quorumSigners (indexValidators 0 (Accounts vs) ∅)
              (recordedVotes (state s) (Epoch c) digest)) as Hsigners.
    { rewrite Hvotes. cbn. set_solver. }
    rewrite Hsigners. split.
    + intros Hres. exists vs, digest. split; [done |]. split; [done |].
      split; [done |]. split; [done |].
      destruct (HasQuorum vs _); [| done].
      cbn in Hres. by destruct (AggregateMarshal _).
    + intros (vs' & digest' & [= <-] & [= <-] & _ & _ & ->). done.
  - apply collectVotes_error in Hvotes as (-> & vote & Hin & Hidx & Hbad).
    split; [done |].
    intros (vs' & digest' & [= <-] & [= <-] & _ & Hall & _).
    rewrite Forall_forall in Hall. destruct (Hall vote Hin Hidx) as [sig Hsig].
    congruence.
  - split; [done |]. intros _.
    destruct (collectVotes_returns (indexValidators 0 (Accounts vs) ∅)
                (Accounts vs) (recordedVotes (state s) (Epoch c) digest)
                aggregation_empty
                (validatorAddrToIndex_in_range (Accounts vs))) as [r Hr].
    congruence.
Qed.

Lemma counted_votes_agree index votes votes' :
  (forall vote, is_Some (index !! From vote) -> vote ∈ votes' <-> vote ∈ votes) ->
  quorumSigners index votes' = quorumSigners index votes /\
  (Forall (fun vote =>
             is_Some (index !! From vote) ->
             is_Some (UnmarshalSignature (Signature_bytes vote))) votes' <->
   Forall (fun vote =>
             is_Some (index !! From vote) ->
             is_Some (UnmarshalSignature (Signature_bytes vote))) votes).
Proof.
  intros Hagree. split.
  - apply set_eq. intros a. rewrite !elem_of_quorumSigners.
    split; intros (vote & Hin & Hidx & ->); exists vote;
      (split; [by apply (Hagree vote Hidx) | done]).
  - rewrite !Forall_forall. split; intros Hall vote Hin Hidx;
      apply Hall; [by apply (Hagree vote Hidx) | done | by apply (Hagree vote Hidx) | done].
Qed.

Lemma saveVote_votes s msg epoch' digest' vote :
  From vote <> NodeID msg ->
  vote ∈ recordedVotes (state (saveVote s msg).1) epoch' digest' <->
  vote ∈ recordedVotes (state s) epoch' digest'.
Proof.
  intros Hother. unfold saveVote.
  destruct (validatorSet s); [| done].
  destruct (_ <? _); [done |]. destruct (negb _); [done |].
  destruct (insertMessageVote _ _ _ _) as [[st n] | e] eqn:Hinsert; [| done].
  apply insertMessageVote_Ok in Hinsert as (_ & -> & _).
  cbn [fst state set_state]. rewrite !elem_of_recordedVotes.
  rewrite votesAt_putMessageVote. case_decide as Hkey; [| done].
  injection Hkey as <- <-. cbn. by rewrite lookup_insert_ne.
Qed.

Lemma saveVote_failing s msg :
  failing (state (saveVote s msg).1) = failing (state s).
Proof.
  unfold saveVote.
  destruct (validatorSet s); [| done].
  destruct (_ <? _); [done |]. destruct (negb _); [done |].
  destruct (insertMessageVote _ _ _ _) as [[st n] | e] eqn:Hinsert; [| done].
  by apply insertMessageVote_Ok in Hinsert as (_ & -> & _).
Qed.

(** X10: the aggregation panics exactly when no validator set is
    installed; the lookup of a validator by the index found for a vote
    never leaves the accounts of the validator set.  Every error it returns
    has one of five causes: no digest, the store failing the read of the
    votes, a counted vote whose signature does not decode, the missing
    quorum, or the aggregate that does not encode. *)
Theorem aggregation_errors (s : stateSyncManager) (c : Commitment) :
  (getAggSignatureForCommitmentMessage s c = None <-> validatorSet s = None) /\
  (forall vs name i,
     validatorSet s = Some vs ->
     indexValidators 0 (Accounts vs) ∅ !! name = Some i ->
     is_Some (Accounts vs !! i)) /\
  forall e,
    getAggSignatureForCommitmentMessage s c = Some (Err e) ->
    (e = errHash /\ CommitmentMessage_Hash (messageOf c) = None) \/
    (e = errIo /\
     exists digest,
       Commitment_Hash c = Ok digest /\
       getMessageVotes (state s) (Epoch c) digest = Err errIo) \/
    (e = errUnmarshalSignature /\
     exists vs digest vote,
       validatorSet s = Some vs /\ Commitment_Hash c = Ok digest /\
       vote ∈ recordedVotes (state s) (Epoch c) digest /\
       is_Some (indexValidators 0 (Accounts vs) ∅ !! From vote) /\
       UnmarshalSignature (Signature_bytes vote) = None) \/
    (e = errQuorumNotReached /\ hasQuorum s c = false) \/
    (e = errAggregate /\ hasQuorum s c = true).
Proof.
  split; [apply getAggSignature_panics |]. split.
  { intros vs name i _. apply validatorAddrToIndex_in_range. }
  intros e Hagg.
  destruct (decide (e = errQuorumNotReached)) as [-> | Hother].
  { right; right; right; left. split; [done |].
    by apply getAggSignature_quorumNotReached. }
  revert Hagg. unfold getAggSignatureForCommitmentMessage, hasQuorum.
  destruct (validatorSet s) as [vs |]; [| done].
  unfold Commitment_Hash, messageOf.
  destruct (CommitmentMessage_Hash _) as [digest |]; cbn [of_option];
    [| intros [= <-]; by left].
  unfold getMessageVotes.
  destruct (failing (state s) (call_getMessageVotes (Epoch c) digest))
    eqn:Hfail.
  { intros [= <-]. right; left. split; [done |]. exists digest.
    by rewrite Hfail. }
  destruct (collectVotes _ _ _ _) as [[acc | e'] |] eqn:Hvotes; [| | done].
  - apply collectVotes_signers in Hvotes.
    assert (agg_signers acc =
            quorumSigners (indexValidators 0 (Accounts vs) ∅)
              (recordedVotes (state s) (Epoch c) digest)) as <-.
    { rewrite Hvotes. cbn. set_solver. }
    destruct (HasQuorum vs (agg_signers acc)); cbn; [| by intros [= <-]].
    destruct (AggregateMarshal _); [done |].
    intros [= <-]. by repeat right.
  - apply collectVotes_error in Hvotes as (-> & vote & Hin & Hidx & Hbad).
    intros [= <-].
    right; right; left. split; [done |]. exists vs, digest, vote. done.
Qed.

(** X11: in a successful aggregation bit [i] of the bitmap is set exactly
    when a recorded vote comes from the address string indexed [i]; every
    set bit is the index of an account of the validator set whose address
    string sent a vote; the public keys are those of the counted votes, in
    the order of the votes, one per counted vote. *)
Theorem aggregated_bitmap (s : stateSyncManager) (c : Commitment)
    (signature : AggSignatureT) (publicKeys : list bytes) :
  getAggSignatureForCommitmentMessage s c = Some (Ok (signature, publicKeys)) ->
  exists vs digest,
    validatorSet s = Some vs /\ Commitment_Hash c = Ok digest /\
    let index := indexValidators 0 (Accounts vs) ∅ in
    let votes := recordedVotes (state s) (Epoch c) digest in
    getMessageVotes (state s) (Epoch c) digest = Ok votes /\
    (forall i : nat,
       Z.testbit (Bitmap signature) (Z.of_nat i) = true <->
       exists vote, vote ∈ votes /\ index !! From vote = Some i) /\
    (forall i : nat,
       Z.testbit (Bitmap signature) (Z.of_nat i) = true ->
       exists v vote,
         Accounts vs !! i = Some v /\ vote ∈ votes /\
         From vote = AddressString (Address v)) /\
    publicKeys = omap (countedKey index (Accounts vs)) votes /\
    length publicKeys
      = length (filter (fun vote => is_Some (index !! From vote)) votes) /\
    HasQuorum vs (quorumSigners index votes) = true.
Proof.
  unfold getAggSignatureForCommitmentMessage.
  destruct (validatorSet s) as [vs |]; [| done].
  destruct (Commitment_Hash c) as [digest |]; [| done].
  destruct (getMessageVotes _ _ _) as [votes | e] eqn:Hread; [| done].
  pose proof Hread as Hread'.
  apply getMessageVotes_Ok in Hread' as [_ ->].
  destruct (collectVotes _ _ _ _) as [[acc | e] |] eqn:Hvotes; [| done | done].
  pose proof (collectVotes_signers _ _ _ _ _ Hvotes) as Hsigners.
  destruct (collectVotes_Ok _ _ _ _ _ Hvotes ltac:(done))
    as (_ & Hbits & Hkeys & Hlen).
  cbn [aggregation_empty agg_bitmap agg_publicKeys agg_signatures] in *.
  destruct (HasQuorum vs (agg_signers acc)) eqn:Hquorum; [| done]. cbn.
  destruct (AggregateMarshal _); [| done].
  intros [= <- <-]. exists vs, digest. split; [done |]. split; [done |].
  cbn zeta. cbn [Bitmap]. split; [done |].
  assert (forall i : nat,
            Z.testbit (agg_bitmap acc) (Z.of_nat i) = true <->
            exists vote,
              vote ∈ recordedVotes (state s) (Epoch c) digest /\
              indexValidators 0 (Accounts vs) ∅ !! From vote = Some i)
    as Hbits'.
  { intros i. rewrite Hbits, Z.testbit_0_l. split; [| by right].
    by intros [? | ?]. }
  split; [exact Hbits' |]. split; [| split; [| split]].
  - intros i Hbit. apply Hbits' in Hbit as (vote & Hin & Hidx).
    apply validatorAddrToIndex_sound in Hidx as (v & Hv & Hname). eauto.
  - by rewrite Hkeys.
  - rewrite Hkeys. cbn. clear.
    induction (recordedVotes _ _ _) as [| vote votes IH]; [done |].
    rewrite filter_cons. cbn [omap list_omap]. unfold countedKey at 1.
    destruct (indexValidators 0 (Accounts vs) ∅ !! From vote) as [i |] eqn:Hidx.
    + rewrite decide_True by eauto.
      apply validatorAddrToIndex_sound in Hidx as (v & -> & _). cbn.
      by rewrite IH.
    + rewrite decide_False; [done |]. by intros [? ?].
  - rewrite <- Hquorum. f_equal. rewrite Hsigners. cbn. set_solver.
Qed.

(** X12: the loop skips every vote whose sender string is not the address
    string of an account of the validator set.  Such a vote may be stored
    ([saveVote] checks the sender through [Includes] on the parsed address,
    the aggregation looks the string up), but it never counts: storing it
    changes neither whether a pending commitment has quorum nor whether its
    aggregation reports the missing quorum. *)
Theorem uncounted_vote_changes_nothing (s : stateSyncManager)
    (msg : TransportMessage) (c : Commitment) :
  (forall vs, validatorSet s = Some vs ->
     indexValidators 0 (Accounts vs) ∅ !! NodeID msg = None) ->
  let s' := (saveVote s msg).1 in
  (forall index metadata votes acc,
     collectVotes index metadata
       (filter (fun vote => is_Some (index !! From vote)) votes) acc =
     collectVotes index metadata votes acc) /\
  hasQuorum s' c = hasQuorum s c /\
  (lacksQuorum s' c <-> lacksQuorum s c).
Proof.
  intros Hunindexed s'. split; [apply collectVotes_filter |].
  destruct (saveVote_fields s msg) as (_ & Hvs & _). fold s' in Hvs.
  pose proof (saveVote_failing s msg) as Hfailing. fold s' in Hfailing.
  assert (forall vs digest,
            validatorSet s = Some vs ->
            forall vote,
              is_Some (indexValidators 0 (Accounts vs) ∅ !! From vote) ->
              vote ∈ recordedVotes (state s') (Epoch c) digest <->
              vote ∈ recordedVotes (state s) (Epoch c) digest) as Hagree.
  { intros vs digest Hset vote Hidx. apply saveVote_votes.
    intros Heq. rewrite Heq, (Hunindexed vs Hset) in Hidx. by destruct Hidx. }
  split.
  - unfold hasQuorum. rewrite Hvs.
    destruct (validatorSet s) as [vs |] eqn:Hset; [| done].
    destruct (Commitment_Hash c) as [digest |]; [| done].
    by destruct (counted_votes_agree _ _ _ (Hagree vs digest eq_refl)) as [-> _].
  - rewrite !lacksQuorum_iff. rewrite Hvs, Hfailing.
    split; intros (vs & digest & Hset & Hhash & Hfail & Hall & Hquorum);
      exists vs, digest;
      destruct (counted_votes_agree _ _ _ (Hagree vs digest Hset)) as [Heq Hiff];
      (split; [done |]; split; [done |]; split; [done |]; split;
       [by apply Hiff | by rewrite ?Heq in *]).
Qed.


(** ** Periods of the consensus runtime *)

Lemma wrap64_small x : is_u64 x -> wrap64 x = x.
Proof. intros Hx. unfold wrap64. apply Z.mod_small. exact Hx. Qed.

Lemma mod_facts a b :
  0 <= a -> 0 < b ->
  a = b * (a / b) + a mod b /\ 0 <= a mod b < b /\ 0 <= a / b.
Proof.
  intros Ha Hb. split; [apply Z.div_mod; lia |].
  split; [apply Z.mod_pos_bound; lia | apply Z.div_pos; lia].
Qed.

Lemma getEpochNumber_bounds (blockNumber epochSize : Z) :
  is_u64 blockNumber -> is_u64 epochSize -> 0 < epochSize ->
  exists e,
    getEpochNumber blockNumber epochSize = Some e /\
    is_u64 e /\
    (e - 1) * epochSize < blockNumber <= e * epochSize /\
    (isEndOfPeriod blockNumber epochSize = Some true <->
     blockNumber = e * epochSize) /\
    (forall e', (e' - 1) * epochSize < blockNumber <= e' * epochSize -> e' = e).
Proof.
  intros [Hb0 Hb1] [Hs0 Hs1] Hpos. unfold getEpochNumber, isEndOfPeriod.
  rewrite (proj2 (Z.eqb_neq _ _)) by lia.
  destruct (mod_facts blockNumber epochSize Hb0 Hpos) as (Hdiv & Hmod & Hq).
  assert (forall e', (e' - 1) * epochSize < blockNumber <= e' * epochSize ->
            forall e, (e - 1) * epochSize < blockNumber <= e * epochSize ->
            e' = e) as Hunique.
  { intros e1 H1 e2 H2. nia. }
  assert (blockNumber / epochSize < u64_modulus) as Hqlt.
  { unfold u64_modulus in *. apply Z.div_lt_upper_bound; nia. }
  destruct (blockNumber mod epochSize =? 0) eqn:Hend.
  - apply Z.eqb_eq in Hend.
    exists (blockNumber / epochSize).
    split; [done |]. split; [split; [done | done] |].
    split; [lia |]. split; [split; [lia | done] |].
    intros e' He'. apply (Hunique e' He'). lia.
  - apply Z.eqb_neq in Hend.
    assert (is_u64 (blockNumber / epochSize + 1)) as Hu.
    { unfold is_u64, u64_modulus in *. split; [lia |].
      assert (epochSize <> 1) by (intros ->; rewrite Z.mod_1_r in Hend; lia).
      assert (blockNumber / epochSize < 2 ^ 64 - 1); [| lia].
      apply Z.div_lt_upper_bound; lia. }
    rewrite wrap64_small by done.
    exists (blockNumber / epochSize + 1).
    split; [done |]. split; [done |].
    split; [nia |]. split; [split; [done | nia] |].
    intros e' He'. apply (Hunique e' He'). nia.
Qed.

(** X13: for a positive epoch size the epoch number [e] of a block [b] is
    the one whose blocks are [(e-1)*size + 1 .. e*size] (block 0 is the
    epoch 0), and a block ends its epoch exactly when it is [e*size].
    When [e*size] fits in 64 bits, the last block of epoch [e] maps back
    to [e] and ends an epoch; when it does not, [getEndEpochBlockNumber]
    wraps around and returns a block before [b].  With an epoch size of
    zero both functions panic. *)
Theorem epoch_of_block (blockNumber epochSize : Z) :
  is_u64 blockNumber -> is_u64 epochSize ->
  (epochSize = 0 ->
   getEpochNumber blockNumber epochSize = None /\
   isEndOfPeriod blockNumber epochSize = None) /\
  (0 < epochSize ->
   exists e,
     getEpochNumber blockNumber epochSize = Some e /\
     is_u64 e /\
     (e - 1) * epochSize < blockNumber <= e * epochSize /\
     (isEndOfPeriod blockNumber epochSize = Some true <->
      blockNumber = e * epochSize) /\
     (forall e', (e' - 1) * epochSize < blockNumber <= e' * epochSize -> e' = e) /\
     (is_u64 (e * epochSize) ->
      getEpochNumber (getEndEpochBlockNumber e epochSize) epochSize = Some e /\
      isEndOfPeriod (getEndEpochBlockNumber e epochSize) epochSize = Some true) /\
     (~ is_u64 (e * epochSize) ->
      getEndEpochBlockNumber e epochSize = e * epochSize - u64_modulus /\
      getEndEpochBlockNumber e epochSize < blockNumber)).
Proof.
  intros Hb Hs. split.
  - intros ->. done.
  - intros Hpos.
    destruct (getEpochNumber_bounds blockNumber epochSize Hb Hs Hpos)
      as (e & He & Hu & Hbounds & Hend & Hunique).
    exists e. do 5 (split; [done |]). split.
    + intros Hlast. unfold getEndEpochBlockNumber.
      rewrite wrap64_small by done.
      destruct (getEpochNumber_bounds (e * epochSize) epochSize Hlast Hs Hpos)
        as (e' & He' & _ & _ & Hend' & Hunique').
      assert (e = e') as <- by (apply Hunique'; lia).
      split; [done | by apply Hend'].
    + intros Hover. unfold getEndEpochBlockNumber, wrap64.
      unfold is_u64, u64_modulus in *.
      assert (2 ^ 64 <= e * epochSize < 2 * 2 ^ 64) as Hrange by lia.
      assert (e * epochSize mod 2 ^ 64 = e * epochSize - 2 ^ 64) as ->.
      { symmetry. apply (Z.mod_unique_pos _ _ 1); lia. }
      split; [done | lia].
Qed.


(** X14: for a positive period size and a block from 1 on,
    [calculateFirstBlockOfPeriod] returns the block after the end of the
    previous epoch: it is at most the block, less than a period below it,
    and in the same epoch.  For the block 0 it returns 1, a later block;
    with a period size of zero it returns 1 for the block 0 and panics for
    every other block. *)
Theorem first_block_of_period (currentBlockNumber periodSize : Z) :
  is_u64 currentBlockNumber -> is_u64 periodSize ->
  (periodSize = 0 ->
   calculateFirstBlockOfPeriod currentBlockNumber periodSize
   = if currentBlockNumber =? 0 then Some 1 else None) /\
  (0 < periodSize -> currentBlockNumber = 0 ->
   calculateFirstBlockOfPeriod currentBlockNumber periodSize = Some 1) /\
  (0 < periodSize -> 1 <= currentBlockNumber ->
   exists first e,
     calculateFirstBlockOfPeriod currentBlockNumber periodSize = Some first /\
     getEpochNumber currentBlockNumber periodSize = Some e /\
     first = getEndEpochBlockNumber (e - 1) periodSize + 1 /\
     first <= currentBlockNumber < first + periodSize /\
     getEpochNumber first periodSize = Some e).
Proof.
  intros Hb Hs. unfold calculateFirstBlockOfPeriod.
  split; [| split].
  - intros ->. destruct Hb as [Hb0 Hb1].
    destruct (Z.leb_spec currentBlockNumber 0) as [Hle | Hgt].
    + by replace currentBlockNumber with 0 by lia.
    + cbn. by rewrite (proj2 (Z.eqb_neq currentBlockNumber 0)) by lia.
  - intros Hpos ->. by rewrite (proj2 (Z.leb_le 0 periodSize)) by lia.
  - intros Hpos Hone.
    destruct (getEpochNumber_bounds currentBlockNumber periodSize Hb Hs Hpos)
      as (e & He & Heu & Hbounds & _ & Hsame).
    assert (1 <= e) as He1 by nia.
    assert (is_u64 ((e - 1) * periodSize)) as Hprev.
    { destruct Hb, Hs. unfold is_u64 in *. nia. }
    assert (calculateFirstBlockOfPeriod currentBlockNumber periodSize
            = Some ((e - 1) * periodSize + 1)) as Hfirst.
    { unfold calculateFirstBlockOfPeriod.
      destruct Hb as [Hb0 Hb1], Hs as [Hs0 Hs1].
      destruct (mod_facts currentBlockNumber periodSize Hb0 Hpos)
        as (Hdiv & Hmod & Hq).
      assert (currentBlockNumber mod periodSize = 0 ->
              e = currentBlockNumber / periodSize) as Hend.
      { intros Hr. symmetry. apply Hsame. nia. }
      assert (currentBlockNumber mod periodSize <> 0 ->
              e = currentBlockNumber / periodSize + 1) as Hinside.
      { intros Hr. symmetry. apply Hsame. nia. }
      revert Hdiv Hmod Hq Hend Hinside.
      generalize (currentBlockNumber mod periodSize) as r.
      generalize (currentBlockNumber / periodSize) as q.
      intros q r Hdiv Hmod Hq Hend Hinside.
      rewrite (proj2 (Z.eqb_neq periodSize 0)) by lia.
      destruct (Z.leb_spec currentBlockNumber periodSize) as [Hle | Hgt].
      - f_equal.
        assert (e <= 1) by (apply Z.lt_succ_r; nia).
        replace e with 1 by lia. lia.
      - destruct (Z.eqb_spec r 1) as [Hr1 | Hr1].
        + f_equal. rewrite Hinside by lia. nia.
        + destruct (Z.eqb_spec r 0) as [Hr0 | Hr0].
          * rewrite (wrap64_small (currentBlockNumber - periodSize))
              by (unfold is_u64 in *; lia).
            rewrite wrap64_small by (unfold is_u64 in *; lia).
            f_equal. rewrite Hend by lia. nia.
          * rewrite (wrap64_small (currentBlockNumber - _))
              by (unfold is_u64 in *; lia).
            rewrite wrap64_small by (unfold is_u64 in *; lia).
            f_equal. rewrite Hinside by lia. nia. }
    exists ((e - 1) * periodSize + 1), e.
    split; [exact Hfirst |]. split; [exact He |].
    split; [unfold getEndEpochBlockNumber; by rewrite wrap64_small |].
    split; [nia |].
    assert (is_u64 ((e - 1) * periodSize + 1)) as Hfu.
    { destruct Hb. unfold is_u64 in *. nia. }
    destruct (getEpochNumber_bounds _ periodSize Hfu Hs Hpos)
      as (e' & He' & _ & _ & _ & Hunique).
    rewrite He'. f_equal. symmetry. apply Hunique. nia.
Qed.


(** X15: for a positive sprint size [getLatestSprintBlockNumber] returns
    the last sprint-ending block at or before the last built block, which is
    the last built block itself exactly when that one ends a sprint; with a
    sprint size of zero it panics. *)
Theorem latest_sprint_block (config : PolyBFTConfig) (lastBuiltBlockNumber : Z) :
  is_u64 lastBuiltBlockNumber -> is_u64 (SprintSize config) ->
  (SprintSize config = 0 ->
   getLatestSprintBlockNumber config lastBuiltBlockNumber = None) /\
  (0 < SprintSize config ->
   exists sprintBlockNumber,
     getLatestSprintBlockNumber config lastBuiltBlockNumber
     = Some sprintBlockNumber /\
     isEndOfSprint config sprintBlockNumber = Some true /\
     sprintBlockNumber <= lastBuiltBlockNumber
       < sprintBlockNumber + SprintSize config /\
     (isEndOfSprint config lastBuiltBlockNumber = Some true <->
      sprintBlockNumber = lastBuiltBlockNumber) /\
     (forall b, sprintBlockNumber < b <= lastBuiltBlockNumber ->
                isEndOfSprint config b = Some false)).
Proof.
  intros [Hb0 Hb1] [Hs0 Hs1].
  unfold getLatestSprintBlockNumber, isEndOfSprint, isEndOfPeriod.
  split; [by intros -> |].
  intros Hpos. rewrite (proj2 (Z.eqb_neq (SprintSize config) 0)) by lia.
  destruct (mod_facts lastBuiltBlockNumber (SprintSize config) Hb0 Hpos)
    as (Hdiv & Hmod & Hq).
  assert (forall b,
            lastBuiltBlockNumber - lastBuiltBlockNumber mod SprintSize config
              < b <= lastBuiltBlockNumber ->
            (b mod SprintSize config =? 0) = false) as Hbetween.
  { intros b Hb. apply Z.eqb_neq. intros Hzero.
    assert (0 <= b) as Hbpos by lia.
    destruct (mod_facts b (SprintSize config) Hbpos Hpos) as (Hdivb & _ & _).
    rewrite Hzero in Hdivb. revert Hdiv Hmod Hdivb Hb.
    generalize (lastBuiltBlockNumber mod SprintSize config) as r.
    generalize (lastBuiltBlockNumber / SprintSize config) as q.
    generalize (b / SprintSize config) as q'.
    intros q' q r Hdiv Hmod Hdivb Hb.
    assert (q < q') by nia. assert (q' < q + 1) by nia. lia. }
  destruct (Z.eqb_spec (lastBuiltBlockNumber mod SprintSize config) 0)
    as [Hr | Hr].
  - exists lastBuiltBlockNumber.
    split; [done |]. split; [by rewrite (proj2 (Z.eqb_eq _ _) Hr) |].
    split; [lia |]. split; [done |].
    intros b Hb. lia.
  - exists (wrap64 (lastBuiltBlockNumber
                    - lastBuiltBlockNumber mod SprintSize config)).
    rewrite wrap64_small by (unfold is_u64; lia).
    split; [done |].
    split.
    { f_equal. apply Z.eqb_eq.
      replace (lastBuiltBlockNumber
               - lastBuiltBlockNumber mod SprintSize config)
        with (lastBuiltBlockNumber / SprintSize config * SprintSize config)
        by lia.
      apply Z.mod_mul. lia. }
    split; [lia |].
    split.
    { split; [intros Hzero; discriminate Hzero | lia]. }
    intros b Hb. by rewrite Hbetween.
Qed.

(** ** The aggregation of the consensus runtime *)

Lemma runtime_collectVotes_Ok nodeIDIndexMap votes signatures bitmap
    signatures' bitmap' :
  runtime_collectVotes nodeIDIndexMap votes signatures bitmap
    = Ok (signatures', bitmap') ->
  0 <= bitmap ->
  0 <= bitmap' /\
  (forall i : nat,
     Z.testbit bitmap' (Z.of_nat i) = true <->
     Z.testbit bitmap (Z.of_nat i) = true \/
     i ∈ omap (fun vote => nodeIDIndexMap !! From vote) votes) /\
  length signatures' =
    (length signatures
     + length (omap (fun vote => nodeIDIndexMap !! From vote) votes))%nat.
Proof.
  revert signatures bitmap.
  induction votes as [| vote rest IH]; intros signatures bitmap;
    cbn [runtime_collectVotes omap list_omap].
  - intros [= <- <-] Hpos. split; [done |]. split; [| cbn; lia].
    intros i. split; [by left |]. intros [Hbit | Hin]; [done |].
    by apply elem_of_nil in Hin.
  - destruct (nodeIDIndexMap !! From vote) as [index |] eqn:Hindex;
      [| by apply IH].
    destruct (UnmarshalSignature (Signature_bytes vote)) as [signature |];
      [| done].
    intros Hrest Hpos.
    assert (0 <= Z.setbit bitmap (Z.of_nat index)) as Hpos'.
    { rewrite Z.setbit_spec'. apply Z.lor_nonneg. split; [done |].
      apply Z.pow_nonneg. lia. }
    destruct (IH _ _ Hrest Hpos') as (Hpos'' & Hbits & Hlen).
    split; [done |]. split.
    + intros i. rewrite Hbits, elem_of_cons.
      rewrite Z.setbit_eqb by lia.
      destruct (Z.eqb_spec (Z.of_nat index) (Z.of_nat i)) as [Heq | Hne].
      * apply Nat2Z.inj in Heq as ->. cbn. tauto.
      * cbn. split.
        -- intros [Hbit | Hin]; [by left | by right; right].
        -- intros [Hbit | [-> | Hin]]; [by left | done | by right].
    + rewrite Hlen, length_app. cbn. lia.
Qed.

Lemma omap_fmap_compose {A B C} (f : B -> option C) (g : A -> B) (l : list A) :
  omap f (g <$> l) = omap (fun a => f (g a)) l.
Proof.
  induction l as [| a l IH]; [done |].
  cbn. rewrite IH. done.
Qed.

Lemma NoDup_senders st epoch digest :
  NoDup (From <$> recordedVotes st epoch digest).
Proof.
  unfold recordedVotes. rewrite <- list_fmap_compose.
  apply (NoDup_fst_map_to_list (votesAt st epoch digest)).
Qed.

Lemma NoDup_counted_indices (validators : list ValidatorMetadata)
    (votes : list MessageSignature) :
  NoDup (From <$> votes) ->
  NoDup (omap (fun vote => indexValidators 0 validators ∅ !! From vote) votes).
Proof.
  intros Hnodup.
  rewrite <- (omap_fmap_compose
                (fun name => indexValidators 0 validators ∅ !! name) From).
  apply (NoDup_fmap_1
           (fun i : nat =>
              match validators !! i with
              | Some v => AddressString (Address v)
              | None => EmptyString
              end)).
  apply NoDup_omap_keyed; [| done].
  intros name i Hlook.
  apply validatorAddrToIndex_sound in Hlook as (v & -> & Hname). done.
Qed.

(** X16: an aggregated signature of the consensus runtime stands for at
    least [getQuorumSize N] distinct validators of the epoch: the set bits of
    its bitmap are the indices of that many different accounts, each with a
    vote recorded for the digest under the epoch. *)
Theorem runtime_aggregate_signers (st : State) (epoch : epochMetadata)
    (commitmentHash : bytes) (aggregate : AggSignatureT) :
  runtime_getAggSignatureForCommitmentMessage st epoch commitmentHash
    = Ok aggregate ->
  exists signers : list nat,
    NoDup signers /\
    getQuorumSize (Z.of_nat (length (Validators epoch)))
      <= Z.of_nat (length signers) /\
    (forall i : nat,
       Z.testbit (Bitmap aggregate) (Z.of_nat i) = true <-> i ∈ signers) /\
    (forall i, i ∈ signers ->
       exists v,
         Validators epoch !! i = Some v /\
         is_Some (votesAt st (Number epoch) commitmentHash
                    !! AddressString (Address v))).
Proof.
  unfold runtime_getAggSignatureForCommitmentMessage.
  set (index := indexValidators 0 (Validators epoch) ∅).
  destruct (getMessageVotes st (Number epoch) commitmentHash) as [votes | e]
    eqn:Hread; [| done].
  apply getMessageVotes_Ok in Hread as [_ ->].
  set (votes := recordedVotes st (Number epoch) commitmentHash).
  destruct (runtime_collectVotes index votes [] 0)
    as [[signatures bitmap] | e] eqn:Hvotes; [| done].
  destruct (Z.ltb_spec (Z.of_nat (length signatures))
              (getQuorumSize (Z.of_nat (length (Validators epoch)))))
    as [Hlt | Hge]; [done |].
  destruct (AggregateMarshal signatures) as [aggregated |]; [| done].
  intros [= <-]. cbn [Bitmap].
  destruct (runtime_collectVotes_Ok _ _ _ _ _ _ Hvotes ltac:(done))
    as (_ & Hbits & Hlen).
  exists (omap (fun vote => index !! From vote) votes).
  split; [apply NoDup_counted_indices, NoDup_senders |].
  split; [cbn in Hlen; lia |].
  split.
  - intros i. rewrite Hbits. rewrite Z.bits_0. split; [| by right].
    by intros [Hbit | Hin].
  - intros i Hin. apply list_elem_of_omap in Hin as (vote & Hin & Hlook).
    apply validatorAddrToIndex_sound in Hlook as (v & Hv & Hname).
    exists v. split; [done |]. rewrite Hname.
    apply elem_of_recordedVotes in Hin. by eexists.
Qed.

(** ** The runtime's delivery of votes and its count of uptime *)

Lemma calculateFirstBlockOfPeriod_lt currentBlockNumber periodSize :
  is_u64 currentBlockNumber -> is_u64 periodSize ->
  2 <= periodSize -> 2 <= currentBlockNumber ->
  currentBlockNumber mod periodSize <> 1 ->
  exists first,
    calculateFirstBlockOfPeriod currentBlockNumber periodSize = Some first /\
    1 <= first < currentBlockNumber.
Proof.
  intros [Hb0 Hb1] [Hs0 Hs1] Hsize Hblock Hmod.
  unfold calculateFirstBlockOfPeriod.
  destruct (mod_facts currentBlockNumber periodSize Hb0 ltac:(lia))
    as (Hdiv & Hr & Hq).
  revert Hdiv Hr Hmod.
  generalize (currentBlockNumber mod periodSize) as r.
  generalize (currentBlockNumber / periodSize) as q.
  intros q r Hdiv Hr Hmod.
  destruct (Z.leb_spec currentBlockNumber periodSize) as [Hle | Hgt].
  - exists 1. split; [done | lia].
  - rewrite (proj2 (Z.eqb_neq periodSize 0)) by lia.
    rewrite (proj2 (Z.eqb_neq r 1)) by done.
    destruct (Z.eqb_spec r 0) as [Hr0 | Hr0].
    + rewrite (wrap64_small (currentBlockNumber - periodSize))
        by (unfold is_u64; lia).
      rewrite wrap64_small by (unfold is_u64; lia).
      eexists. split; [done | lia].
    + rewrite (wrap64_small (currentBlockNumber - r))
        by (unfold is_u64; lia).
      rewrite wrap64_small by (unfold is_u64; lia).
      eexists. split; [done | lia].
Qed.

Lemma calculateFirstBlockOfPeriod_eq currentBlockNumber periodSize :
  is_u64 currentBlockNumber -> is_u64 periodSize ->
  2 <= periodSize ->
  currentBlockNumber mod periodSize = 1 ->
  calculateFirstBlockOfPeriod currentBlockNumber periodSize
  = Some currentBlockNumber.
Proof.
  intros [Hb0 Hb1] [Hs0 Hs1] Hsize Hmod.
  unfold calculateFirstBlockOfPeriod.
  destruct (Z.leb_spec currentBlockNumber periodSize) as [Hle | Hgt].
  - f_equal.
    destruct (Z.eq_dec currentBlockNumber periodSize) as [-> | Hne].
    + rewrite Z.mod_same in Hmod by lia. lia.
    + rewrite Z.mod_small in Hmod by lia. lia.
  - rewrite (proj2 (Z.eqb_neq periodSize 0)) by lia.
    by rewrite Hmod.
Qed.

Section RuntimeProofs.
Context `{RuntimeCollaborators}.

Lemma uptimeLoop_stuck fuel blockHeader validators firstBlockInEpoch
    uptimeCounter :
  firstBlockInEpoch < types.Number blockHeader ->
  (forall counter,
     uptimeLoop fuel blockHeader validators firstBlockInEpoch uptimeCounter
     <> Returned (Done counter)) /\
  (forall bitmap signers,
     parentBitmap (types.ExtraData blockHeader) = Some bitmap ->
     GetFilteredValidators validators bitmap = Some signers ->
     uptimeLoop fuel blockHeader validators firstBlockInEpoch uptimeCounter
     = OutOfFuel).
Proof.
  intros Hbelow. revert uptimeCounter.
  induction fuel as [| fuel IH]; intros uptimeCounter; cbn [uptimeLoop].
  - by split.
  - rewrite (proj2 (Z.ltb_lt _ _) Hbelow).
    unfold calculateUptimeForBlock.
    destruct (parentBitmap (types.ExtraData blockHeader)) as [bitmap |];
      [| by split].
    destruct (GetFilteredValidators validators bitmap) as [signers |]
      eqn:Hsigners.
    + split; [apply IH |].
      intros bitmap' signers' [= <-] _.
      by eapply (proj2 (IH _)).
    + split; [done |].
      intros bitmap' signers' [= <-] Hsigners'. congruence.
Qed.

(** X17: for a block from 2 on that is not the first of its epoch,
    [calculateUptime] never returns a counter: its first loop does not
    advance the header it tests, so when the signers of the block can be
    read it runs forever (any amount of fuel runs out), and otherwise it
    returns the error of that read. *)
Theorem calculateUptime_never_counts (fuel : nat) (config : PolyBFTConfig)
    (epoch : epochMetadata) (currentBlock : types.Header) :
  is_u64 (types.Number currentBlock) -> is_u64 (EpochSize config) ->
  2 <= types.Number currentBlock ->
  types.Number currentBlock mod EpochSize config <> 1 ->
  (forall counter,
     calculateUptime fuel config epoch currentBlock
     <> Returned (Done counter)) /\
  (3 <= EpochSize config ->
   forall bitmap signers,
     parentBitmap (types.ExtraData currentBlock) = Some bitmap ->
     GetFilteredValidators (Validators epoch) bitmap = Some signers ->
     calculateUptime fuel config epoch currentBlock = OutOfFuel).
Proof.
  intros Hb Hs Hblock Hmod. unfold calculateUptime, uptimeLookbackSize.
  destruct (Z.ltb_spec (EpochSize config) (2 + 1)) as [Hsmall | Hlarge].
  { split; [done | lia]. }
  destruct (calculateFirstBlockOfPeriod_lt _ _ Hb Hs ltac:(lia) Hblock Hmod)
    as (first & -> & Hfirst).
  destruct (uptimeLoop_stuck fuel currentBlock (Validators epoch) first
              newUptimeCounter ltac:(lia)) as [Hnever Hfuel].
  split.
  - intros counter.
    destruct (uptimeLoop fuel currentBlock (Validators epoch) first
                newUptimeCounter) as [[uptimeCounter | err] |] eqn:Hloop;
      [| done | done].
    by destruct (Hnever uptimeCounter).
  - intros _ bitmap signers Hbitmap Hsigners.
    by rewrite (Hfuel bitmap signers Hbitmap Hsigners).
Qed.

(** X18: at the first block of an epoch [calculateUptime] returns without
    entering the first loop.  For the block 1 the counter is empty; for a
    later epoch the look-back counts the signers of this very block twice,
    filtered from the validators of two blocks before: neither the
    validators of the epoch nor the headers of the previous epoch are
    read. *)
Theorem calculateUptime_first_block (fuel : nat) (config : PolyBFTConfig)
    (epoch : epochMetadata) (currentBlock : types.Header) :
  is_u64 (types.Number currentBlock) -> is_u64 (EpochSize config) ->
  3 <= EpochSize config ->
  types.Number currentBlock mod EpochSize config = 1 ->
  (types.Number currentBlock = 1 ->
   calculateUptime (S fuel) config epoch currentBlock
   = Returned (Done newUptimeCounter)) /\
  (types.Number currentBlock <> 1 ->
   calculateUptime (S fuel) config epoch currentBlock
   = Returned (uptimeLookback 2 currentBlock newUptimeCounter) /\
   (GetValidators (types.Number currentBlock - 2) = None ->
    calculateUptime (S fuel) config epoch currentBlock
    = Returned (Failed errGetValidators)) /\
   forall validators bitmap signers,
     GetValidators (types.Number currentBlock - 2) = Some validators ->
     parentBitmap (types.ExtraData currentBlock) = Some bitmap ->
     GetFilteredValidators validators bitmap = Some signers ->
     calculateUptime (S fuel) config epoch currentBlock
     = Returned
         (Done (foldl AddUptime
                  (foldl AddUptime newUptimeCounter (GetAddresses signers))
                  (GetAddresses signers)))).
Proof.
  intros Hb Hs Hsize Hmod.
  assert (calculateUptime (S fuel) config epoch currentBlock
          = if 0 <? wrap64 (types.Number currentBlock - 1)
            then Returned (uptimeLookback 2 currentBlock newUptimeCounter)
            else Returned (Done newUptimeCounter)) as Hrun.
  { unfold calculateUptime, uptimeLookbackSize.
    rewrite (proj2 (Z.ltb_ge _ _)) by lia.
    rewrite (calculateFirstBlockOfPeriod_eq _ _ Hb Hs) by (done || lia).
    cbn [uptimeLoop]. by rewrite Z.ltb_irrefl. }
  assert (1 <= types.Number currentBlock) as Hone.
  { destruct Hb as [Hb0 _].
    destruct (Z.eq_dec (types.Number currentBlock) 0) as [Hzero | Hne];
      [| lia].
    rewrite Hzero, Z.mod_0_l in Hmod by lia. lia. }
  rewrite Hrun. split.
  - intros ->. done.
  - intros Hne.
    assert (EpochSize config < types.Number currentBlock) as Hbeyond.
    { destruct (Z.lt_ge_cases (EpochSize config) (types.Number currentBlock))
        as [Hlt | Hge]; [done |].
      destruct (Z.eq_dec (types.Number currentBlock) (EpochSize config))
        as [Heq | Hneq].
      - rewrite Heq, Z.mod_same in Hmod by lia. lia.
      - rewrite Z.mod_small in Hmod by lia. lia. }
    rewrite wrap64_small by (destruct Hb; unfold is_u64; lia).
    rewrite (proj2 (Z.ltb_lt _ _)) by lia.
    split; [done |].
    cbn [uptimeLookback].
    rewrite wrap64_small by (destruct Hb; unfold is_u64; lia).
    split; [by intros -> |].
    intros validators bitmap signers -> Hbitmap Hsigners.
    unfold calculateUptimeForBlock. by rewrite Hbitmap, Hsigners.
Qed.

(** X19: [deliverMessage] hands a vote to the store exactly when an epoch
    is set, the vote is not older than it, this node is an active
    validator, the validators of the epoch are set and contain the sender;
    it processes the vote exactly when, besides, the store accepts it.  A
    processed vote is then among the votes of its epoch and digest and
    nothing else of the runtime changes.  A vote that is not processed
    leaves the runtime as it was: it is dropped without an error exactly
    when no epoch is set or the vote is older than the epoch, and a vote
    that the store refuses comes back with the error of the store. *)
Theorem deliverMessage_processed (c : consensusRuntime) (msg : TransportMessage) :
  let c' := (deliverMessage c msg).1 in
  let processed := (deliverMessage c msg).2.1 in
  let err := (deliverMessage c msg).2.2 in
  let msgVote := {| From := NodeID msg; Signature_bytes := Signature msg |} in
  (processed = true <->
   (exists epoch validators,
      runtime_epoch c = Some epoch /\
      epochNumber epoch <= EpochNumber msg /\
      isActiveValidator c = true /\
      epochValidators epoch = Some validators /\
      ContainsAddress validators (StringToAddress (NodeID msg)) = true) /\
   exists st numSignatures,
     insertMessageVote (runtime_state c) (EpochNumber msg) (Hash msg) msgVote
       = Ok (st, numSignatures)) /\
  (processed = true ->
   err = None /\
   msgVote ∈ recordedVotes (runtime_state c') (EpochNumber msg) (Hash msg) /\
   storeGrows (runtime_state c) (runtime_state c') /\
   runtime_epoch c' = runtime_epoch c /\
   activeValidatorFlag c' = activeValidatorFlag c) /\
  (processed = false -> c' = c) /\
  (processed = false /\ err = None <->
   runtime_epoch c = None \/
   exists epoch,
     runtime_epoch c = Some epoch /\ EpochNumber msg < epochNumber epoch) /\
  (forall epoch validators e,
     runtime_epoch c = Some epoch ->
     epochNumber epoch <= EpochNumber msg ->
     isActiveValidator c = true ->
     epochValidators epoch = Some validators ->
     ContainsAddress validators (StringToAddress (NodeID msg)) = true ->
     insertMessageVote (runtime_state c) (EpochNumber msg) (Hash msg) msgVote
       = Err e ->
     deliverMessage c msg = (c, (false, Some (errInsertingMessageVote e)))).
Proof.
  unfold deliverMessage, validateVote. cbn [From].
  destruct (runtime_epoch c) as [epoch |] eqn:Hepoch.
  2: { cbn. split; [| split; [done | split; [done | split; [| done]]]].
       - split; [done |]. by intros [(? & ? & ? & _) _].
       - split; [by left | done]. }
  destruct (Z.ltb_spec (EpochNumber msg) (epochNumber epoch)) as [Hold | Hnew].
  { cbn. split; [| split; [done | split; [done | split]]].
    - split; [done |]. intros [(? & ? & [= <-] & ? & _) _]. lia.
    - split; [| done]. intros _. right. by exists epoch.
    - intros ? ? ? [= <-] ?. lia. }
  destruct (isActiveValidator c) eqn:Hactive; cbn [negb].
  2: { cbn. split; [| split; [done | split; [done | split; [| done]]]].
       - split; [done |]. by intros [(? & ? & _ & _ & ? & _) _].
       - split; [by intros [_ ?] |].
         intros [? | (? & [= <-] & ?)]; [done | lia]. }
  destruct (epochValidators epoch) as [validators |] eqn:Hvalidators.
  2: { cbn. split; [| split; [done | split; [done | split]]].
       - split; [done |].
         intros [(? & ? & [= <-] & _ & _ & ? & _) _]. congruence.
       - split; [by intros [_ ?] |].
         intros [? | (? & [= <-] & ?)]; [done | lia].
       - intros ? ? ? [= <-] _ _ ?. congruence. }
  destruct (ContainsAddress validators (StringToAddress (NodeID msg)))
    eqn:Hcontains; cbn [negb].
  2: { cbn. split; [| split; [done | split; [done | split]]].
       - split; [done |].
         intros [(? & ? & [= <-] & _ & _ & Hvals & ?) _]. congruence.
       - split; [by intros [_ ?] |].
         intros [? | (? & [= <-] & ?)]; [done | lia].
       - intros ? ? ? [= <-] _ _ Hvals ?. congruence. }
  destruct (insertMessageVote (runtime_state c) (EpochNumber msg) (Hash msg) _)
    as [[st numSignatures] | e] eqn:Hinsert;
    cbn [fst snd runtime_state runtime_epoch activeValidatorFlag].
  - apply insertMessageVote_Ok in Hinsert as (_ & -> & _).
    split; [| split; [| split; [| split]]].
    + split; [| done]. intros _. split; [by exists epoch, validators |].
      by eexists _, _.
    + intros _. split; [done |].
      split; [apply putMessageVote_recorded |].
      split; [apply storeGrows_putMessageVote | done].
    + done.
    + split; [by intros [? _] |].
      intros [? | (? & [= <-] & ?)]; [done | lia].
    + done.
  - split; [| split; [| split; [| split]]].
    + split; [done |]. by intros [_ (? & ? & ?)].
    + done.
    + done.
    + split; [by intros [_ ?] |].
      intros [? | (? & [= <-] & ?)]; [done | lia].
    + by intros ? ? ? _ _ _ _ _ [= <-].
Qed.

End RuntimeProofs.

(** ** [Blockchain.CommitChain] *)
Section CommitChainProofs.
Context {Storage Body Receipt : Type}.
Context (WriteBody : Storage -> bytes -> Body -> Storage).
Context (WriteReceipts : Storage -> bytes -> list Receipt -> Storage).

Lemma checkSequence_None i (previous : @Block Body) blocks :
  checkSequence i previous blocks = None <-> linked (previous :: blocks).
Proof.
  revert i previous. induction blocks as [| block rest IH]; intros i previous.
  - cbn. split; [| done]. intros _ [| j] ? ? Hprev Hnext; done.
  - cbn [checkSequence].
    destruct (Z.eqb_spec (wrap64 (Number_Uint64 block - 1))
                (Number_Uint64 previous)) as [Hnumber | Hnumber]; cbn [negb].
    2: { split; [done |]. intros Hlinked.
         destruct (Hlinked 0%nat previous block) as [? _]; done. }
    case_bool_decide as Hparent; cbn [negb].
    2: { split; [done |]. intros Hlinked.
         destruct (Hlinked 0%nat previous block) as [_ ?]; done. }
    rewrite IH. split.
    + intros Hlinked [| j] a b Ha Hb.
      * injection Ha as <-. injection Hb as <-. done.
      * by apply (Hlinked j).
    + intros Hlinked j a b Ha Hb. by apply (Hlinked (S j)).
Qed.

(** X20: [CommitChain] succeeds exactly when there are as many receipt
    lists as blocks and every block follows the one before it (the next
    number, the hash of that block as parent hash).  A call that fails has
    written nothing: every check comes before the first write. *)
Theorem CommitChain_all_or_nothing (db : Storage) (blocks : list (@Block Body))
    (receipts : list (list Receipt)) :
  let db' := (CommitChain WriteBody WriteReceipts db blocks receipts).1 in
  let err := (CommitChain WriteBody WriteReceipts db blocks receipts).2 in
  (err = None <-> length blocks = length receipts /\ linked blocks) /\
  (err <> None -> db' = db) /\
  (err = None ->
   db' = writeChain WriteBody WriteReceipts db blocks receipts).
Proof.
  unfold CommitChain.
  destruct (Nat.eqb_spec (length blocks) (length receipts)) as [Hlen | Hlen];
    cbn [negb].
  2: { cbn. split; [| done]. split; [done |]. by intros [? _]. }
  destruct blocks as [| first rest].
  { cbn. split; [| by destruct receipts]. split; [| done].
    intros _. split; [done |]. intros i ? ? Hprev. done. }
  destruct (checkSequence 1 first rest) as [err |] eqn:Hcheck.
  - cbn. split; [| done]. split; [done |]. intros [_ Hlinked].
    apply (checkSequence_None 1) in Hlinked. congruence.
  - cbn [fst snd]. split; [| done]. split; [| done].
    intros _. split; [done |]. by apply (checkSequence_None 1).
Qed.

End CommitChainProofs.

End MoreProofs.

(** * Further properties on the concrete instances *)

#[local] Existing Instance Examples.runtimeCollaborators.

Lemma transitions_to_withVotes :
  rtc transition Scenario.twoEvents Scenario.withVotes.
Proof.
  apply (rtc_l _ _ Scenario.oneVote).
  - exact (transition_saveVote Scenario.twoEvents (Scenario.voteOf "B")).
  - apply rtc_once.
    exact (transition_saveVote Scenario.oneVote (Scenario.voteOf "C")).
Qed.

Lemma operations_only_add_witness :
  rtc transition Scenario.twoEvents Scenario.withVotes /\
  storeGrows (state Scenario.twoEvents) (state Scenario.withVotes).
Proof.
  split; [exact transitions_to_withVotes |].
  destruct (operations_only_add Scenario.twoEvents Scenario.withVotes
              transitions_to_withVotes) as [Hgrows _].
  exact Hgrows.
Defined.



Lemma pending_self_voted_witness :
  reachable Scenario.threeEvents /\
  Forall (fun c =>
            exists digest,
              Commitment_Hash c = Ok digest /\
              is_Some (votesAt (state Scenario.threeEvents) (Epoch c) digest
                         !! key_String) /\
              exists signature,
                key_Sign digest = Some signature /\
                voteMessage (Epoch c) digest signature
                  ∈ published Scenario.threeEvents)
         (pendingCommitments Scenario.threeEvents).
Proof.
  split; [exact reachable_threeEvents |].
  apply (pending_self_voted Scenario.threeEvents reachable_threeEvents).
Defined.




Lemma PostBlock_block01 :
  (PostBlock Scenario.withVotes Scenario.block01).2 = None.
Proof. vm_compute. reflexivity. Qed.

Lemma event1_withVotes :
  storedEvent (state Scenario.withVotes) 1 = Some (Scenario.event 1).
Proof. vm_compute. reflexivity. Qed.

Lemma proofs_served_after_PostBlock_witness :
  getCommitmentMessageSignedTx Scenario.block01 = Ok (Some Scenario.signed01) /\
  (PostBlock Scenario.withVotes Scenario.block01).2 = None /\
  exists proof,
    stateSyncProofs (state (PostBlock Scenario.withVotes Scenario.block01).1)
      !! 1 = Some proof /\
    StateSync proof = Scenario.event 1.
Proof.
  split; [reflexivity |].
  split; [exact PostBlock_block01 |].
  destruct (proofs_served_after_PostBlock Scenario.withVotes Scenario.block01
              Scenario.signed01 eq_refl PostBlock_block01
              1 (Scenario.event 1) ltac:(by_evaluation) event1_withVotes)
    as (proof & Hstored & Hevent & _).
  exists proof. split; [exact Hstored | exact Hevent].
Defined.

Lemma aggregation_withUndecodableVote :
  getAggSignatureForCommitmentMessage Examples.withUndecodableVote
    Scenario.commitment01 = Some (Err errUnmarshalSignature).
Proof. vm_compute. reflexivity. Qed.

Lemma aggregation_errors_witness :
  getAggSignatureForCommitmentMessage Examples.withUndecodableVote
    Scenario.commitment01 = Some (Err errUnmarshalSignature) /\
  exists vs digest vote,
    validatorSet Examples.withUndecodableVote = Some vs /\
    Commitment_Hash Scenario.commitment01 = Ok digest /\
    vote ∈ recordedVotes (state Examples.withUndecodableVote)
             (Epoch Scenario.commitment01) digest /\
    is_Some (indexValidators 0 (Accounts vs) ∅ !! From vote) /\
    UnmarshalSignature (Signature_bytes vote) = None.
Proof.
  split; [exact aggregation_withUndecodableVote |].
  destruct (aggregation_errors Examples.withUndecodableVote
              Scenario.commitment01) as (_ & _ & Hcauses).
  destruct (Hcauses errUnmarshalSignature aggregation_withUndecodableVote)
    as [[Hno _] | [[Hno _] | [[_ Hvote] | [[Hno _] | [Hno _]]]]];
    [discriminate Hno | discriminate Hno | exact Hvote | discriminate Hno
    | discriminate Hno].
Defined.

Lemma aggregation_withVotes :
  exists signature publicKeys,
    getAggSignatureForCommitmentMessage Scenario.withVotes
      Scenario.commitment01 = Some (Ok (signature, publicKeys)).
Proof. do 2 eexists. vm_compute. reflexivity. Qed.

Lemma aggregated_bitmap_witness :
  exists signature publicKeys,
    getAggSignatureForCommitmentMessage Scenario.withVotes
      Scenario.commitment01 = Some (Ok (signature, publicKeys)) /\
    exists vs digest,
      validatorSet Scenario.withVotes = Some vs /\
      Commitment_Hash Scenario.commitment01 = Ok digest /\
      (forall i : nat,
         Z.testbit (Bitmap signature) (Z.of_nat i) = true ->
         exists v vote,
           Accounts vs !! i = Some v /\
           vote ∈ recordedVotes (state Scenario.withVotes)
                    (Epoch Scenario.commitment01) digest /\
           From vote = AddressString (Address v)) /\
      length publicKeys
      = length (filter
                  (fun vote =>
                     is_Some (indexValidators 0 (Accounts vs) ∅ !! From vote))
                  (recordedVotes (state Scenario.withVotes)
                     (Epoch Scenario.commitment01) digest)).
Proof.
  destruct aggregation_withVotes as (signature & publicKeys & Hresult).
  exists signature, publicKeys. split; [exact Hresult |].
  destruct (aggregated_bitmap Scenario.withVotes Scenario.commitment01
              signature publicKeys Hresult)
    as (vs & digest & Hvs & Hdigest & _ & _ & Hbits & _ & Hlength & _).
  exists vs, digest.
  split; [exact Hvs |]. split; [exact Hdigest |].
  split; [exact Hbits | exact Hlength].
Defined.

(** The outsider X passes the lenient [Includes], so its vote is stored;
    no account has the address string X, so it is never counted. *)
Lemma validatorSet_lenientTwoEvents :
  validatorSet Examples.lenientTwoEvents = Some Examples.lenientValidators.
Proof. reflexivity. Qed.

Lemma outsider_not_indexed vs :
  validatorSet Examples.lenientTwoEvents = Some vs ->
  indexValidators 0 (Accounts vs) ∅ !! NodeID Scenario.intruderVote = None.
Proof.
  intros Hvs. pose proof validatorSet_lenientTwoEvents as Hlenient.
  rewrite Hvs in Hlenient. injection Hlenient as ->.
  vm_compute. reflexivity.
Qed.

Lemma outsider_stored :
  {| From := "X"; Signature_bytes := [Byte.x58] |}
    ∈ recordedVotes
        (state (saveVote Examples.lenientTwoEvents Scenario.intruderVote).1)
        7 Scenario.digest01.
Proof.
  apply elem_of_recordedVotes. vm_compute. reflexivity.
Qed.

Lemma uncounted_vote_changes_nothing_witness :
  (forall vs,
     validatorSet Examples.lenientTwoEvents = Some vs ->
     indexValidators 0 (Accounts vs) ∅ !! NodeID Scenario.intruderVote = None) /\
  {| From := "X"; Signature_bytes := [Byte.x58] |}
    ∈ recordedVotes
        (state (saveVote Examples.lenientTwoEvents Scenario.intruderVote).1)
        7 Scenario.digest01 /\
  hasQuorum (saveVote Examples.lenientTwoEvents Scenario.intruderVote).1
    Scenario.commitment01
  = hasQuorum Examples.lenientTwoEvents Scenario.commitment01.
Proof.
  split; [exact outsider_not_indexed |].
  split; [exact outsider_stored |].
  destruct (uncounted_vote_changes_nothing Examples.lenientTwoEvents
              Scenario.intruderVote Scenario.commitment01
              outsider_not_indexed) as (_ & Hquorum & _).
  exact Hquorum.
Defined.

Lemma is_u64_small x : 0 <= x < 1000 -> is_u64 x.
Proof. unfold is_u64, u64_modulus. lia. Qed.

Lemma epoch_of_block_witness :
  is_u64 25 /\ is_u64 10 /\
  exists e,
    getEpochNumber 25 10 = Some e /\
    (e - 1) * 10 < 25 <= e * 10.
Proof.
  split; [apply is_u64_small; lia |]. split; [apply is_u64_small; lia |].
  destruct (epoch_of_block 25 10 (is_u64_small 25 ltac:(lia))
              (is_u64_small 10 ltac:(lia))) as [_ Hpositive].
  destruct (Hpositive ltac:(lia)) as (e & He & _ & Hbounds & _).
  exists e. split; [exact He | exact Hbounds].
Defined.

Lemma first_block_of_period_witness :
  is_u64 25 /\ is_u64 10 /\
  exists first e,
    calculateFirstBlockOfPeriod 25 10 = Some first /\
    getEpochNumber 25 10 = Some e /\
    first <= 25 < first + 10 /\
    getEpochNumber first 10 = Some e.
Proof.
  split; [apply is_u64_small; lia |]. split; [apply is_u64_small; lia |].
  destruct (first_block_of_period 25 10 (is_u64_small 25 ltac:(lia))
              (is_u64_small 10 ltac:(lia))) as (_ & _ & Hpositive).
  destruct (Hpositive ltac:(lia) ltac:(lia))
    as (first & e & Hfirst & He & _ & Hbounds & Hsame).
  exists first, e. split; [exact Hfirst |]. split; [exact He |].
  split; [exact Hbounds | exact Hsame].
Defined.

Lemma latest_sprint_block_witness :
  is_u64 23 /\ is_u64 (SprintSize Examples.config10) /\
  exists sprintBlockNumber,
    getLatestSprintBlockNumber Examples.config10 23 = Some sprintBlockNumber /\
    isEndOfSprint Examples.config10 sprintBlockNumber = Some true /\
    sprintBlockNumber <= 23 < sprintBlockNumber + SprintSize Examples.config10.
Proof.
  split; [apply is_u64_small; lia |].
  split; [apply is_u64_small; cbn; lia |].
  destruct (latest_sprint_block Examples.config10 23
              (is_u64_small 23 ltac:(lia))
              (is_u64_small 5 ltac:(lia))) as [_ Hpositive].
  destruct (Hpositive ltac:(cbn; lia))
    as (sprintBlockNumber & Hblock & Hend & Hbounds & _).
  exists sprintBlockNumber.
  split; [exact Hblock |]. split; [exact Hend | exact Hbounds].
Defined.

Lemma runtime_aggregation_oneVote :
  exists aggregate,
    runtime_getAggSignatureForCommitmentMessage (state Scenario.oneVote)
      Scenario.epoch7Metadata Scenario.digest01 = Ok aggregate.
Proof. eexists. vm_compute. reflexivity. Qed.

Lemma runtime_aggregate_signers_witness :
  exists aggregate,
    runtime_getAggSignatureForCommitmentMessage (state Scenario.oneVote)
      Scenario.epoch7Metadata Scenario.digest01 = Ok aggregate /\
    exists signers : list nat,
      NoDup signers /\
      getQuorumSize (Z.of_nat (length (Validators Scenario.epoch7Metadata)))
        <= Z.of_nat (length signers) /\
      (forall i : nat,
         Z.testbit (Bitmap aggregate) (Z.of_nat i) = true <-> i ∈ signers).
Proof.
  destruct runtime_aggregation_oneVote as [aggregate Hresult].
  exists aggregate. split; [exact Hresult |].
  destruct (runtime_aggregate_signers (state Scenario.oneVote)
              Scenario.epoch7Metadata Scenario.digest01 aggregate Hresult)
    as (signers & Hnodup & Hquorum & Hbits & _).
  exists signers. split; [exact Hnodup |].
  split; [exact Hquorum | exact Hbits].
Defined.

Lemma calculateUptime_never_counts_witness :
  is_u64 (types.Number (Examples.header 15)) /\
  is_u64 (EpochSize Examples.config10) /\
  2 <= types.Number (Examples.header 15) /\
  types.Number (Examples.header 15) mod EpochSize Examples.config10 <> 1 /\
  calculateUptime 1000 Examples.config10 Scenario.epoch7Metadata
    (Examples.header 15) = OutOfFuel.
Proof.
  assert (is_u64 (types.Number (Examples.header 15))) as Hnumber
    by (apply is_u64_small; cbn; lia).
  assert (is_u64 (EpochSize Examples.config10)) as Hsize
    by (apply is_u64_small; cbn; lia).
  assert (2 <= types.Number (Examples.header 15)) as Hblock by (cbn; lia).
  assert (types.Number (Examples.header 15) mod EpochSize Examples.config10
          <> 1) as Hinside by by_evaluation.
  split; [exact Hnumber |]. split; [exact Hsize |].
  split; [exact Hblock |]. split; [exact Hinside |].
  destruct (calculateUptime_never_counts 1000 Examples.config10
              Scenario.epoch7Metadata (Examples.header 15)
              Hnumber Hsize Hblock Hinside) as [_ Hforever].
  apply (Hforever ltac:(cbn; lia) [Byte.x01; Byte.x01]
           (take 2 Scenario.validators)); reflexivity.
Defined.

Lemma calculateUptime_first_block_witness :
  is_u64 (types.Number (Examples.header 11)) /\
  is_u64 (EpochSize Examples.config10) /\
  3 <= EpochSize Examples.config10 /\
  types.Number (Examples.header 11) mod EpochSize Examples.config10 = 1 /\
  calculateUptime 1 Examples.config10 Scenario.epoch7Metadata
    (Examples.header 11)
  = Returned
      (Done (Address <$> (take 2 Scenario.validators
                          ++ take 2 Scenario.validators))).
Proof.
  assert (is_u64 (types.Number (Examples.header 11))) as Hnumber
    by (apply is_u64_small; cbn; lia).
  assert (is_u64 (EpochSize Examples.config10)) as Hsize
    by (apply is_u64_small; cbn; lia).
  assert (3 <= EpochSize Examples.config10) as Hlarge by (cbn; lia).
  assert (types.Number (Examples.header 11) mod EpochSize Examples.config10
          = 1) as Hfirst by reflexivity.
  split; [exact Hnumber |]. split; [exact Hsize |].
  split; [exact Hlarge |]. split; [exact Hfirst |].
  destruct (calculateUptime_first_block 0 Examples.config10
              Scenario.epoch7Metadata (Examples.header 11)
              Hnumber Hsize Hlarge Hfirst) as [_ Hlater].
  destruct (Hlater ltac:(cbn; lia)) as (_ & _ & Htwice).
  apply (Htwice Scenario.validators [Byte.x01; Byte.x01]
           (take 2 Scenario.validators)); reflexivity.
Defined.

Lemma deliverMessage_activeRuntime :
  (deliverMessage Examples.activeRuntime (Scenario.voteOf "B")).2.1 = true.
Proof. vm_compute. reflexivity. Qed.

Lemma deliverMessage_processed_witness :
  (deliverMessage Examples.activeRuntime (Scenario.voteOf "B")).2.1 = true /\
  {| From := "B"; Signature_bytes := String.list_byte_of_string "B" |}
    ∈ recordedVotes
        (runtime_state
           (deliverMessage Examples.activeRuntime (Scenario.voteOf "B")).1)
        7 Scenario.digest01 /\
  (deliverMessage
     (setIsActiveValidator Examples.activeRuntime false)
     (Scenario.voteOf "B")).1
  = setIsActiveValidator Examples.activeRuntime false.
Proof.
  split; [exact deliverMessage_activeRuntime |].
  split.
  - pose proof (deliverMessage_processed Examples.activeRuntime
                  (Scenario.voteOf "B")) as Hall.
    cbv zeta in Hall. destruct Hall as (_ & Hprocessed & _).
    destruct (Hprocessed deliverMessage_activeRuntime) as (_ & Hstored & _).
    exact Hstored.
  - pose proof (deliverMessage_processed
                  (setIsActiveValidator Examples.activeRuntime false)
                  (Scenario.voteOf "B")) as Hall.
    cbv zeta in Hall. destruct Hall as (_ & _ & Hrejected & _).
    apply Hrejected. vm_compute. reflexivity.
Defined.

Lemma CommitChain_gap :
  (CommitChain Examples.writeBody Examples.writeReceipts []
     [Examples.block 1; Examples.block 3] [[]; []]).2 <> None.
Proof. by_evaluation. Qed.

Lemma CommitChain_sequence :
  (CommitChain Examples.writeBody Examples.writeReceipts []
     [Examples.block 1; Examples.block 2; Examples.block 3] [[]; []; []]).2
  = None.
Proof. vm_compute. reflexivity. Qed.

Lemma CommitChain_all_or_nothing_witness :
  (CommitChain Examples.writeBody Examples.writeReceipts []
     [Examples.block 1; Examples.block 3] [[]; []]).1 = [] /\
  linked [Examples.block 1; Examples.block 2; Examples.block 3] /\
  (CommitChain Examples.writeBody Examples.writeReceipts []
     [Examples.block 1; Examples.block 2; Examples.block 3] [[]; []; []]).1
  = writeChain Examples.writeBody Examples.writeReceipts []
      [Examples.block 1; Examples.block 2; Examples.block 3] [[]; []; []].
Proof.
  split; [| split].
  - pose proof (CommitChain_all_or_nothing Examples.writeBody
                  Examples.writeReceipts []
                  [Examples.block 1; Examples.block 3] [[]; []]) as Hall.
    cbv zeta in Hall. destruct Hall as (_ & Hnothing & _).
    exact (Hnothing CommitChain_gap).
  - pose proof (CommitChain_all_or_nothing Examples.writeBody
                  Examples.writeReceipts []
                  [Examples.block 1; Examples.block 2; Examples.block 3]
                  [[]; []; []]) as Hall.
    cbv zeta in Hall. destruct Hall as ([Hlinked _] & _).
    destruct (Hlinked CommitChain_sequence) as [_ Hchain]. exact Hchain.
  - pose proof (CommitChain_all_or_nothing Examples.writeBody
                  Examples.writeReceipts []
                  [Examples.block 1; Examples.block 2; Examples.block 3]
                  [[]; []; []]) as Hall.
    cbv zeta in Hall. destruct Hall as (_ & _ & Hall).
    exact (Hall CommitChain_sequence).
Defined.
